(** * idock: a shallow embedding of the pose-search core

    The development follows the C++ sources one translation unit at a time:
    - [Result]          the conformation/result records and the RMSD
                        clustering container ([add_to_result_container]);
    - [ScoringFunction] the tabulated pairwise potential
                        (scoring_function.cpp);
    - [Receptor]        the PDBQT ingestor of receptor.cpp;
    - [MonteCarlo]      the Monte Carlo / BFGS driver of monte_carlo_task.cpp.

    Numbers.  The C++ [float] and [double] values are modelled by exact
    canonical rationals ([Qc]): comparisons and control flow are those of the
    code, rounding, infinities and NaN are not modelled.  Transcendental
    library functions ([exp], the axis-angle quaternion constructor) and the
    pieces of the repository that live in headers outside the translated
    files (atom tables, the ligand evaluator, the random engine) are
    parameters of the module that uses them: section variables, or the
    fields of a record or class.

    The file has three parts: the embedding, one module per translation
    unit, each closing with the vocabulary its statements need; the concrete
    instances the examples run on; and the proofs, which close with further
    properties of each unit (invariants of the container, of the parsing
    loop and of the task, the residue scans, the partitions, the random
    stream, the BFGS update). *)

From Stdlib Require Import QArith Qcanon Qround String Ascii.
From stdpp Require Import base numbers list strings sorting.

Abbreviation fl := Qc.

(** ** Counted loops

    [for_loop i n body s] runs [body i], [body (i+1)], ... [body (i+n-1)] in
    that order on the state [s]: the C++ [for (k = i; k < i + n; ++k)]. *)
Fixpoint for_loop {St : Type} (i n : nat) (body : nat → St → St) (s : St) : St :=
  match n with
  | O => s
  | S n' => for_loop (S i) n' body (body i s)
  end.

(** Three doubles: [array<double, 3>] / [vec3]. *)
Record vec3 := Vec3 { vx : fl; vy : fl; vz : fl }.

(** Four doubles: [array<double, 4>] / [qtn4]. *)
Record qtn4 := Qtn4 { qw : fl; qx : fl; qy : fl; qz : fl }.

Definition vec3_add (a b : vec3) : vec3 :=
  Vec3 (vx a + vx b) (vy a + vy b) (vz a + vz b).

Definition vec3_scale (s : fl) (a : vec3) : vec3 :=
  Vec3 (s * vx a) (s * vy a) (s * vz a).

(** A decimal literal of the source, read exactly. *)
Definition dec (q : Q) : fl := Q2Qc q.

(** Reading a vector cell that does not exist is undefined in C++; the model
    reads [0] there. *)
#[global] Instance fl_inhabited : Inhabited fl := populate (Q2Qc 0).

(** [static_cast<size_t>(x)] for a double [x]: the fractional part is
    discarded.  A negative result is undefined in C++; the model yields 0. *)
Definition size_t_of_double (x : fl) : nat :=
  Z.to_nat (if bool_decide (x < 0)%Qc then Qceiling x else Qfloor x).

(** Modelled from the spec: the index helpers of the packed triangular
    matrix are declared in a header that is not among the translated files.
    [restrictive(i,j)] requires [i <= j] and addresses the packed upper
    triangle of n(n+1)/2 cells; [permissive(i,j)] swaps its arguments when
    [i > j]. *)
Definition triangular_matrix_restrictive_index (i j : nat) : nat :=
  i + j * (j + 1) / 2.

Definition triangular_matrix_permissive_index (i j : nat) : nat :=
  if bool_decide (i ≤ j) then triangular_matrix_restrictive_index i j
  else triangular_matrix_restrictive_index j i.

(** * Results and the clustering container (result.hpp) *)
Module Result.

Local Open Scope Qc_scope.

(** [class conformation]. *)
Record conformation := Conformation {
  position : vec3;
  orientation : qtn4;
  torsions : list fl
}.

(** [class result].  [e_nd] is not set by either constructor; [None] stands
    for that indeterminate member. *)
Record result := Result {
  result_e : fl;
  result_f : fl;
  result_e_nd : option fl;
  heavy_atoms : list vec3;
  hydrogens : list vec3
}.

(** [explicit result(e, f, heavy_atoms_, hydrogens_)]. *)
Definition result_new (e f : fl) (heavy_atoms_ hydrogens_ : list vec3) : result :=
  Result e f None heavy_atoms_ hydrogens_.

(** [result(result&& r)]: copies [e], [f], moves the two coordinate vectors
    and leaves [e_nd] unset. *)
Definition result_move (r : result) : result :=
  Result (result_e r) (result_f r) None (heavy_atoms r) (hydrogens r).

(** [operator<] of [result] compares [e]; [result_le a b] is [!(b < a)],
    the order [sort()] establishes between neighbours. *)
Definition result_le (a b : result) : Prop := result_e a ≤ result_e b.

#[local] Instance result_le_dec : RelDecision result_le.
Proof. intros a b. unfold result_le. apply _. Defined.

(** [ptr_vector<result>]: the elements and the reserved capacity. *)
Record ptr_vector := PtrVector {
  items : list result;
  capacity : nat
}.

(** [push_back]: within the capacity nothing is reallocated; otherwise the
    capacity grows (to at least the new size). *)
Definition push_back (results : ptr_vector) (r : result) : ptr_vector :=
  PtrVector (items results ++ [r])
            (Nat.max (capacity results) (S (length (items results)))).

(** [replace(index, p)]. *)
Definition replace (results : ptr_vector) (index : nat) (r : result) : ptr_vector :=
  PtrVector (<[index := r]> (items results)) (capacity results).

(** [sort()]: orders by [operator<]; merge sort is taken as the sorting
    algorithm. *)
Definition sort (results : ptr_vector) : ptr_vector :=
  PtrVector (merge_sort result_le (items results)) (capacity results).

Section Container.

(** [distance_sqr] on coordinate vectors is declared in array.hpp. *)
Variable distance_sqr : list vec3 → list vec3 → fl.

(** The scan of lines 65-75: [index] and [best_square_error] after visiting
    [results[1 .. size)], starting from [results.front()]. *)
Definition closest (r front : result) (results : list result) : nat * fl :=
  for_loop 1 (length results - 1)
    (λ i '(index, best_square_error),
       match results !! i with
       | Some ri =>
           let this_square_error := distance_sqr (heavy_atoms r) (heavy_atoms ri) in
           if bool_decide (this_square_error < best_square_error)
           then (i, this_square_error)
           else (index, best_square_error)
       | None => (index, best_square_error)
       end)
    (0%nat, distance_sqr (heavy_atoms r) (heavy_atoms front)).

Definition add_to_result_container
    (results : ptr_vector) (r : result) (required_square_error : fl) : ptr_vector :=
  match items results with
  | [] => push_back results (result_move r)
  | front :: _ =>
      let '(index, best_square_error) := closest r front (items results) in
      let results :=
        if bool_decide (best_square_error < required_square_error) then
          match items results !! index with
          | Some ri =>
              if bool_decide (result_e r < result_e ri)
              then replace results index (result_move r)
              else results
          | None => results
          end
        else
          if bool_decide (length (items results) < capacity results)%nat
          then push_back results (result_move r)
          else
            match last (items results) with
            | Some back =>
                if bool_decide (result_e r < result_e back)
                then replace results (length (items results) - 1) (result_move r)
                else results
            | None => results
            end
      in sort results
  end.

(** [index] is the first position of least deviation among [cs] and
    [best] is that deviation. *)
Definition first_argmin (r : result) (cs : list result) (index : nat) (best : fl) : Prop :=
  let dist s := distance_sqr (heavy_atoms r) (heavy_atoms s) in
  ∃ s, cs !! index = Some s ∧ best = dist s ∧
       (∀ j sj, cs !! j = Some sj → dist s ≤ dist sj) ∧
       (∀ j sj, (j < index)%nat → cs !! j = Some sj → dist s < dist sj).

End Container.

End Result.

(** * The tabulated scoring function (scoring_function.cpp) *)
Module ScoringFunction.

Local Open Scope Qc_scope.

Definition Cutoff : fl := Qc_of_Z 8.
Definition Cutoff_Sqr : fl := Cutoff * Cutoff.
Definition Factor : fl := Qc_of_Z 256.
Definition Factor_Inverse : fl := 1 / Factor.
Definition Num_Samples : nat := (size_t_of_double (Factor * Cutoff_Sqr) + 1)%nat.

(** [class scoring_function_element]. *)
Record scoring_function_element := Element {
  e : fl;
  dor : fl
}.

#[global] Instance scoring_function_element_inhabited : Inhabited scoring_function_element :=
  populate (Element 0 0).

Definition set_e (v : fl) (el : scoring_function_element) : scoring_function_element :=
  Element v (dor el).

Definition set_dor (v : fl) (el : scoring_function_element) : scoring_function_element :=
  Element (e el) v.

(** [class scoring_function]: one sample vector per unordered type pair, in
    packed triangular order. *)
Abbreviation scoring_function := (list (list scoring_function_element)).

Definition sqr (x : fl) : fl := x * x.

Section Score.

(** The XS type tables of atom.hpp and [exp] of the C library. *)
Variable xs_vdw_radius : nat → fl.
Variable xs_is_hydrophobic : nat → bool.
Variable xs_hbond : nat → nat → bool.
Variable exp : fl → fl.

Definition score (t1 t2 : nat) (r : fl) : fl :=
  (* Calculate the surface distance d. *)
  let d := r - (xs_vdw_radius t1 + xs_vdw_radius t2) in
  (* The scoring function is a weighted sum of 5 terms. *)
  (- dec 0.035579) * exp (- sqr (d * 2))
  + (- dec 0.005156) * exp (- sqr ((d - dec 3.0) * dec 0.5))
  + (dec 0.840245) * (if bool_decide (0 < d) then 0 else d * d)
  + (- dec 0.035069) *
      (if xs_is_hydrophobic t1 && xs_is_hydrophobic t2
       then (if bool_decide (dec 1.5 ≤ d) then 0
             else if bool_decide (d ≤ dec 0.5) then 1 else dec 1.5 - d)
       else 0)
  + (- dec 0.587439) *
      (if xs_hbond t1 t2
       then (if bool_decide (0 ≤ d) then 0
             else if bool_decide (d ≤ - dec 0.7) then 1 else d * (- dec 1.428571))
       else 0).

(** The two loops and the two end assignments of [precalculate], on the
    sample vector [p] of the type pair. *)
Definition precalculate_e (t1 t2 : nat) (rs : list fl)
    (p : list scoring_function_element) : list scoring_function_element :=
  for_loop 0 Num_Samples
    (λ i p, alter (set_e (score t1 t2 (rs !!! i))) i p) p.

Definition precalculate_dor (rs : list fl)
    (p : list scoring_function_element) : list scoring_function_element :=
  for_loop 1 (Num_Samples - 1 - 1)
    (λ i p, alter (set_dor ((e (p !!! (i + 1)%nat) - e (p !!! i))
                            / ((rs !!! (i + 1)%nat - rs !!! i) * rs !!! i))) i p) p.

Definition precalculate_samples (t1 t2 : nat) (rs : list fl)
    (p : list scoring_function_element) : list scoring_function_element :=
  let p := precalculate_e t1 t2 rs p in
  let p := precalculate_dor rs p in
  let p := alter (set_dor 0) 0%nat p in             (* p.front().dor = 0 *)
  alter (set_dor 0) (length p - 1)%nat p.           (* p.back().dor = 0 *)

Definition precalculate (t1 t2 : nat) (rs : list fl) (sf : scoring_function) : scoring_function :=
  alter (precalculate_samples t1 t2 rs) (triangular_matrix_restrictive_index t1 t2) sf.

End Score.

(** Modelled from the spec: the driver that builds the sample grid is not
    among the translated files; the grid is [rs[i] = i / Factor] for
    [i < Num_Samples]. *)
Definition sample_grid : list fl :=
  (λ i : nat, Qc_of_Z (Z.of_nat i) / Factor) <$> seq 0 Num_Samples.

Definition evaluate (sf : scoring_function) (type_pair_index : nat) (r2 : fl)
    : scoring_function_element :=
  (sf !!! type_pair_index) !!! size_t_of_double (Factor * r2).

End ScoringFunction.

(** * The receptor ingestor (receptor.cpp) *)
Module Receptor.

Import ScoringFunction.
Local Open Scope Qc_scope.

(** ** Exceptions *)

(** What the constructor can throw: the standard library's [out_of_range]
    ([substr]) and [invalid_argument] ([stoul], [stod]), and the
    [parsing_error] that receptor.hpp documents, carrying the file path and
    the line number. *)
Inductive exception :=
  | out_of_range
  | invalid_argument
  | parsing_error (file : string) (line : nat) (reason : string).

Inductive outcome (A : Type) :=
  | Ok (a : A)
  | Throw (ex : exception).
Arguments Ok {A} a.
Arguments Throw {A} ex.

(** Sequencing: an exception of the first computation ends the second. *)
#[global] Instance outcome_bind : MBind outcome := λ A B k m,
  match m with
  | Ok a => k a
  | Throw ex => Throw ex
  end.

Definition of_option {A : Type} (ex : exception) (o : option A) : outcome A :=
  match o with
  | Some a => Ok a
  | None => Throw ex
  end.

(** ** Strings *)

(** [s.substr(pos, len)]: throws when [pos > s.size()], clamps otherwise. *)
Definition substr (s : string) (pos len : nat) : outcome string :=
  if bool_decide (pos ≤ String.length s)%nat then Ok (substring pos len s)
  else Throw out_of_range.

(** [s[i]]: the character, or NUL one past the end.  Further out the access
    is undefined in C++; the model reads NUL there as well. *)
Definition at_ (s : string) (i : nat) : ascii :=
  default "000"%char (String.get i s).

(** [isspace] in the C locale. *)
Definition isspace (c : ascii) : bool :=
  bool_decide (c ∈ [" "; "009"; "010"; "011"; "012"; "013"]%char).

(** ** Atoms *)

(** Modelled from the spec: atom.hpp is not among the translated files.  An
    atom has a serial number, a name, a coordinate, an AutoDock type and the
    derived flags; [donorize] raises the hydrogen-bond-donor flag and
    [dehydrophobicize] clears the hydrophobic flag. *)
Record atom := Atom {
  serial : nat;
  name : string;
  coordinate : vec3;
  ad : nat;
  donor : bool;
  hydrophobic : bool
}.

Definition donorize (a : atom) : atom :=
  Atom (serial a) (name a) (coordinate a) (ad a) true (hydrophobic a).

Definition dehydrophobicize (a : atom) : atom :=
  Atom (serial a) (name a) (coordinate a) (ad a) (donor a) false.

(** What the constructor takes from atom.hpp and from the C++ library. *)
Class AtomHeader := {
  AD_TYPE_H : nat;
  AD_TYPE_HD : nat;
  AD_TYPE_SIZE : nat;
  (** the index of the type string in the table, [AD_TYPE_SIZE] if absent *)
  parse_ad_type_string : string → nat;
  (** the flags a freshly constructed atom of a given type has *)
  ad_is_donor : nat → bool;
  ad_is_hydrophobic : nat → bool;
  is_hetero : atom → bool;
  is_neighbor : atom → atom → bool;
  stoul : string → option nat;
  stod : string → option fl
}.

(** What the constructor uses of [class box]. *)
Record box := Box {
  num_partitions : nat * nat * nat;
  project_distance_sqr : vec3 → fl;
  project_distance_sqr_cell : vec3 → vec3 → vec3 → fl;
  partition_corner1 : nat * nat * nat → vec3
}.

(** [class receptor]; a partition is keyed by its cell index. *)
Record receptor := Receptor {
  atoms : list atom;
  partitions : list (nat * nat * nat * list nat)
}.

(** Vocabulary of the statements: what a line says of itself before any
    atom is built from it. *)
Definition is_atom_record (line : string) : Prop :=
  substring 0 6 line = "ATOM  "%string ∨ substring 0 6 line = "HETATM"%string.

Definition ad_type_string (line : string) : outcome string :=
  substr line 77 (if isspace (at_ line 78) then 1 else 2).

(** [for (size_t i = hi; i > lo;) { --i; body }], where [body] may [break]:
    it returns the new state and whether it broke out. *)
Fixpoint for_down {St : Type} (i n : nat) (body : nat → St → St * bool) (s : St) : St :=
  match n with
  | O => s
  | S n' =>
      let '(s', broke) := body (i - 1)%nat s in
      if broke then s' else for_down (i - 1)%nat n' body s'
  end.

Section Constructor.

Context `{AtomHeader}.

(** [atom(serial, name, coordinate, ad)]. *)
Definition atom_new (serial : nat) (name : string) (coordinate : vec3) (ad : nat) : atom :=
  Atom serial name coordinate ad (ad_is_donor ad) (ad_is_hydrophobic ad).

(** The helper variables of the parsing loop. *)
Record parser := Parser {
  p_atoms : list atom;
  residue : ascii * ascii * ascii * ascii;
  residue_start : nat;
  num_lines : nat
}.

Definition XXXX : ascii * ascii * ascii * ascii := ("X", "X", "X", "X")%char.

(** [residue_start] is not initialised in the source; it is assigned before
    it is read unless the first atom line carries the residue tag XXXX. *)
Definition parser_init : parser := Parser [] XXXX 0 0.

(** Lines 47-58: a polar hydrogen donorizes the nearest bonded hetero atom
    of the current residue. *)
Definition donorize_bonded (a : atom) (residue_start : nat) (atoms : list atom) : list atom :=
  for_down (length atoms) (length atoms - residue_start)
    (λ i atoms,
       match atoms !! i with
       | Some b => if is_hetero b && is_neighbor b a
                   then (alter donorize i atoms, true)
                   else (atoms, false)
       | None => (atoms, false)
       end) atoms.

(** Lines 59-69: a hetero atom dehydrophobicizes every bonded carbon of the
    current residue. *)
Definition dehydrophobicize_bonded (a : atom) (residue_start : nat) (atoms : list atom)
    : list atom :=
  for_down (length atoms) (length atoms - residue_start)
    (λ i atoms,
       match atoms !! i with
       | Some b => if negb (is_hetero b) && is_neighbor b a
                   then (alter dehydrophobicize i atoms, false)
                   else (atoms, false)
       | None => (atoms, false)
       end) atoms.

(** Lines 70-81: a carbon bonded to a hetero atom of the current residue is
    dehydrophobicized. *)
Definition dehydrophobicize_carbon (a : atom) (residue_start : nat) (atoms : list atom) : atom :=
  for_down (length atoms) (length atoms - residue_start)
    (λ i a,
       match atoms !! i with
       | Some b => if is_hetero b && is_neighbor b a
                   then (dehydrophobicize a, true)
                   else (a, false)
       | None => (a, false)
       end) a.

(** Lines 26-33: the residue tag of the line against the current one. *)
Definition track_residue (st : parser) (line : string)
    : ascii * ascii * ascii * ascii * nat :=
  let (r012, r3) := residue st in
  let (r01, r2) := r012 in
  let (r0, r1) := r01 in
  if bool_decide (at_ line 25 ≠ r3) || bool_decide (at_ line 24 ≠ r2)
     || bool_decide (at_ line 23 ≠ r1) || bool_decide (at_ line 22 ≠ r0)
  then ((at_ line 22, at_ line 23, at_ line 24, at_ line 25), length (p_atoms st))
  else (residue st, residue_start st).

(** Line 44: the atom of the line.  C++ leaves the order of evaluation of
    the arguments of the [atom] and [vec3] constructors unspecified; they
    have no effect on one another, so the order shows only in which
    exception is thrown when more than one argument fails.  The model takes
    them left to right; no statement below depends on which of
    [out_of_range] and [invalid_argument] a line throws. *)
Definition parse_atom (line : string) (ad : nat) : outcome atom :=
  serial_s ← substr line 6 5;
  serial ← of_option invalid_argument (stoul serial_s);
  name ← substr line 12 4;
  x_s ← substr line 30 8;
  x ← of_option invalid_argument (stod x_s);
  y_s ← substr line 38 8;
  y ← of_option invalid_argument (stod y_s);
  z_s ← substr line 46 8;
  z ← of_option invalid_argument (stod z_s);
  Ok (atom_new serial name (Vec3 x y z) ad).

(** Lines 46-82: the three residue scans, then [atoms.push_back(a)]. *)
Definition store_atom (ad : nat) (a : atom) (residue_start : nat) (atoms : list atom)
    : list atom :=
  let '(atoms, a) :=
    if bool_decide (ad = AD_TYPE_HD)
    then (donorize_bonded a residue_start atoms, a)
    else if is_hetero a
    then (dehydrophobicize_bonded a residue_start atoms, a)
    else (atoms, dehydrophobicize_carbon a residue_start atoms) in
  atoms ++ [a].

(** The body of the [while (getline(in, line))] loop. *)
Definition parse_line (st : parser) (line : string) : outcome parser :=
  let num_lines := S (num_lines st) in
  let record := substring 0 6 line in
  if bool_decide (record = "ATOM  "%string) || bool_decide (record = "HETATM"%string) then
    (* Parse the residue sequence located at 1-based [23, 26]. *)
    let '(residue, residue_start) := track_residue st line in
    let skip := Ok (Parser (p_atoms st) residue residue_start num_lines) in
    (* Parse and validate AutoDock4 atom type. *)
    ad_type_string ← substr line 77 (if isspace (at_ line 78) then 1 else 2);
    let ad := parse_ad_type_string ad_type_string in
    if bool_decide (ad = AD_TYPE_SIZE) then skip          (* continue *)
    (* Skip non-polar hydrogens. *)
    else if bool_decide (ad = AD_TYPE_H) then skip        (* continue *)
    else
      a ← parse_atom line ad;
      Ok (Parser (store_atom ad a residue_start (p_atoms st)) residue residue_start num_lines)
  else if bool_decide (record = "TER   "%string) then
    Ok (Parser (p_atoms st) XXXX (residue_start st) num_lines)
  else
    Ok (Parser (p_atoms st) (residue st) (residue_start st) num_lines).

Fixpoint parse_lines (st : parser) (lines : list string) : outcome parser :=
  match lines with
  | [] => Ok st
  | line :: lines => st ← parse_line st line; parse_lines st lines
  end.

(** Lines 91-102: the atoms within the cutoff of the box, by index. *)
Definition receptor_atoms_within_cutoff (b : box) (atoms : list atom) : list nat :=
  for_loop 0 (length atoms)
    (λ i within,
       match atoms !! i with
       | Some a => if bool_decide (project_distance_sqr b (coordinate a) < Cutoff_Sqr)
                   then within ++ [i] else within
       | None => within
       end) [].

(** Lines 110-125: the list of one partition. *)
Definition partition (b : box) (atoms : list atom) (within : list nat) (x y z : nat)
    : list nat :=
  let corner1 := partition_corner1 b (x, y, z) in
  let corner2 := partition_corner1 b (x + 1, y + 1, z + 1)%nat in
  for_loop 0 (length within)
    (λ l par,
       match within !! l with
       | Some i =>
           match atoms !! i with
           | Some a =>
               let proj_dist_sqr := project_distance_sqr_cell b corner1 corner2 (coordinate a) in
               if bool_decide (proj_dist_sqr < Cutoff_Sqr) then par ++ [i] else par
           | None => par
           end
       | None => par
       end) [].

Definition allocate_partitions (b : box) (atoms : list atom) : list (nat * nat * nat * list nat) :=
  let within := receptor_atoms_within_cutoff b atoms in
  let '(nx, ny, nz) := num_partitions b in
  for_loop 0 nx (λ x acc,
    for_loop 0 ny (λ y acc,
      for_loop 0 nz (λ z acc, acc ++ [(x, y, z, partition b atoms within x y z)]) acc) acc) [].

(** [receptor::receptor(p, b)], on the lines read from the file [p]. *)
Definition receptor_new (p : string) (lines : list string) (b : box) : outcome receptor :=
  st ← parse_lines parser_init lines;
  Ok (Receptor (p_atoms st) (allocate_partitions b (p_atoms st))).

End Constructor.

(** Vocabulary of the statements: what identifies an atom, as against its
    two flags. *)
Definition identity (a : atom) : nat * string * vec3 * nat :=
  (serial a, name a, coordinate a, ad a).

(** Vocabulary of the statements: an atom line long enough for every
    character the constructor reads of it, up to [line[78]], to lie inside
    the string or on its terminator; reading further out is undefined. *)
Definition reads_inside (line : string) : Prop :=
  is_atom_record line → (78 ≤ String.length line)%nat.

(** Vocabulary of the statements: the residue tag of an atom line, the
    characters at 1-based [23, 26]. *)
Definition residue_of (line : string) : ascii * ascii * ascii * ascii :=
  (at_ line 22, at_ line 23, at_ line 24, at_ line 25).

(** Vocabulary of the proofs: the two tests of the partition loops, as
    predicates of the atom index. *)
Definition within_test (b : box) (atoms : list atom) (i : nat) : bool :=
  match atoms !! i with
  | Some a => bool_decide (project_distance_sqr b (coordinate a) < Cutoff_Sqr)
  | None => false
  end.

Definition cell_test (b : box) (atoms : list atom) (x y z i : nat) : bool :=
  match atoms !! i with
  | Some a => bool_decide (project_distance_sqr_cell b (partition_corner1 b (x, y, z))
                             (partition_corner1 b (x + 1, y + 1, z + 1)%nat) (coordinate a)
                           < Cutoff_Sqr)
  | None => false
  end.

End Receptor.

(** * The Monte Carlo / BFGS driver (monte_carlo_task.cpp) *)
Module MonteCarlo.

Import Result.
Local Open Scope Qc_scope.

(** The out-parameters [e], [f], [g] of [ligand::evaluate]. *)
Record outputs := Outputs {
  out_e : fl;
  out_f : fl;
  out_g : list fl
}.

(** What the task reads of the receptor: the search box. *)
Record receptor := SearchBox {
  center : vec3;
  span : vec3
}.

(** What the task uses of [class ligand] (ligand.hpp is not among the
    translated files).  [evaluate] gets the current contents of its three
    out-parameters and returns its boolean together with their new
    contents, so that an evaluation that gives up early may leave some of
    them as they were. *)
Record ligand := Ligand {
  num_active_torsions : nat;
  num_heavy_atoms : nat;
  evaluate : conformation → ScoringFunction.scoring_function → receptor → fl → outputs
             → bool * outputs;
  compose_result : fl → conformation → result
}.

(** What the task takes from Boost.Random, from the math header and from
    the build: the seeded engine with its draws from U(-1,1); the
    normalisation of a quaternion; the quaternion of an axis-angle vector;
    the value of a [float] that was declared without an initialiser; and
    the order in which the arguments of the two constructor calls that draw
    in every argument are evaluated.  C++ leaves that order unspecified:
    [vec3_rank i] says which of the three successive draws of
    [vec3(uniform_11(eng), uniform_11(eng), uniform_11(eng))] argument [i]
    receives (0 for the argument evaluated first), [qtn4_rank i] the same
    for the four arguments of [qtn4(...)].  A build that evaluates left to
    right has [rank i = i], one that evaluates right to left
    [vec3_rank i = 2 - i] and [qtn4_rank i = 3 - i]. *)
Class Library := {
  mt19937_64 : Type;
  seed_engine : nat → mt19937_64;
  uniform_11 : mt19937_64 → fl * mt19937_64;
  qtn4_normalize : qtn4 → qtn4;
  qtn4_of_vec3 : vec3 → qtn4;
  uninitialized : fl;
  vec3_rank : nat → nat;
  qtn4_rank : nat → nat
}.

(** Modelled from the spec: the quaternion product of the math header is
    the Hamilton product. *)
Definition qtn4_mul (a b : qtn4) : qtn4 :=
  Qtn4 (qw a * qw b - qx a * qx b - qy a * qy b - qz a * qz b)
       (qw a * qx b + qx a * qw b + qy a * qz b - qz a * qy b)
       (qw a * qy b - qx a * qz b + qy a * qw b + qz a * qx b)
       (qw a * qz b + qx a * qy b - qy a * qx b + qz a * qw b).

Definition zero3 : vec3 := Vec3 0 0 0.
Definition qtn4id : qtn4 := Qtn4 1 0 0 0.

(** [conformation(num_active_torsions)]. *)
Definition conformation_new (num_active_torsions : nat) : conformation :=
  Conformation zero3 qtn4id (replicate num_active_torsions 0).

(** Constants of the task. *)
Definition num_alphas : nat := 5.
Definition num_mc_iterations : nat := 50.
Definition pi : fl := dec 3.1415926535897932.

(** [for (k = i; k < i + n; ++k) body], where [body] may [break]: the value
    of the counter when the loop is left, and the state. *)
Fixpoint for_break {St : Type} (i n : nat) (body : nat → St → St * bool) (s : St)
    : nat * St :=
  match n with
  | O => (i, s)
  | S n' =>
      let '(s', broke) := body i s in
      if broke then (i, s') else for_break (S i) n' body s'
  end.

(** [sum_i a[i] * b[i]] over [i < n], accumulated from 0. *)
Definition dot (n : nat) (a b : list fl) : fl :=
  for_loop 0 n (λ i sum, sum + a !!! i * b !!! i) 0.

(** [out[i] = - sum_j h[permissive(i,j)] * v[j]] for [i < n]. *)
Definition minus_h_times (n : nat) (h v out : list fl) : list fl :=
  for_loop 0 n
    (λ i out,
       let sum := for_loop 0 n
                    (λ j sum, sum + h !!! triangular_matrix_permissive_index i j * v !!! j) 0 in
       <[i := - sum]> out) out.

(** Lines 50-52. *)
Definition identity_hessian (num_variables : nat) : list fl :=
  for_loop 0 num_variables
    (λ i h, <[triangular_matrix_restrictive_index i i := 1]> h)
    (replicate (num_variables * (num_variables + 1) / 2) 0).

(** The variables of the BFGS loop that outlive one pass through it. *)
Record bfgs_vars := Bfgs {
  c1 : conformation; v1 : outputs;      (* c1, and e1, f1, g1 *)
  c2 : conformation; v2 : outputs;      (* c2, and e2, f2, g2 *)
  p : list fl;
  pg2 : fl;
  h : list fl;
  y : list fl;
  mhy : list fl
}.

(** The variables a line search works on. *)
Record search := Search {
  alpha : fl;
  s_c2 : conformation;
  s_v2 : outputs;
  s_pg2 : fl
}.

(** Vocabulary of the statements: [lig] with the boolean of every
    evaluation passed through [phi], the out-parameters being those of
    [lig]. *)
Definition with_flag (phi : bool → bool) (lig : ligand) : ligand :=
  Ligand (num_active_torsions lig) (num_heavy_atoms lig)
    (λ c sf rec e_upper_bound out,
       let '(ok, out') := evaluate lig c sf rec e_upper_bound out in (phi ok, out'))
    (compose_result lig).

(** Vocabulary of the statements: the step lengths, in the order of the
    trials. *)
Definition alphas : list fl := [1; dec 0.1; dec 0.01; dec 0.001; dec 0.0001].

Section Task.

Context `{Library}.

(** The variables of the task. *)
Record task := Task {
  eng : mt19937_64;
  c0 : conformation;
  v0 : outputs;                         (* e0, f0, g0 *)
  r : result;
  vars : bfgs_vars
}.

Variable lig : ligand.
Variable sf : ScoringFunction.scoring_function.
Variable rec : receptor.

Definition num_variables : nat := 6 + num_active_torsions lig.
Definition e_upper_bound : fl := Qc_of_Z 40 * Qc_of_Z (Z.of_nat (num_heavy_atoms lig)).

(** Lines 99-106: [c2 = c1 + alpha * p], written into the old [c2]. *)
Definition step_conformation (c1 : conformation) (p : list fl) (alpha : fl)
    (c2 : conformation) : conformation :=
  Conformation
    (vec3_add (position c1) (vec3_scale alpha (Vec3 (p !!! 0%nat) (p !!! 1%nat) (p !!! 2%nat))))
    (qtn4_mul (qtn4_of_vec3 (vec3_scale alpha (Vec3 (p !!! 3%nat) (p !!! 4%nat) (p !!! 5%nat))))
              (orientation c1))
    (for_loop 0 (num_active_torsions lig)
       (λ i t, <[i := torsions c1 !!! i + alpha * p !!! (6 + i)%nat]> t) (torsions c2)).

(** Lines 98-120: one trial of the line search; [true] is the [break]. *)
Definition trial (c1 : conformation) (e1 : fl) (p : list fl) (pg1 : fl)
    (num_alpha_trials : nat) (s : search) : search * bool :=
  let c2 := step_conformation c1 p (alpha s) (s_c2 s) in
  let '(ok, v2) := evaluate lig c2 sf rec (e1 + dec 0.0001 * alpha s * pg1) (s_v2 s) in
  if ok then
    let pg2 := dot num_variables p (out_g v2) in
    if bool_decide (dec 0.9 * pg1 ≤ pg2)
    then (Search (alpha s) c2 v2 pg2, true)                 (* break *)
    else (Search (alpha s * dec 0.1) c2 v2 pg2, false)
  else (Search (alpha s * dec 0.1) c2 v2 (s_pg2 s), false).

(** Lines 95-121. *)
Definition line_search (c1 : conformation) (e1 : fl) (p : list fl) (pg1 : fl)
    (c2 : conformation) (v2 : outputs) (pg2 : fl) : nat * search :=
  for_break 0 num_alphas (trial c1 e1 p pg1) (Search 1 c2 v2 pg2).

(** Vocabulary of the statements: the variables of the search before trial
    [k], when no earlier trial was accepted; and whether trial [k] is then
    accepted (leaves by [break]). *)
Fixpoint attempt (c1 : conformation) (e1 : fl) (p : list fl) (pg1 : fl)
    (s0 : search) (k : nat) : search :=
  match k with
  | O => s0
  | S k =>
      let s := attempt c1 e1 p pg1 s0 k in
      let s' := (trial c1 e1 p pg1 k s).1 in
      Search (alpha s * dec 0.1) (s_c2 s') (s_v2 s') (s_pg2 s')
  end.

Definition accepted (c1 : conformation) (e1 : fl) (p : list fl) (pg1 : fl)
    (s0 : search) (k : nat) : bool :=
  (trial c1 e1 p pg1 k (attempt c1 e1 p pg1 s0 k)).2.

(** Lines 126-148: the update of the inverse Hessian. *)
Definition update_hessian (alpha : fl) (g1 g2 p : list fl) (h y mhy : list fl)
    : list fl * list fl * list fl :=
  let n := num_variables in
  let y := for_loop 0 n (λ i y, <[i := g2 !!! i - g1 !!! i]> y) y in
  let mhy := minus_h_times n h y mhy in
  let yhy := for_loop 0 n (λ i yhy, yhy - y !!! i * mhy !!! i) 0 in
  let yp := for_loop 0 n (λ i yp, yp + y !!! i * p !!! i) 0 in
  let ryp := 1 / yp in
  let pco := ryp * (ryp * yhy + alpha) in
  let h :=
    for_loop 0 n (λ i h,
      for_loop i (n - i) (λ j h,
        let k := triangular_matrix_restrictive_index i j in
        <[k := h !!! k + (ryp * (mhy !!! i * p !!! j + mhy !!! j * p !!! i)
                          + pco * p !!! i * p !!! j)]> h) h) h in
  (h, y, mhy).

(** Lines 76-155: the [while (true)] loop.  [fuel] bounds the number of
    passes; [None] means the bound was reached before the loop was left. *)
Fixpoint bfgs (fuel : nat) (b : bfgs_vars) : option bfgs_vars :=
  match fuel with
  | O => None
  | S fuel =>
      let p := minus_h_times num_variables (h b) (out_g (v1 b)) (p b) in
      let pg1 := dot num_variables p (out_g (v1 b)) in
      let '(num_alpha_trials, s) :=
        line_search (c1 b) (out_e (v1 b)) p pg1 (c2 b) (v2 b) (pg2 b) in
      (* If an appropriate alpha cannot be found, exit the BFGS loop. *)
      if bool_decide (num_alpha_trials = num_alphas)
      then Some (Bfgs (c1 b) (v1 b) (s_c2 s) (s_v2 s) p (s_pg2 s) (h b) (y b) (mhy b))
      else
        let '(h, y, mhy) :=
          update_hessian (alpha s) (out_g (v1 b)) (out_g (s_v2 s)) p (h b) (y b) (mhy b) in
        (* Move to the next iteration. *)
        bfgs fuel (Bfgs (s_c2 s) (s_v2 s) (s_c2 s) (s_v2 s) p (s_pg2 s) h y mhy)
  end.

(** Lines 62-65: the mutation.  The three arguments of [vec3] make three
    successive draws, in the order in which the build evaluates them:
    argument [i] receives draw [vec3_rank i]. *)
Definition mutate (c0 : conformation) (eng : mt19937_64) : conformation * mt19937_64 :=
  let c1 := c0 in
  let '(d0, eng) := uniform_11 eng in
  let '(d1, eng) := uniform_11 eng in
  let '(d2, eng) := uniform_11 eng in
  let argument i := [d0; d1; d2] !!! vec3_rank i in
  (Conformation (vec3_add (position c1) (Vec3 (argument 0%nat) (argument 1%nat) (argument 2%nat)))
                (orientation c1) (torsions c1), eng).

(** Lines 62-69: mutation, evaluation of [c1], reset of [h]. *)
Definition mc_mutate (t : task) : task :=
  let '(c1, eng) := mutate (c0 t) (eng t) in
  let b := vars t in
  let v1 := (evaluate lig c1 sf rec e_upper_bound (v1 b)).2 in
  Task eng (c0 t) (v0 t) (r t)
       (Bfgs c1 v1 (c2 b) (v2 b) (p b) (pg2 b) (identity_hessian num_variables) (y b) (mhy b)).

(** Lines 157-165: accept [c1] according to the Metropolis criterion. *)
Definition mc_accept (t : task) (b : bfgs_vars) : task :=
  if bool_decide (out_e (v1 b) < out_e (v0 t))
  then Task (eng t) (c1 b) (Outputs (out_e (v1 b)) (out_f (v0 t)) (out_g (v0 t)))
            (compose_result lig (out_e (v1 b)) (c1 b)) b
  else Task (eng t) (c0 t) (v0 t) (r t) b.

(** One pass through the outer loop. *)
Definition mc_iteration (fuel : nat) (t : task) : option task :=
  let t := mc_mutate t in
  b ← bfgs fuel (vars t);
  Some (mc_accept t b).

Fixpoint mc_iterations (n : nat) (fuel : nat) (t : task) : option task :=
  match n with
  | O => Some t
  | S n => t ← mc_iteration fuel t; mc_iterations n fuel t
  end.

(** Lines 24-36: the random start.  The four arguments of [qtn4] make
    four successive draws, in the order in which the build evaluates them:
    argument [i] receives draw [qtn4_rank i] of the four. *)
Definition mc_start (seed : nat) : task :=
  let eng := seed_engine seed in
  let T := num_active_torsions lig in
  let c0 := conformation_new T in
  let g0 := replicate (6 + T) 0 in
  (* Randomize conformation c0. *)
  let '(u, eng) := uniform_11 eng in
  let position := vec3_add (center rec) (vec3_scale u (span rec)) in
  let '(d1, eng) := uniform_11 eng in
  let '(d2, eng) := uniform_11 eng in
  let '(d3, eng) := uniform_11 eng in
  let '(d4, eng) := uniform_11 eng in
  let argument i := [d1; d2; d3; d4] !!! qtn4_rank i in
  let orientation :=
    qtn4_normalize (Qtn4 (argument 0%nat) (argument 1%nat) (argument 2%nat) (argument 3%nat)) in
  let '(torsions, eng) :=
    for_loop 0 T (λ i '(torsions, eng),
                    let '(u, eng) := uniform_11 eng in (<[i := u]> torsions, eng))
             (torsions c0, eng) in
  let c0 := Conformation position orientation torsions in
  let v0 := (evaluate lig c0 sf rec e_upper_bound (Outputs uninitialized uninitialized g0)).2 in
  let r := compose_result lig (out_e v0) c0 in
  (* Initialize necessary variables for BFGS. *)
  let g := replicate (6 + T) 0 in
  Task eng c0 v0 r
       (Bfgs (conformation_new T) (Outputs uninitialized uninitialized g)
             (conformation_new T) (Outputs uninitialized uninitialized g)
             g uninitialized
             (identity_hessian num_variables) g g).

(** [monte_carlo_task(r, lig, seed, sf, rec)]: the variables of the task
    when it returns, among them the result slot [r]. *)
Definition monte_carlo_task (fuel : nat) (seed : nat) : option task :=
  mc_iterations num_mc_iterations fuel (mc_start seed).

End Task.

(** Vocabulary of the statements: [sum_j f(j)] over [j < n], accumulated
    from 0 as the loops of the task do; and entry [i] of the product of the
    packed symmetric matrix [h] with the vector [v], the inner loop of
    lines 81-83 and 131-133. *)
Definition sum_to (n : nat) (f : nat → fl) : fl :=
  for_loop 0 n (λ j sum, sum + f j) 0.

Definition times (n : nat) (h v : list fl) (i : nat) : fl :=
  sum_to n (λ j, h !!! triangular_matrix_permissive_index i j * v !!! j).

(** Vocabulary of the statements: the engine after [n] draws from U(-1,1),
    and the draw it gives next (draw number [n], counted from 0). *)
Definition after_draws `{Library} (n : nat) (eng : mt19937_64) : mt19937_64 :=
  Nat.iter n (λ eng, (uniform_11 eng).2) eng.

Definition draw `{Library} (n : nat) (eng : mt19937_64) : fl :=
  (uniform_11 (after_draws n eng)).1.

End MonteCarlo.

(** * Concrete instances used by the examples *)
Module Fixtures.

Import Result ScoringFunction.
Local Open Scope Qc_scope.

(** A concrete deviation for the examples: the sum over the aligned atoms of
    the squared coordinate differences. *)
Definition sum_sqr_dev (a b : list vec3) : fl :=
  foldr Qcplus 0
    (zip_with (λ p q, (vx p - vx q) * (vx p - vx q) + (vy p - vy q) * (vy p - vy q)
                      + (vz p - vz q) * (vz p - vz q)) a b).

Definition pose (e : Z) (x y z : Z) : result :=
  result_new (Qc_of_Z e) (Qc_of_Z e) [Vec3 (Qc_of_Z x) (Qc_of_Z y) (Qc_of_Z z)] [].

Definition insert_all (K : nat) (tau : fl) (rs : list result) : ptr_vector :=
  foldl (λ c r, add_to_result_container sum_sqr_dev c r tau) (PtrVector [] K) rs.

Definition energies (c : ptr_vector) : list fl := result_e <$> items c.

(** Scoring tables: every XS radius is 1, every type hydrophobic, no hydrogen
    bond, and a constant stand-in for [exp]. *)
Definition xs_vdw_radius (t : nat) : fl := 1.
Definition xs_is_hydrophobic (t : nat) : bool := true.
Definition xs_hbond (t1 t2 : nat) : bool := false.
Definition exp (x : fl) : fl := 1.

Definition blank_table : scoring_function := [replicate Num_Samples (Element 0 0)].

(** A small AutoDock type table and simple stand-ins for the library
    parsers, on the decimal notation PDBQT files use. *)
Definition ad_type_strings : list string :=
  ["H"; "HD"; "C"; "A"; "N"; "NA"; "OA"; "S"]%string.

Fixpoint index_of (t : string) (table : list string) : nat :=
  match table with
  | [] => 0
  | t' :: table => if bool_decide (t = t') then 0 else S (index_of t table)
  end.

Fixpoint skip_spaces (s : string) : string :=
  match s with
  | String c s' => if Receptor.isspace c then skip_spaces s' else s
  | EmptyString => s
  end.

Definition digit (c : ascii) : option nat :=
  let n := nat_of_ascii c in
  if bool_decide (48 ≤ n ≤ 57)%nat then Some (n - 48)%nat else None.

(** The digits at the head of [s]: their value, how many there are, and the
    rest of the string. *)
Fixpoint digits (s : string) (value count : nat) : nat * nat * string :=
  match s with
  | String c s' =>
      match digit c with
      | Some d => digits s' (10 * value + d)%nat (S count)
      | None => (value, count, s)
      end
  | EmptyString => (value, count, s)
  end.

Definition stoul (s : string) : option nat :=
  let '(value, count, _) := digits (skip_spaces s) 0 0 in
  if bool_decide (count = 0)%nat then None else Some value.

Definition stod (s : string) : option fl :=
  let s := skip_spaces s in
  let '(negative, s) :=
    match s with
    | String "-" s' => (true, s')
    | _ => (false, s)
    end in
  let '(int_part, int_count, s) := digits s 0 0 in
  let '(frac_part, frac_count, _) :=
    match s with
    | String "." s' => digits s' 0 0
    | _ => (0, 0, s)%nat
    end in
  if bool_decide (int_count + frac_count = 0)%nat then None
  else
    let magnitude :=
      Qc_of_Z (Z.of_nat int_part)
      + Qc_of_Z (Z.of_nat frac_part) / Qc_of_Z (Z.of_nat (10 ^ frac_count)) in
    Some (if negative : bool then - magnitude else magnitude).

Definition distance_sqr3 (a b : vec3) : fl :=
  (vx a - vx b) * (vx a - vx b) + (vy a - vy b) * (vy a - vy b)
  + (vz a - vz b) * (vz a - vz b).

(** Hetero atoms are the types from N on; two atoms are bonded when they
    are less than 2 apart; N and O types start as acceptors, not donors;
    carbons start hydrophobic. *)
#[export] Instance atom_header : Receptor.AtomHeader := {|
  Receptor.AD_TYPE_H := 0;
  Receptor.AD_TYPE_HD := 1;
  Receptor.AD_TYPE_SIZE := length ad_type_strings;
  Receptor.parse_ad_type_string t := index_of t ad_type_strings;
  Receptor.ad_is_donor t := false;
  Receptor.ad_is_hydrophobic t := bool_decide (t = 2 ∨ t = 3)%nat;
  Receptor.is_hetero a := bool_decide (4 ≤ Receptor.ad a)%nat;
  Receptor.is_neighbor a b :=
    bool_decide (distance_sqr3 (Receptor.coordinate a) (Receptor.coordinate b) < Qc_of_Z 4);
  Receptor.stoul := stoul;
  Receptor.stod := stod
|}.

(** A box of one partition around the origin that sees every atom. *)
Definition unit_box : Receptor.box :=
  Receptor.Box (1, 1, 1)%nat (λ _, 0) (λ _ _ _, 0) (λ _, Vec3 0 0 0).

Definition line_N : string :=
  "ATOM      1  N   ALA A   1       0.000   0.000   0.000  1.00  0.00    -0.350 N ".
Definition line_HN : string :=
  "ATOM      2  HN  ALA A   1       1.000   0.000   0.000  1.00  0.00     0.163 HD".
Definition line_CA : string :=
  "ATOM      3  CA  ALA A   1      -1.000   1.000   0.000  1.00  0.00     0.100 C ".
Definition line_HA : string :=
  "ATOM      4  HA  ALA A   1      -2.000   1.000   0.000  1.00  0.00     0.100 H ".
Definition line_unknown : string :=
  "ATOM      5  X   ALA A   1       5.000   5.000   5.000  1.00  0.00     0.000 Xx".

(** A line that is no atom record. *)
Definition line_remark : string := "REMARK  receptor".

(** A random engine that cycles through four draws, stand-ins for the two
    quaternion constructors (no normalisation, small-angle rotation), and a
    build that evaluates the arguments of a call from right to left. *)
Definition draws : list fl := [dec 0.5; - dec 0.25; dec 0.75; - dec 0.5].

Definition uniform_11 (eng : nat) : fl * nat := (draws !!! (eng mod 4)%nat, S eng).

#[export] Instance library : MonteCarlo.Library := {|
  MonteCarlo.mt19937_64 := nat;
  MonteCarlo.seed_engine seed := seed;
  MonteCarlo.uniform_11 := uniform_11;
  MonteCarlo.qtn4_normalize q := q;
  MonteCarlo.qtn4_of_vec3 v := Qtn4 1 (vx v / dec 2) (vy v / dec 2) (vz v / dec 2);
  MonteCarlo.uninitialized := 0;
  MonteCarlo.vec3_rank i := (2 - i)%nat;
  MonteCarlo.qtn4_rank i := (3 - i)%nat
|}.

(** The same library in a build that evaluates from left to right. *)
Definition left_to_right : MonteCarlo.Library := {|
  MonteCarlo.mt19937_64 := nat;
  MonteCarlo.seed_engine seed := seed;
  MonteCarlo.uniform_11 := uniform_11;
  MonteCarlo.qtn4_normalize q := q;
  MonteCarlo.qtn4_of_vec3 v := Qtn4 1 (vx v / dec 2) (vy v / dec 2) (vz v / dec 2);
  MonteCarlo.uninitialized := 0;
  MonteCarlo.vec3_rank i := i;
  MonteCarlo.qtn4_rank i := i
|}.

Definition search_box : MonteCarlo.receptor :=
  MonteCarlo.SearchBox (Vec3 (dec 1) (dec 2) (dec 3)) (Vec3 (dec 10) (dec 20) (dec 30)).

Definition pose_of (c : conformation) : list vec3 := [position c].

(** A ligand of one torsion whose evaluation always gives up: it reports the
    energy 100 and leaves the gradient as it found it. *)
Definition rejecting_ligand : MonteCarlo.ligand :=
  MonteCarlo.Ligand 1 1
    (λ c sf rec e_upper_bound out,
       (false, MonteCarlo.Outputs (dec 100) (dec 100) (MonteCarlo.out_g out)))
    (λ e c, result_new e e (pose_of c) []).

(** A ligand of one torsion in a quadratic bowl: the energy is the squared
    norm of position and torsion; an evaluation gives up, before it writes
    the gradient, when the energy is not below the bound. *)
Definition bowl_energy (c : conformation) : fl :=
  vx (position c) * vx (position c) + vy (position c) * vy (position c)
  + vz (position c) * vz (position c)
  + foldr (λ t acc, t * t + acc) 0 (torsions c).

Definition bowl_gradient (c : conformation) : list fl :=
  [dec 2 * vx (position c); dec 2 * vy (position c); dec 2 * vz (position c); 0; 0; 0]
  ++ ((λ t, dec 2 * t) <$> torsions c).

Definition bowl_ligand : MonteCarlo.ligand :=
  MonteCarlo.Ligand 1 1000
    (λ c sf rec e_upper_bound out,
       let e := bowl_energy c in
       if bool_decide (e < e_upper_bound)
       then (true, MonteCarlo.Outputs e e (bowl_gradient c))
       else (false, MonteCarlo.Outputs e e (MonteCarlo.out_g out)))
    (λ e c, result_new e e (pose_of c) []).

(** The same bowl for a ligand of one heavy atom: the bound
    [40 * num_heavy_atoms] is then 40, below the energy of the start. *)
Definition tight_bowl_ligand : MonteCarlo.ligand :=
  MonteCarlo.Ligand 1 1 (MonteCarlo.evaluate bowl_ligand) (MonteCarlo.compose_result bowl_ligand).

End Fixtures.

(** * Proofs *)

(** ** Counted loops: the invariant rule *)
Lemma for_loop_ind {St : Type} (P : nat → St → Prop) body i n (s : St) :
  P i s →
  (∀ k t, i ≤ k < i + n → P k t → P (S k) (body k t)) →
  P (i + n) (for_loop i n body s).
Proof.
  revert i s. induction n as [|n IH]; intros i s H0 Hstep; simpl.
  - by rewrite Nat.add_0_r.
  - replace (i + S n) with (S i + n) by lia.
    apply IH.
    + apply Hstep; [lia | done].
    + intros k t Hk. apply Hstep. lia.
Qed.

(** ** The clustering container *)
Module ResultProofs.
Import Result Fixtures.
Local Open Scope Qc_scope.

Section Container.

Variable distance_sqr : list vec3 → list vec3 → fl.

Abbreviation dist r s := (distance_sqr (heavy_atoms r) (heavy_atoms s)).

Lemma closest_first_argmin r front rest :
  let cs := front :: rest in
  first_argmin distance_sqr r cs
    (closest distance_sqr r front cs).1 (closest distance_sqr r front cs).2.
Proof.
  intros cs. unfold closest.
  set (body := λ (i : nat) '(index, best_square_error), _).
  set (init := (0%nat, dist r front)).
  (* invariant: the scan is right on the prefix [cs[0 .. k)] *)
  pose (P := λ (k : nat) (st : nat * fl),
    ∃ s, (st.1 < k)%nat ∧ cs !! st.1 = Some s ∧ st.2 = dist r s ∧
         (∀ j sj, (j < k)%nat → cs !! j = Some sj → dist r s ≤ dist r sj) ∧
         (∀ j sj, (j < st.1)%nat → cs !! j = Some sj → dist r s < dist r sj)).
  assert (HP : P (1 + (length cs - 1))%nat (for_loop 1 (length cs - 1) body init)).
  { apply for_loop_ind.
    - exists front. subst P init; simpl. split; [lia|]. split; [done|]. split; [done|]. split.
      + intros [|j] sj Hj Hsj; [|lia]. simpl in Hsj. injection Hsj as <-. apply Qcle_refl.
      + intros j sj Hj; lia.
    - intros k [index best] Hk (s & Hlt & Hs & Hbest & Hmin & Hfirst); simpl in *.
      destruct (cs !! k) as [sk|] eqn:Hsk.
      + subst P body; simpl. subst best.
        case_bool_decide as Hcmp; simpl.
        * exists sk. split; [lia|]. split; [done|]. split; [done|]. split.
          -- intros j sj Hj Hsj. destruct (decide (j = k)) as [->|Hne].
             ++ rewrite Hsk in Hsj. injection Hsj as <-. apply Qcle_refl.
             ++ apply Qclt_le_weak, Qclt_le_trans with (dist r s); [done|].
                apply (Hmin j); [lia | done].
          -- intros j sj Hj Hsj.
             apply Qclt_le_trans with (dist r s); [done|]. apply (Hmin j); [lia | done].
        * exists s. split; [lia|]. split; [done|]. split; [done|]. split; [|done].
          intros j sj Hj Hsj. destruct (decide (j = k)) as [->|Hne].
          -- rewrite Hsk in Hsj. injection Hsj as <-. by apply Qcnot_lt_le.
          -- apply (Hmin j); [lia | done].
      + apply lookup_ge_None in Hsk. simpl in Hsk. lia. }
  destruct HP as (s & _ & Hs & Hbest & Hmin & Hfirst).
  exists s. split; [done|]. split; [done|]. split; [|done].
  intros j sj Hsj. apply (Hmin j); [|done].
  apply lookup_lt_Some in Hsj. simpl in *. lia.
Qed.

#[local] Instance result_le_total : Total result_le.
Proof. intros a b. unfold result_le. apply Qc_le_total. Qed.

Lemma sort_items (results : ptr_vector) :
  items (sort results) ≡ₚ items results ∧ Sorted result_le (items (sort results)) ∧
  capacity (sort results) = capacity results.
Proof.
  unfold sort; simpl. split; [apply merge_sort_Permutation|].
  split; [apply (Sorted_merge_sort result_le) | done].
Qed.

(** C3. Inserting [r] into a non-empty container [cs] of capacity [K]
    (so [length cs <= K]) with threshold [tau]: [i] is the first index of
    least squared deviation from [r], [s] the member there and [back] the
    last member.  If the deviation is below [tau], [r] takes the place of
    [s] exactly when [r.e < s.e] and is dropped otherwise; if it is at least
    [tau], [r] is appended when [length cs < K], takes the place of the last
    member when the container is full and [r.e < back.e], and is dropped
    otherwise.  The container that comes out holds exactly those members,
    is sorted ascending by [e], has at most [K] members and keeps its
    capacity.  (The stored copy of [r] is the move-constructed one.) *)
Theorem add_to_result_container_spec (cs : list result) (K : nat) (r : result) (tau : fl) :
  cs ≠ [] → (length cs ≤ K)%nat →
  ∃ (i : nat) (s back : result),
    cs !! i = Some s ∧ last cs = Some back ∧
    (∀ j sj, cs !! j = Some sj → dist r s ≤ dist r sj) ∧
    (∀ j sj, (j < i)%nat → cs !! j = Some sj → dist r s < dist r sj) ∧
    let out := add_to_result_container distance_sqr (PtrVector cs K) r tau in
    items out ≡ₚ
      (if bool_decide (dist r s < tau) then
         if bool_decide (result_e r < result_e s) then <[i := result_move r]> cs else cs
       else if bool_decide (length cs < K)%nat then cs ++ [result_move r]
       else if bool_decide (result_e r < result_e back)
            then <[(length cs - 1)%nat := result_move r]> cs else cs) ∧
    Sorted result_le (items out) ∧
    (length (items out) ≤ K)%nat ∧
    capacity out = K.
Proof.
  intros Hne Hlen.
  destruct cs as [|front rest]; [done|]. clear Hne.
  set (cs := front :: rest) in *.
  destruct (closest_first_argmin r front rest) as (s & Hs & Hbest & Hmin & Hfirst).
  fold cs in Hs, Hbest, Hmin, Hfirst.
  destruct (last cs) as [back|] eqn:Hback; [|by apply last_None in Hback].
  destruct (closest distance_sqr r front cs) as [index best] eqn:Hcl;
    simpl in Hs, Hbest, Hfirst. subst best.
  exists index, s, back.
  split; [done|]. split; [done|]. split; [done|]. split; [done|].
  intros out.
  assert (Hout : ∃ v, out = sort v ∧ capacity v = K ∧
    items v =
      (if bool_decide (dist r s < tau) then
         if bool_decide (result_e r < result_e s) then <[index := result_move r]> cs else cs
       else if bool_decide (length cs < K)%nat then cs ++ [result_move r]
       else if bool_decide (result_e r < result_e back)
            then <[(length cs - 1)%nat := result_move r]> cs else cs)).
  { subst out cs. unfold add_to_result_container. cbn [items capacity].
    rewrite Hcl, Hs, Hback. eexists. split; [reflexivity|].
    unfold replace, push_back; cbn [items capacity].
    repeat case_bool_decide; cbn [items capacity]; split; try done; lia. }
  destruct Hout as (v & -> & Hcap & Hitems).
  destruct (sort_items v) as (Hperm & Hsorted & Hcap').
  rewrite Hcap', Hcap, <- Hitems.
  split; [done|]. split; [done|]. split; [|done].
  rewrite (Permutation_length Hperm), Hitems.
  subst cs. repeat case_bool_decide; rewrite ?length_insert, ?length_app; simpl in *; lia.
Qed.

End Container.

(** The first result is simply saved. *)
Example first_result_saved :
  energies (insert_all 20 (Qc_of_Z 4) [pose (-5) 0 0 0]) = [Qc_of_Z (-5)].
Proof. vm_compute. reflexivity. Qed.

(** Near duplicate with better energy: B takes A's place. *)
Example near_duplicate_replaced :
  energies (insert_all 20 (Qc_of_Z 4) [pose (-4) 0 0 0; pose (-5) 1 0 0]) = [Qc_of_Z (-5)].
Proof. vm_compute. reflexivity. Qed.

(** Near duplicate with worse energy: dropped. *)
Example near_duplicate_dropped :
  energies (insert_all 20 (Qc_of_Z 4) [pose (-5) 0 0 0; pose (-4) 1 0 0]) = [Qc_of_Z (-5)].
Proof. vm_compute. reflexivity. Qed.

(** Diverse poses with capacity 3: D takes the place of the worst. *)
Example diverse_append_then_replace_worst :
  energies (insert_all 3 (Qc_of_Z 4)
              [pose (-3) 0 0 0; pose (-5) 3 0 0; pose (-2) 0 3 0; pose (-4) 0 0 3])
  = [Qc_of_Z (-5); Qc_of_Z (-4); Qc_of_Z (-3)].
Proof. vm_compute. reflexivity. Qed.

Lemma add_to_result_container_spec_witness :
  let out := add_to_result_container sum_sqr_dev
               (PtrVector [pose (-3) 0 0 0; pose (-2) 0 3 0] 2) (pose (-4) 0 0 3) (Qc_of_Z 4) in
  Sorted result_le (items out) ∧ (length (items out) ≤ 2)%nat.
Proof.
  destruct (add_to_result_container_spec sum_sqr_dev
              [pose (-3) 0 0 0; pose (-2) 0 3 0] 2 (pose (-4) 0 0 3) (Qc_of_Z 4))
    as (i & s & back & _ & _ & _ & _ & _ & Hsorted & Hlen & _).
  - done.
  - simpl. lia.
  - exact (conj Hsorted Hlen).
Defined.

End ResultProofs.

(** ** The scoring table *)
Module ScoringFunctionProofs.
Import ScoringFunction.
Local Open Scope Qc_scope.

Lemma Num_Samples_eq : Num_Samples = Z.to_nat 16385.
Proof. vm_compute. reflexivity. Qed.

Lemma Num_Samples_gt_1 : (1 < Num_Samples)%nat.
Proof. rewrite Num_Samples_eq. lia. Qed.

#[local] Opaque Num_Samples.

Lemma e_set_dor v el : e (set_dor v el) = e el.
Proof. done. Qed.

Lemma e_alter_set_dor v k (q : list scoring_function_element) i :
  e (alter (set_dor v) k q !!! i) = e (q !!! i).
Proof.
  rewrite list_lookup_total_alter. case_decide as H; [|done].
  destruct H as [-> _]. apply e_set_dor.
Qed.

Lemma Factor_Cutoff_Sqr : Factor * Cutoff_Sqr = Qc_of_Z 16384.
Proof. apply Qc_is_canon. vm_compute. reflexivity. Qed.

Lemma Factor_nonneg : 0 ≤ Factor.
Proof. vm_compute. discriminate. Qed.

(** The index computed by [evaluate] for an admissible squared distance. *)
Lemma sample_index_bound (r2 : fl) :
  0 ≤ r2 → r2 ≤ Cutoff_Sqr → (size_t_of_double (Factor * r2) < Num_Samples)%nat.
Proof.
  intros H0 Hcut. unfold size_t_of_double.
  assert (Hle : Factor * r2 ≤ Qc_of_Z 16384).
  { rewrite <- Factor_Cutoff_Sqr. apply Qcmult_le_mono_nonneg_l; [apply Factor_nonneg | done]. }
  assert (Hge : 0 ≤ Factor * r2).
  { rewrite <- (Qcmult_0_r Factor). apply Qcmult_le_mono_nonneg_l; [apply Factor_nonneg | done]. }
  case_bool_decide as Hneg; [by apply Qclt_not_le in Hneg|].
  apply Qfloor_resp_le in Hle. change (Qfloor (Qc_of_Z 16384)) with 16384%Z in Hle.
  rewrite Num_Samples_eq. lia.
Qed.

Lemma sample_index_cutoff : size_t_of_double (Factor * Cutoff_Sqr) = (Num_Samples - 1)%nat.
Proof. rewrite Num_Samples_eq. vm_compute. reflexivity. Qed.

Lemma sample_grid_length : length sample_grid = Num_Samples.
Proof. unfold sample_grid. by rewrite length_fmap, length_seq. Qed.

Lemma sample_grid_lookup (i : nat) :
  (i < Num_Samples)%nat → sample_grid !!! i = Qc_of_Z (Z.of_nat i) / Factor.
Proof.
  intros Hi. unfold sample_grid.
  apply list_lookup_total_correct.
  by rewrite list_lookup_fmap, lookup_seq_lt.
Qed.

Lemma sample_grid_last : sample_grid !!! (Num_Samples - 1)%nat = Cutoff_Sqr.
Proof.
  rewrite sample_grid_lookup by (pose proof Num_Samples_gt_1; lia).
  rewrite Num_Samples_eq. apply Qc_is_canon. vm_compute. reflexivity.
Qed.

Section Score.

Variable xs_vdw_radius : nat → fl.
Variable xs_is_hydrophobic : nat → bool.
Variable xs_hbond : nat → nat → bool.
Variable exp : fl → fl.

Abbreviation score := (score xs_vdw_radius xs_is_hydrophobic xs_hbond exp).
Abbreviation precalculate_e := (precalculate_e xs_vdw_radius xs_is_hydrophobic xs_hbond exp).
Abbreviation precalculate_samples :=
  (precalculate_samples xs_vdw_radius xs_is_hydrophobic xs_hbond exp).
Abbreviation precalculate := (precalculate xs_vdw_radius xs_is_hydrophobic xs_hbond exp).

(** First loop: every sample gets its energy; nothing else changes. *)
Lemma precalculate_e_spec t1 t2 rs (p : list scoring_function_element) :
  length p = Num_Samples →
  length (precalculate_e t1 t2 rs p) = Num_Samples ∧
  ∀ i, (i < Num_Samples)%nat → e (precalculate_e t1 t2 rs p !!! i) = score t1 t2 (rs !!! i).
Proof.
  intros Hlen. unfold ScoringFunction.precalculate_e.
  apply (for_loop_ind
    (λ k (q : list scoring_function_element),
       length q = Num_Samples ∧
       ∀ i, (i < k)%nat → e (q !!! i) = score t1 t2 (rs !!! i))).
  - split; [done | intros; lia].
  - intros k q Hk [Hq Hdone]. rewrite length_alter. split; [done|].
    intros i Hi. destruct (decide (i = k)) as [->|Hne].
    + rewrite list_lookup_total_alter_eq by lia. done.
    + rewrite list_lookup_total_alter_ne by done. apply Hdone. lia.
Qed.

(** Second loop: the interior samples get their forward difference quotient;
    the energies stay. *)
Lemma precalculate_dor_spec rs (p : list scoring_function_element) :
  length p = Num_Samples →
  let p' := precalculate_dor rs p in
  length p' = Num_Samples ∧
  (∀ i, e (p' !!! i) = e (p !!! i)) ∧
  ∀ i, (1 ≤ i < Num_Samples - 1)%nat →
       dor (p' !!! i) =
       (e (p !!! (i + 1)%nat) - e (p !!! i)) / ((rs !!! (i + 1)%nat - rs !!! i) * rs !!! i).
Proof.
  intros Hlen p'. subst p'. unfold precalculate_dor.
  set (body := λ (i : nat) (q : list scoring_function_element), _).
  pose (P := λ k (q : list scoring_function_element),
       length q = Num_Samples ∧
       (∀ i, e (q !!! i) = e (p !!! i)) ∧
       ∀ i, (1 ≤ i < k)%nat →
            dor (q !!! i) =
            (e (p !!! (i + 1)%nat) - e (p !!! i)) / ((rs !!! (i + 1)%nat - rs !!! i) * rs !!! i)).
  assert (HP : P (1 + (Num_Samples - 1 - 1))%nat (for_loop 1 (Num_Samples - 1 - 1) body p)).
  { apply for_loop_ind; subst P body; cbv beta.
    - split; [done|]. split; [done | intros; lia].
    - intros k q Hk (Hq & He & Hdone). rewrite length_alter. split; [done|]. split.
      + intros i. destruct (decide (i = k)) as [->|Hne].
        * rewrite list_lookup_total_alter_eq by lia. rewrite e_set_dor. apply He.
        * rewrite list_lookup_total_alter_ne by done. apply He.
      + intros i Hi. destruct (decide (i = k)) as [->|Hne].
        * rewrite list_lookup_total_alter_eq by lia. simpl. by rewrite !He.
        * rewrite list_lookup_total_alter_ne by done. apply Hdone. lia. }
  destruct HP as (Hq & He & Hdone). split; [done|]. split; [done|].
  intros i Hi. apply Hdone. lia.
Qed.

(** The sample vector of a type pair after the two loops and the two end
    assignments. *)
Lemma precalculate_samples_spec t1 t2 (rs : list fl) (p : list scoring_function_element) :
  length p = Num_Samples →
  let p' := precalculate_samples t1 t2 rs p in
  length p' = Num_Samples ∧
  (∀ i, (i < Num_Samples)%nat → e (p' !!! i) = score t1 t2 (rs !!! i)) ∧
  (∀ i, (1 ≤ i < Num_Samples - 1)%nat →
        dor (p' !!! i) =
        (e (p' !!! (i + 1)%nat) - e (p' !!! i)) / ((rs !!! (i + 1)%nat - rs !!! i) * rs !!! i)) ∧
  dor (p' !!! 0%nat) = 0 ∧
  dor (p' !!! (Num_Samples - 1)%nat) = 0.
Proof.
  intros Hlen p'. subst p'. unfold ScoringFunction.precalculate_samples.
  destruct (precalculate_e_spec t1 t2 rs p Hlen) as [Hlen1 He1].
  set (p1 := precalculate_e t1 t2 rs p) in *. clearbody p1.
  destruct (precalculate_dor_spec rs p1 Hlen1) as (Hlen2 & He2 & Hdor2).
  set (p2 := precalculate_dor rs p1) in *. clearbody p2.
  cbv zeta. rewrite !length_alter, Hlen2.
  pose proof Num_Samples_gt_1 as HN.
  assert (Hen : ∀ i, e (alter (set_dor 0) (Num_Samples - 1)%nat
                           (alter (set_dor 0) 0%nat p2) !!! i) = e (p1 !!! i)).
  { intros i. by rewrite !e_alter_set_dor. }
  split; [done|]. split; [|split; [|split]].
  - intros i Hi. rewrite Hen. by apply He1.
  - intros i Hi. rewrite !Hen.
    rewrite !list_lookup_total_alter_ne by lia. by apply Hdor2.
  - rewrite list_lookup_total_alter_ne by lia.
    rewrite list_lookup_total_alter_eq by lia. done.
  - rewrite list_lookup_total_alter_eq by (rewrite length_alter; lia). done.
Qed.

(** [precalculate] rewrites the vector of the pair [(t1,t2)] and no other. *)
Lemma precalculate_lookup t1 t2 (rs : list fl) (sf : scoring_function) (k : nat) :
  precalculate t1 t2 rs sf !! k =
  if decide (triangular_matrix_restrictive_index t1 t2 = k)
  then precalculate_samples t1 t2 rs <$> sf !! k
  else sf !! k.
Proof.
  unfold ScoringFunction.precalculate. rewrite list_lookup_alter.
  by case_decide; subst.
Qed.

(** C5. For a type pair [(t1,t2)] whose sample vector has [Num_Samples]
    cells and a grid [rs] of [Num_Samples] values, [precalculate] leaves in
    the pair's vector [p']: [p'[i].e = score(t1,t2,rs[i])] for every
    [i < Num_Samples]; [p'[i].dor = (p'[i+1].e - p'[i].e) /
    ((rs[i+1] - rs[i]) * rs[i])] for every interior [1 <= i < Num_Samples-1];
    and [dor = 0] at both ends. *)
Theorem precalculate_spec t1 t2 (rs : list fl) (sf : scoring_function)
    (p : list scoring_function_element) :
  sf !! triangular_matrix_restrictive_index t1 t2 = Some p →
  length p = Num_Samples →
  length rs = Num_Samples →
  ∃ p', precalculate t1 t2 rs sf !! triangular_matrix_restrictive_index t1 t2 = Some p' ∧
        length p' = Num_Samples ∧
        (∀ i, (i < Num_Samples)%nat → e (p' !!! i) = score t1 t2 (rs !!! i)) ∧
        (∀ i, (1 ≤ i < Num_Samples - 1)%nat →
              dor (p' !!! i) =
              (e (p' !!! (i + 1)%nat) - e (p' !!! i))
              / ((rs !!! (i + 1)%nat - rs !!! i) * rs !!! i)) ∧
        dor (p' !!! 0%nat) = 0 ∧
        dor (p' !!! (Num_Samples - 1)%nat) = 0.
Proof.
  intros Hp Hlen Hrs.
  exists (precalculate_samples t1 t2 rs p). split.
  - rewrite precalculate_lookup, decide_True by done. by rewrite Hp.
  - by apply precalculate_samples_spec.
Qed.

(** C7. For [0 <= r2 <= Cutoff_Sqr] the index [size_t(Factor * r2)] used by
    [evaluate] is below [Num_Samples], so the cell exists in a sample vector
    of [Num_Samples] cells; at [r2 = Cutoff_Sqr] the index is
    [Num_Samples - 1]; and on the table precalculated over the grid
    [rs[i] = i / Factor] the element returned there has
    [e = score(t1,t2,Cutoff_Sqr)]. *)
Theorem evaluate_in_bounds t1 t2 (sf : scoring_function)
    (p : list scoring_function_element) (r2 : fl) :
  0 ≤ r2 → r2 ≤ Cutoff_Sqr →
  sf !! triangular_matrix_restrictive_index t1 t2 = Some p →
  length p = Num_Samples →
  let sf' := precalculate t1 t2 sample_grid sf in
  let type_pair_index := triangular_matrix_restrictive_index t1 t2 in
  (size_t_of_double (Factor * r2) < Num_Samples)%nat ∧
  is_Some ((sf' !!! type_pair_index) !! size_t_of_double (Factor * r2)) ∧
  size_t_of_double (Factor * Cutoff_Sqr) = (Num_Samples - 1)%nat ∧
  e (evaluate sf' type_pair_index Cutoff_Sqr) = score t1 t2 Cutoff_Sqr.
Proof.
  intros H0 Hcut Hp Hlen sf' idx.
  destruct (precalculate_samples_spec t1 t2 sample_grid p Hlen) as (Hlen' & He & _).
  assert (Hp' : sf' !! idx = Some (precalculate_samples t1 t2 sample_grid p)).
  { subst sf' idx. rewrite precalculate_lookup, decide_True by done. by rewrite Hp. }
  pose proof (sample_index_bound r2 H0 Hcut) as Hidx.
  split; [done|]. split; [|split; [apply sample_index_cutoff|]].
  - rewrite (list_lookup_total_correct _ _ _ Hp').
    apply lookup_lt_is_Some_2. by rewrite Hlen'.
  - unfold evaluate. rewrite (list_lookup_total_correct _ _ _ Hp').
    rewrite sample_index_cutoff, He by (pose proof Num_Samples_gt_1; lia).
    by rewrite sample_grid_last.
Qed.

End Score.

Lemma precalculate_spec_witness :
  ∃ p', ScoringFunction.precalculate Fixtures.xs_vdw_radius Fixtures.xs_is_hydrophobic
          Fixtures.xs_hbond Fixtures.exp 0 0 sample_grid Fixtures.blank_table !! 0%nat = Some p' ∧
        dor (p' !!! 0%nat) = 0 ∧ dor (p' !!! (Num_Samples - 1)%nat) = 0.
Proof.
  destruct (precalculate_spec Fixtures.xs_vdw_radius Fixtures.xs_is_hydrophobic
              Fixtures.xs_hbond Fixtures.exp 0 0 sample_grid Fixtures.blank_table
              (replicate Num_Samples (Element 0 0)))
    as (p' & Hp' & _ & _ & _ & Hfront & Hback).
  - reflexivity.
  - apply length_replicate.
  - apply sample_grid_length.
  - exists p'. exact (conj Hp' (conj Hfront Hback)).
Defined.

Lemma evaluate_in_bounds_witness :
  (size_t_of_double (Factor * Qc_of_Z 4) < Num_Samples)%nat ∧
  size_t_of_double (Factor * Cutoff_Sqr) = (Num_Samples - 1)%nat.
Proof.
  destruct (evaluate_in_bounds Fixtures.xs_vdw_radius Fixtures.xs_is_hydrophobic
              Fixtures.xs_hbond Fixtures.exp 0 0 Fixtures.blank_table
              (replicate Num_Samples (Element 0 0)) (Qc_of_Z 4))
    as (Hidx & _ & Hlast & _).
  - vm_compute. discriminate.
  - vm_compute. discriminate.
  - reflexivity.
  - apply length_replicate.
  - exact (conj Hidx Hlast).
Defined.

(** The lookup at [r2 = 4] lands on sample 1024, whose grid value is 4. *)
Example sample_index_4 : size_t_of_double (Factor * Qc_of_Z 4) = 1024%nat.
Proof. vm_compute. reflexivity. Qed.

End ScoringFunctionProofs.

(** ** The receptor ingestor *)
Module ReceptorProofs.
Import Receptor.
Local Open Scope Qc_scope.

Lemma for_down_ind {St : Type} (P : St → Prop) (body : nat → St → St * bool) i n (s : St) :
  P s → (∀ k t, P t → P (body k t).1) → P (for_down i n body s).
Proof.
  intros Hs Hbody. revert i s Hs. induction n as [|n IH]; intros i s Hs; simpl; [done|].
  specialize (Hbody (i - 1)%nat s Hs).
  destruct (body (i - 1)%nat s) as [s' [|]]; simpl in *; [done|]. by apply IH.
Qed.

Lemma bind_Ok {A B : Type} (m : outcome A) (k : A → outcome B) (b : B) :
  m ≫= k = Ok b → ∃ a, m = Ok a ∧ k a = Ok b.
Proof. destruct m as [a|ex]; [by exists a | done]. Qed.

Section Constructor.

Context `{AtomHeader}.

(** The three residue scans leave the AutoDock type of every atom alone. *)
Lemma ad_donorize_bonded a rs (l : list atom) : ad <$> donorize_bonded a rs l = ad <$> l.
Proof.
  unfold donorize_bonded.
  apply (for_down_ind (λ l' : list atom, ad <$> l' = ad <$> l)); [done|].
  intros k t Ht. destruct (t !! k) as [b|] eqn:Hb; [|done].
  destruct (is_hetero b && is_neighbor b a); [|done]. simpl.
  rewrite <- Ht. apply list_eq. intros j.
  rewrite !list_lookup_fmap, list_lookup_alter. case_decide as Hj; [|done].
  subst j. by destruct (t !! k).
Qed.

Lemma ad_dehydrophobicize_bonded a rs (l : list atom) :
  ad <$> dehydrophobicize_bonded a rs l = ad <$> l.
Proof.
  unfold dehydrophobicize_bonded.
  apply (for_down_ind (λ l' : list atom, ad <$> l' = ad <$> l)); [done|].
  intros k t Ht. destruct (t !! k) as [b|] eqn:Hb; [|done].
  destruct (negb (is_hetero b) && is_neighbor b a); [|done]. simpl.
  rewrite <- Ht. apply list_eq. intros j.
  rewrite !list_lookup_fmap, list_lookup_alter. case_decide as Hj; [|done].
  subst j. by destruct (t !! k).
Qed.

Lemma ad_dehydrophobicize_carbon a rs (l : list atom) :
  ad (dehydrophobicize_carbon a rs l) = ad a.
Proof.
  unfold dehydrophobicize_carbon.
  apply (for_down_ind (λ a' : atom, ad a' = ad a)); [done|].
  intros k t Ht. destruct (l !! k) as [b|]; [|done].
  by destruct (is_hetero b && is_neighbor b t).
Qed.

(** The polar-hydrogen scan donorizes the nearest bonded hetero atom at or
    after [residue_start], and only that atom. *)
Lemma donorize_bonded_nearest a rs (l : list atom) j b :
  (rs ≤ j)%nat → l !! j = Some b →
  is_hetero b && is_neighbor b a = true →
  (∀ k b', (j < k)%nat → l !! k = Some b' → is_hetero b' && is_neighbor b' a = false) →
  donorize_bonded a rs l = alter donorize j l.
Proof.
  intros Hrs Hj Hb Hlater. unfold donorize_bonded.
  pose proof (lookup_lt_Some _ _ _ Hj) as Hlt.
  assert (Hgen : ∀ n i, (i ≤ length l)%nat → (i - n ≤ j < i)%nat →
    for_down i n
      (λ i (atoms : list atom),
         match atoms !! i with
         | Some b => if is_hetero b && is_neighbor b a
                     then (alter donorize i atoms, true) else (atoms, false)
         | None => (atoms, false)
         end) l = alter donorize j l).
  { induction n as [|n IH]; intros i Hi Hji; [lia|]. simpl.
    destruct (decide (i - 1 = j)%nat) as [->|Hne].
    - by rewrite Hj, Hb.
    - destruct (l !! (i - 1)%nat) as [b'|] eqn:Hb'.
      + rewrite (Hlater (i - 1)%nat b') by (done || lia). apply IH; lia.
      + apply IH; lia. }
  apply Hgen; lia.
Qed.

Lemma donorize_bonded_none a rs (l : list atom) :
  (∀ k b', (rs ≤ k)%nat → l !! k = Some b' → is_hetero b' && is_neighbor b' a = false) →
  donorize_bonded a rs l = l.
Proof.
  intros Hnone. unfold donorize_bonded.
  assert (Hgen : ∀ n i, (n = 0 ∨ rs ≤ i - n)%nat →
    for_down i n
      (λ i (atoms : list atom),
         match atoms !! i with
         | Some b => if is_hetero b && is_neighbor b a
                     then (alter donorize i atoms, true) else (atoms, false)
         | None => (atoms, false)
         end) l = l).
  { induction n as [|n IH]; intros i Hi; [done|]. simpl.
    destruct (l !! (i - 1)%nat) as [b'|] eqn:Hb'.
    - rewrite (Hnone (i - 1)%nat b') by (done || lia). apply IH; lia.
    - apply IH; lia. }
  apply Hgen. lia.
Qed.

Lemma parse_atom_ad line t a : parse_atom line t = Ok a → ad a = t.
Proof.
  unfold parse_atom, mbind, outcome_bind, of_option, atom_new.
  intros Ha. repeat (case_match; simplify_eq/=). done.
Qed.

Lemma parse_atom_no_parsing_error line t file n reason :
  parse_atom line t ≠ Throw (parsing_error file n reason).
Proof.
  unfold parse_atom, mbind, outcome_bind, of_option, substr.
  repeat (case_match; simplify_eq/=); done.
Qed.

Lemma ad_store_atom t a rs (l : list atom) :
  ad <$> store_atom t a rs l = (ad <$> l) ++ [ad a].
Proof.
  unfold store_atom. repeat case_match; simplify_eq/=; rewrite fmap_app; simpl;
    by rewrite ?ad_donorize_bonded, ?ad_dehydrophobicize_bonded, ?ad_dehydrophobicize_carbon.
Qed.

Lemma atom_record_test line :
  is_atom_record line →
  bool_decide (substring 0 6 line = "ATOM  "%string)
  || bool_decide (substring 0 6 line = "HETATM"%string) = true.
Proof. by intros [-> | ->]. Qed.

(** One line either leaves the types of the stored atoms as they are or
    appends one atom, whose type is neither [AD_TYPE_SIZE] nor [AD_TYPE_H]. *)
Lemma parse_line_atoms st line st' :
  parse_line st line = Ok st' →
  ad <$> p_atoms st' = ad <$> p_atoms st ∨
  ∃ t, t ≠ AD_TYPE_SIZE ∧ t ≠ AD_TYPE_H ∧ ad <$> p_atoms st' = (ad <$> p_atoms st) ++ [t].
Proof.
  unfold parse_line, mbind, outcome_bind. intros Hline.
  destruct (track_residue st line) as [res rs].
  repeat (first [case_bool_decide | case_match]; simplify_eq/=); auto;
    right; eexists; (split; [done|]); (split; [done|]);
    rewrite ad_store_atom; by erewrite parse_atom_ad.
Qed.

(** [parsing_error] is never thrown by a line. *)
Lemma parse_line_no_parsing_error st line file n reason :
  parse_line st line ≠ Throw (parsing_error file n reason).
Proof.
  unfold parse_line, mbind, outcome_bind, substr.
  destruct (track_residue st line) as [res rs].
  repeat (first [case_bool_decide | case_match]; simplify_eq/=); try done;
    intros [= ->]; by eapply parse_atom_no_parsing_error.
Qed.

Lemma parse_lines_no_parsing_error lines st file n reason :
  parse_lines st lines ≠ Throw (parsing_error file n reason).
Proof.
  revert st. induction lines as [|line lines IH]; intros st; simpl; [done|].
  unfold mbind, outcome_bind.
  destruct (parse_line st line) as [st'|ex] eqn:Hline; [apply IH|].
  intros [= ->]. by apply parse_line_no_parsing_error in Hline.
Qed.

Lemma parse_lines_atoms lines st st' :
  parse_lines st lines = Ok st' →
  Forall (λ t, t ≠ AD_TYPE_SIZE ∧ t ≠ AD_TYPE_H) (ad <$> p_atoms st) →
  Forall (λ t, t ≠ AD_TYPE_SIZE ∧ t ≠ AD_TYPE_H) (ad <$> p_atoms st').
Proof.
  revert st. induction lines as [|line lines IH]; intros st; simpl.
  - by intros [= ->].
  - intros (st1 & Hline & Hrest)%bind_Ok Hst. apply (IH st1 Hrest).
    destruct (parse_line_atoms _ _ _ Hline) as [-> | (t & ? & ? & ->)]; [done|].
    apply Forall_app. split; [done|]. by apply Forall_singleton.
Qed.

(** No atom of the non-polar hydrogen type, and no atom of an unknown type,
    is ever stored in [receptor.atoms]. *)
Lemma non_polar_hydrogen_never_stored p lines b rec :
  receptor_new p lines b = Ok rec →
  ∀ a, a ∈ atoms rec → ad a ≠ AD_TYPE_H ∧ ad a ≠ AD_TYPE_SIZE.
Proof.
  unfold receptor_new. intros (st & Hst & [= <-])%bind_Ok a Ha. simpl in Ha.
  pose proof (parse_lines_atoms _ _ _ Hst (Forall_nil_2 _)) as Hall.
  rewrite Forall_fmap, Forall_forall in Hall. by destruct (Hall a Ha).
Qed.

(** The constructor never throws the [parsing_error] its header promises. *)
Lemma receptor_new_no_parsing_error p lines b file n reason :
  receptor_new p lines b ≠ Throw (parsing_error file n reason).
Proof.
  unfold receptor_new, mbind, outcome_bind.
  destruct (parse_lines parser_init lines) as [st|ex] eqn:Hst; [done|].
  intros [= ->]. by apply parse_lines_no_parsing_error in Hst.
Qed.

(** A line of an unknown type is passed over: no exception, no atom, and
    parsing goes on with the next line. *)
Lemma parse_line_unknown_type st line t :
  is_atom_record line → ad_type_string line = Ok t →
  parse_ad_type_string t = AD_TYPE_SIZE →
  ∃ st', parse_line st line = Ok st' ∧ p_atoms st' = p_atoms st ∧
         num_lines st' = S (num_lines st).
Proof.
  intros Hrec Ht Hsize. unfold ad_type_string in Ht.
  unfold parse_line, mbind, outcome_bind.
  rewrite (atom_record_test _ Hrec).
  destruct (track_residue st line) as [res rs].
  rewrite Ht, Hsize, bool_decide_eq_true_2 by done. eauto.
Qed.

(** A polar hydrogen line that parses appends its atom to [atoms], after
    the donor scan. *)
Lemma parse_line_polar_hydrogen st line t st' :
  AD_TYPE_HD ≠ AD_TYPE_SIZE → AD_TYPE_HD ≠ AD_TYPE_H →
  is_atom_record line → ad_type_string line = Ok t →
  parse_ad_type_string t = AD_TYPE_HD →
  parse_line st line = Ok st' →
  ∃ a, ad a = AD_TYPE_HD ∧
       p_atoms st' = donorize_bonded a (residue_start st') (p_atoms st) ++ [a].
Proof.
  intros Hsize Hh Hrec Ht Hhd. unfold ad_type_string in Ht.
  unfold parse_line, mbind, outcome_bind.
  rewrite (atom_record_test _ Hrec).
  destruct (track_residue st line) as [res rs].
  rewrite Ht, Hhd, !bool_decide_eq_false_2 by done.
  destruct (parse_atom line AD_TYPE_HD) as [a|ex] eqn:Ha; [|done].
  intros [= <-]. exists a. split; [by eapply parse_atom_ad|].
  unfold store_atom. by rewrite bool_decide_eq_true_2.
Qed.

End Constructor.

#[local] Existing Instance Fixtures.atom_header.

(** C1, as the code runs.  On the two lines of a nitrogen and of the polar
    hydrogen bonded to it, followed by a non-polar hydrogen, the constructor
    donorizes the nitrogen, drops the non-polar hydrogen, and appends the
    polar hydrogen (type [AD_TYPE_HD]) to [atoms]; its index 1 is then
    allocated to the partition like that of a heavy atom. *)
Theorem polar_hydrogen_is_stored :
  ∃ rec,
    receptor_new "receptor.pdbqt"
      [Fixtures.line_N; Fixtures.line_HN; Fixtures.line_HA] Fixtures.unit_box = Ok rec ∧
    ad <$> atoms rec = [4%nat; AD_TYPE_HD] ∧
    serial <$> atoms rec = [1; 2]%nat ∧
    donor <$> atoms rec = [true; false] ∧
    partitions rec = [(0, 0, 0, [0; 1])]%nat.
Proof.
  eexists. split; [vm_compute; reflexivity|]. vm_compute. done.
Qed.

(** A carbon bonded to the nitrogen of its residue loses its hydrophobic
    flag; the non-polar hydrogen is not stored. *)
Example bonded_carbon_dehydrophobicized :
  ∃ rec,
    receptor_new "receptor.pdbqt"
      [Fixtures.line_N; Fixtures.line_CA; Fixtures.line_HA] Fixtures.unit_box = Ok rec ∧
    serial <$> atoms rec = [1; 3]%nat ∧
    ad_is_hydrophobic 2 = true ∧
    hydrophobic <$> atoms rec = [false; false].
Proof.
  eexists. split; [vm_compute; reflexivity|]. vm_compute. done.
Qed.

(** C2, as the code runs.  The type string of the first line is not in the
    table ([parse_ad_type_string] returns [AD_TYPE_SIZE]); the constructor
    throws nothing, passes the line over, goes on with the next line and
    returns a receptor that holds the atom of that second line. *)
Theorem unknown_type_is_passed_over :
  parse_ad_type_string "Xx" = AD_TYPE_SIZE ∧
  ad_type_string Fixtures.line_unknown = Ok "Xx"%string ∧
  ∃ rec,
    receptor_new "receptor.pdbqt"
      [Fixtures.line_unknown; Fixtures.line_N] Fixtures.unit_box = Ok rec ∧
    serial <$> atoms rec = [1%nat] ∧
    name <$> atoms rec = [" N  "%string].
Proof.
  split; [by vm_compute|]. split; [by vm_compute|].
  eexists. split; [vm_compute; reflexivity|]. vm_compute. done.
Qed.

End ReceptorProofs.

(** ** The Monte Carlo / BFGS driver *)
Module MonteCarloProofs.
Import Result MonteCarlo.
Local Open Scope Qc_scope.

Lemma snd_evaluate_with_flag phi lig c sf rec ub out :
  (evaluate (with_flag phi lig) c sf rec ub out).2 = (evaluate lig c sf rec ub out).2.
Proof. simpl. by destruct (evaluate lig c sf rec ub out). Qed.

Section Task.

Context `{Library}.
Variable lig : ligand.
Variable sf : ScoringFunction.scoring_function.
Variable rec : receptor.

Abbreviation mc_start := (mc_start lig sf rec).
Abbreviation mc_mutate := (mc_mutate lig sf rec).
Abbreviation mc_accept := (mc_accept lig).
Abbreviation mc_iteration := (mc_iteration lig sf rec).
Abbreviation mc_iterations := (mc_iterations lig sf rec).
Abbreviation bfgs := (bfgs lig sf rec).
Abbreviation e_upper_bound := (e_upper_bound lig).

(** The arguments of a call whose ranks are a rearrangement of the
    positions are a rearrangement of the draws. *)
Lemma arguments_rearrange_draws (rank : nat → nat) (positions : list nat) (ds : list fl) :
  rank <$> positions ≡ₚ seq 0 (length ds) →
  (λ i, ds !!! rank i) <$> positions ≡ₚ ds.
Proof.
  intros Hperm.
  assert (Hcomp : (λ i, ds !!! rank i) <$> positions = (λ k, ds !!! k) <$> (rank <$> positions))
    by (by rewrite <- list_fmap_compose).
  rewrite Hcomp, Hperm.
  clear. induction ds as [|d ds IH] using rev_ind; [done|].
  rewrite length_app. simpl. rewrite Nat.add_1_r, seq_S, fmap_app. simpl.
  rewrite list_lookup_total_middle by done.
  apply Permutation_app; [|done].
  assert (Heq : (λ k, (ds ++ [d]) !!! k) <$> seq 0 (length ds)
                = (λ k, ds !!! k) <$> seq 0 (length ds)).
  { apply list_fmap_ext. intros k x Hk%lookup_seq. by rewrite lookup_total_app_l by lia. }
  by rewrite Heq.
Qed.

(** C8. The mutation at the head of an outer iteration: [c1] has the
    orientation and the torsions of [c0], and the position of [c0] plus a
    vector whose components are three successive draws from U(-1,1); [c0]
    itself is kept.  Which draw goes to which component is the build's
    choice of the order of evaluation of the arguments of [vec3]: component
    [i] receives draw [vec3_rank i], and in whatever order the three
    arguments are evaluated (the ranks are a rearrangement of 0, 1, 2) the
    components are a rearrangement of the three draws. *)
Theorem mutation_moves_position_only (t : task) :
  let t' := mc_mutate t in
  orientation (c1 (vars t')) = orientation (c0 t) ∧
  torsions (c1 (vars t')) = torsions (c0 t) ∧
  c0 t' = c0 t ∧
  ∃ d0 d1 d2 eng1 eng2 ux uy uz,
    uniform_11 (eng t) = (d0, eng1) ∧
    uniform_11 eng1 = (d1, eng2) ∧
    uniform_11 eng2 = (d2, eng t') ∧
    ux = [d0; d1; d2] !!! vec3_rank 0 ∧
    uy = [d0; d1; d2] !!! vec3_rank 1 ∧
    uz = [d0; d1; d2] !!! vec3_rank 2 ∧
    (vec3_rank <$> [0; 1; 2]%nat ≡ₚ [0; 1; 2]%nat → [ux; uy; uz] ≡ₚ [d0; d1; d2]) ∧
    position (c1 (vars t')) =
      Vec3 (vx (position (c0 t)) + ux) (vy (position (c0 t)) + uy) (vz (position (c0 t)) + uz).
Proof.
  unfold MonteCarlo.mc_mutate, mutate.
  destruct (uniform_11 (eng t)) as [d0 eng1] eqn:H1.
  destruct (uniform_11 eng1) as [d1 eng2] eqn:H2.
  destruct (uniform_11 eng2) as [d2 eng3] eqn:H3.
  simpl. split; [done|]. split; [done|]. split; [done|].
  exists d0, d1, d2, eng1, eng2. eexists _, _, _.
  do 3 (split; [done|]). do 3 (split; [reflexivity|]). split; [|done].
  apply (arguments_rearrange_draws vec3_rank [0; 1; 2]%nat [d0; d1; d2]).
Qed.

(** C9. The random start draws one scalar [u] from U(-1,1), the first draw
    of the seeded engine, and sets the position to [center + u * span]: the
    three components of the offset share that one [u]; as the draws of
    U(-1,1) lie in [-1,1), the position is on the diagonal segment through
    the centre of the box.  The next four draws make the orientation, each
    going to the component whose argument of [qtn4] the build evaluates at
    that moment: component [i] receives draw [qtn4_rank i] of the four. *)
Theorem random_start_on_diagonal (seed : nat) :
  (∀ eng, - (1) ≤ (uniform_11 eng).1 ∧ (uniform_11 eng).1 < 1) →
  ∃ u eng1 d1 eng2 d2 eng3 d3 eng4 d4 eng5,
    uniform_11 (seed_engine seed) = (u, eng1) ∧
    - (1) ≤ u ∧ u < 1 ∧
    position (c0 (mc_start seed)) =
      Vec3 (vx (center rec) + u * vx (span rec))
           (vy (center rec) + u * vy (span rec))
           (vz (center rec) + u * vz (span rec)) ∧
    uniform_11 eng1 = (d1, eng2) ∧ uniform_11 eng2 = (d2, eng3) ∧
    uniform_11 eng3 = (d3, eng4) ∧ uniform_11 eng4 = (d4, eng5) ∧
    let q i := [d1; d2; d3; d4] !!! qtn4_rank i in
    orientation (c0 (mc_start seed))
    = qtn4_normalize (Qtn4 (q 0%nat) (q 1%nat) (q 2%nat) (q 3%nat)) ∧
    (qtn4_rank <$> [0; 1; 2; 3]%nat ≡ₚ [0; 1; 2; 3]%nat →
     [q 0%nat; q 1%nat; q 2%nat; q 3%nat] ≡ₚ [d1; d2; d3; d4]).
Proof.
  intros Hrange. unfold MonteCarlo.mc_start.
  pose proof (Hrange (seed_engine seed)) as [Hlo Hhi].
  destruct (uniform_11 (seed_engine seed)) as [u eng1] eqn:H1.
  destruct (uniform_11 eng1) as [d1 eng2] eqn:H2.
  destruct (uniform_11 eng2) as [d2 eng3] eqn:H3.
  destruct (uniform_11 eng3) as [d3 eng4] eqn:H4.
  destruct (uniform_11 eng4) as [d4 eng5] eqn:H5.
  match goal with |- context [for_loop ?i ?n ?body ?init] =>
    destruct (for_loop i n body init) as [ts eng6] end.
  exists u, eng1, d1, eng2, d2, eng3, d3, eng4, d4, eng5. simpl in *.
  repeat (split; [done|]).
  apply (arguments_rearrange_draws qtn4_rank [0; 1; 2; 3]%nat [d1; d2; d3; d4]).
Qed.

Lemma mc_accept_spec (t : task) (b : bfgs_vars) :
  let t' := mc_accept t b in
  let e1 := out_e (v1 b) in
  let e0 := out_e (v0 t) in
  (e1 < e0 → c0 t' = c1 b ∧ out_e (v0 t') = e1 ∧ r t' = compose_result lig e1 (c1 b)) ∧
  (¬ e1 < e0 → c0 t' = c0 t ∧ out_e (v0 t') = e0 ∧ r t' = r t) ∧
  out_e (v0 t') ≤ e0.
Proof.
  unfold MonteCarlo.mc_accept. case_bool_decide as Hlt; simpl.
  - split; [done|]. split; [done|]. by apply Qclt_le_weak.
  - split; [done|]. split; [done|]. apply Qcle_refl.
Qed.

Lemma mc_mutate_keeps_retained (t : task) :
  c0 (mc_mutate t) = c0 t ∧ v0 (mc_mutate t) = v0 t ∧ r (mc_mutate t) = r t.
Proof. unfold MonteCarlo.mc_mutate. by destruct (mutate (c0 t) (eng t)). Qed.

Lemma mc_iteration_Some fuel (t t' : task) :
  mc_iteration fuel t = Some t' →
  ∃ b, bfgs fuel (vars (mc_mutate t)) = Some b ∧ t' = mc_accept (mc_mutate t) b.
Proof.
  unfold MonteCarlo.mc_iteration. intros Ht.
  destruct (bfgs fuel (vars (mc_mutate t))) as [b|]; [|done].
  injection Ht as <-. by exists b.
Qed.

Lemma mc_iteration_e0_le fuel (t t' : task) :
  mc_iteration fuel t = Some t' → out_e (v0 t') ≤ out_e (v0 t).
Proof.
  intros (b & _ & ->)%mc_iteration_Some.
  destruct (mc_accept_spec (mc_mutate t) b) as (_ & _ & Hle).
  destruct (mc_mutate_keeps_retained t) as (_ & Hv0 & _). by rewrite Hv0 in Hle.
Qed.

Lemma mc_iterations_e0_le n fuel (t t' : task) :
  mc_iterations n fuel t = Some t' → out_e (v0 t') ≤ out_e (v0 t).
Proof.
  revert t. induction n as [|n IH]; intros t; simpl.
  - intros [= ->]. apply Qcle_refl.
  - destruct (mc_iteration fuel t) as [t1|] eqn:H1; [|done]. simpl. intros Hrest.
    apply Qcle_trans with (out_e (v0 t1)); [by apply IH | by eapply mc_iteration_e0_le].
Qed.

Lemma mc_iterations_add j d fuel (t : task) :
  mc_iterations (j + d) fuel t = mc_iterations j fuel t ≫= mc_iterations d fuel.
Proof.
  revert t. induction j as [|j IH]; intros t; simpl; [done|].
  destruct (mc_iteration fuel t) as [t1|]; simpl; [apply IH | done].
Qed.

(** C6. Metropolis acceptance.  In an outer iteration that starts from the
    variables [t] and whose inner optimisation ends with [c1], [e1]: the
    retained [c0], [e0] and the result slot [r] become [c1], [e1] and
    [compose_result(e1, c1)] exactly when [e1 < e0]; otherwise all three
    stay as they were.  Hence the retained energy after [k] iterations is
    at most the one after [j <= k] iterations: it never increases along the
    outer loop. *)
Theorem metropolis_accepts_only_improvements fuel (t : task) :
  (∀ t', mc_iteration fuel t = Some t' →
     ∃ b, bfgs fuel (vars (mc_mutate t)) = Some b ∧
          let e1 := out_e (v1 b) in
          let e0 := out_e (v0 t) in
          (e1 < e0 → c0 t' = c1 b ∧ out_e (v0 t') = e1 ∧ r t' = compose_result lig e1 (c1 b)) ∧
          (¬ e1 < e0 → c0 t' = c0 t ∧ out_e (v0 t') = e0 ∧ r t' = r t) ∧
          out_e (v0 t') ≤ e0) ∧
  (∀ j k tj tk, (j ≤ k)%nat →
     mc_iterations j fuel t = Some tj → mc_iterations k fuel t = Some tk →
     out_e (v0 tk) ≤ out_e (v0 tj)).
Proof.
  split.
  - intros t' (b & Hb & ->)%mc_iteration_Some. exists b. split; [done|].
    destruct (mc_mutate_keeps_retained t) as (Hc0 & Hv0 & Hr).
    pose proof (mc_accept_spec (mc_mutate t) b) as Hspec.
    cbv zeta in Hspec. by rewrite Hc0, Hv0, Hr in Hspec.
  - intros j k tj tk Hjk Hj Hk.
    replace k with (j + (k - j))%nat in Hk by lia.
    rewrite mc_iterations_add, Hj in Hk. simpl in Hk.
    by eapply mc_iterations_e0_le.
Qed.

(** C10. The boolean of [lig.evaluate] plays no part in the random start
    nor in the mutation step: with any other boolean in its place both
    leave the same variables.  The result slot is seeded with
    [compose_result(e0, c0)] for the [e0] the evaluation of [c0] left
    behind, and the BFGS loop is entered with [e1], [f1], [g1] as the
    evaluation of the mutated [c1] left them, whether or not these
    evaluations gave up. *)
Theorem evaluate_flag_is_ignored (phi : bool → bool) (seed : nat) (t : task) (fuel : nat) :
  MonteCarlo.mc_start (with_flag phi lig) sf rec seed = mc_start seed ∧
  MonteCarlo.mc_mutate (with_flag phi lig) sf rec t = mc_mutate t ∧
  (let t0 := mc_start seed in
   v0 t0 = (evaluate lig (c0 t0) sf rec e_upper_bound
              (Outputs uninitialized uninitialized
                       (replicate (6 + num_active_torsions lig) 0))).2 ∧
   r t0 = compose_result lig (out_e (v0 t0)) (c0 t0)) ∧
  (let t1 := mc_mutate t in
   v1 (vars t1) = (evaluate lig (c1 (vars t1)) sf rec e_upper_bound (v1 (vars t))).2 ∧
   mc_iteration fuel t = (bfgs fuel (vars t1) ≫= λ b, Some (mc_accept t1 b))).
Proof.
  split; [|split; [|split]].
  - unfold MonteCarlo.mc_start.
    change (num_active_torsions (with_flag phi lig)) with (num_active_torsions lig).
    change (MonteCarlo.e_upper_bound (with_flag phi lig)) with e_upper_bound.
    change (num_variables (with_flag phi lig)) with (num_variables lig).
    change (compose_result (with_flag phi lig)) with (compose_result lig).
    repeat match goal with |- context [uniform_11 ?g] => destruct (uniform_11 g) end.
    match goal with |- context [for_loop ?i ?n ?body ?init] =>
      destruct (for_loop i n body init) end.
    by rewrite snd_evaluate_with_flag.
  - unfold MonteCarlo.mc_mutate. destruct (mutate (c0 t) (eng t)).
    change (MonteCarlo.e_upper_bound (with_flag phi lig)) with e_upper_bound.
    change (num_variables (with_flag phi lig)) with (num_variables lig).
    by rewrite snd_evaluate_with_flag.
  - unfold MonteCarlo.mc_start.
    repeat match goal with |- context [uniform_11 ?g] => destruct (uniform_11 g) end.
    match goal with |- context [for_loop ?i ?n ?body ?init] =>
      destruct (for_loop i n body init) end.
    done.
  - split; [|done]. unfold MonteCarlo.mc_mutate. by destruct (mutate (c0 t) (eng t)).
Qed.

End Task.

(** *** The line search *)

Section LineSearch.

Context `{Library}.
Variable lig : ligand.
Variable sf : ScoringFunction.scoring_function.
Variable rec : receptor.
Variable c1 : conformation.
Variable e1 : fl.
Variable p : list fl.
Variable pg1 : fl.

Abbreviation trial := (trial lig sf rec c1 e1 p pg1).
Abbreviation step_conformation := (step_conformation lig c1 p).
Abbreviation attempt := (attempt lig sf rec c1 e1 p pg1).
Abbreviation accepted := (accepted lig sf rec c1 e1 p pg1).

Lemma step_conformation_torsions a (c2 : conformation) :
  length (torsions c2) = num_active_torsions lig →
  length (torsions (step_conformation a c2)) = num_active_torsions lig ∧
  ∀ i, (i < num_active_torsions lig)%nat →
       torsions (step_conformation a c2) !!! i = torsions c1 !!! i + a * p !!! (6 + i)%nat.
Proof.
  intros Hlen. unfold MonteCarlo.step_conformation; cbn [torsions].
  apply (for_loop_ind
    (λ k (t : list fl),
       length t = num_active_torsions lig ∧
       ∀ i, (i < k)%nat → t !!! i = torsions c1 !!! i + a * p !!! (6 + i)%nat)).
  - split; [done | intros; lia].
  - intros k t Hk [Ht Hdone]. rewrite length_insert. split; [done|].
    intros i Hi. destruct (decide (i = k)) as [->|Hne].
    + by rewrite list_lookup_total_insert_eq by lia.
    + rewrite list_lookup_total_insert_ne by done. apply Hdone. lia.
Qed.

(** One trial: the conformation it evaluates, the bound it passes, and when
    it is accepted. *)
Lemma trial_spec k (s : search) :
  let c2 := step_conformation (alpha s) (s_c2 s) in
  let ev := evaluate lig c2 sf rec (e1 + dec 0.0001 * alpha s * pg1) (s_v2 s) in
  s_c2 (trial k s).1 = c2 ∧
  s_v2 (trial k s).1 = ev.2 ∧
  ((trial k s).2 = true ↔
     ev.1 = true ∧ dec 0.9 * pg1 ≤ dot (num_variables lig) p (out_g ev.2)) ∧
  ((trial k s).2 = true → alpha (trial k s).1 = alpha s) ∧
  ((trial k s).2 = false → alpha (trial k s).1 = alpha s * dec 0.1).
Proof.
  intros c2 ev. unfold MonteCarlo.trial. fold c2. fold ev.
  destruct ev as [[|] v2']; simpl.
  - case_bool_decide as Hcurv; simpl.
    + split; [done|]. split; [done|]. split; [by split|]. by split.
    + split; [done|]. split; [done|]. split; [|by split]. split; [done|]. by intros [_ ?].
  - split; [done|]. split; [done|]. split; [|by split]. split; [done|]. by intros [? _].
Qed.

Lemma attempt_S s0 k :
  accepted s0 k = false → (trial k (attempt s0 k)).1 = attempt s0 (S k).
Proof.
  unfold accepted. intros Hrej. simpl.
  destruct (trial_spec k (attempt s0 k)) as (_ & _ & _ & _ & Ha).
  rewrite <- (Ha Hrej). by destruct (trial k (attempt s0 k)).1.
Qed.

Lemma alpha_attempt_S s0 k : alpha (attempt s0 (S k)) = alpha (attempt s0 k) * dec 0.1.
Proof. done. Qed.

Lemma alpha_attempt c2 v2 pg2 k :
  (k < 5)%nat → alpha (attempt (Search 1 c2 v2 pg2) k) = alphas !!! k.
Proof.
  intros Hk.
  do 5 (destruct k as [|k];
        [rewrite ?alpha_attempt_S; apply Qc_is_canon; vm_compute; reflexivity|]).
  lia.
Qed.

Lemma length_torsions_attempt s0 k :
  length (torsions (s_c2 s0)) = num_active_torsions lig →
  length (torsions (s_c2 (attempt s0 k))) = num_active_torsions lig.
Proof.
  intros Hlen. induction k as [|k IH]; [done|]. simpl.
  destruct (trial_spec k (attempt s0 k)) as (-> & _).
  by apply step_conformation_torsions.
Qed.

(** The loop: it leaves at the first accepted trial, or after [m] rejected
    ones. *)
Lemma for_break_trial s0 m k :
  let run := for_break k m trial (attempt s0 k) in
  (k ≤ run.1 ≤ k + m)%nat ∧
  (∀ j, (k ≤ j < run.1)%nat → accepted s0 j = false) ∧
  ((run.1 < k + m)%nat → accepted s0 run.1 = true ∧ run.2 = (trial run.1 (attempt s0 run.1)).1) ∧
  (run.1 = (k + m)%nat → run.2 = attempt s0 (k + m)).
Proof.
  revert k. induction m as [|m IH]; intros k; simpl.
  - rewrite Nat.add_0_r. repeat split; try lia; done.
  - destruct (trial k (attempt s0 k)) as [s' broke] eqn:Htrial.
    destruct broke; simpl.
    + repeat split; try lia; unfold accepted; by rewrite Htrial.
    + assert (Hrej : accepted s0 k = false) by (unfold accepted; by rewrite Htrial).
      assert (Hs' : s' = attempt s0 (S k)) by (by rewrite <- attempt_S, Htrial).
      rewrite Hs'. specialize (IH (S k)). cbv zeta in IH.
      destruct IH as (Hrange & Hbefore & Hacc & Hnone).
      split; [lia|]. split; [|split].
      * intros j Hj. destruct (decide (j = k)) as [->|]; [done|]. apply Hbefore. lia.
      * intros Hlt. apply Hacc. lia.
      * intros Heq. replace (k + S m)%nat with (S k + m)%nat by lia. apply Hnone. lia.
Qed.

End LineSearch.

Section Bfgs.

Context `{Library}.
Variable lig : ligand.
Variable sf : ScoringFunction.scoring_function.
Variable rec : receptor.

Lemma bfgs_S (fuel : nat) (b : bfgs_vars) :
  bfgs lig sf rec (S fuel) b =
  let p := minus_h_times (num_variables lig) (h b) (out_g (v1 b)) (MonteCarlo.p b) in
  let pg1 := dot (num_variables lig) p (out_g (v1 b)) in
  let run := line_search lig sf rec (c1 b) (out_e (v1 b)) p pg1 (c2 b) (v2 b) (pg2 b) in
  if bool_decide (run.1 = num_alphas)
  then Some (Bfgs (c1 b) (v1 b) (s_c2 run.2) (s_v2 run.2) p (s_pg2 run.2) (h b) (y b) (mhy b))
  else
    let upd := update_hessian lig (alpha run.2) (out_g (v1 b)) (out_g (s_v2 run.2)) p
                 (h b) (y b) (mhy b) in
    bfgs lig sf rec fuel
      (Bfgs (s_c2 run.2) (s_v2 run.2) (s_c2 run.2) (s_v2 run.2) p (s_pg2 run.2)
            upd.1.1 upd.1.2 upd.2).
Proof.
  cbn [MonteCarlo.bfgs]. cbv zeta.
  destruct (line_search lig sf rec (c1 b) (out_e (v1 b)) _ _ (c2 b) (v2 b) (pg2 b)) as [n s].
  cbn [fst snd]. case_bool_decide; [done|].
  by destruct (update_hessian lig (alpha s) _ _ _ (h b) (y b) (mhy b)) as [[h' y'] mhy'].
Qed.

(** C4, amended.  In a pass of the BFGS loop that starts from the variables
    [b] (where [c2] has its [num_active_torsions] torsions), with
    [p = -h g1] and [pg1 = p . g1]: the line search makes at most
    [num_alphas = 5] trials; trial [k] uses the step length
    [alphas[k]] of 1, 0.1, 0.01, 0.001, 0.0001; it builds [c2] from [c1] by
    adding [alpha (p0,p1,p2)] to the position, multiplying the orientation
    from the left by [qtn4(alpha (p3,p4,p5))], and setting torsion [i] to
    [c1.torsions[i] + alpha p[6+i]], with no wrapping; it is accepted
    exactly when the evaluation with the bound
    [e1 + 0.0001 alpha pg1] succeeds and [p . g2 >= 0.9 pg1]; the search
    leaves at the first accepted trial, after which the loop goes on from
    [c2]; and when no trial is accepted the BFGS loop is left with [c1],
    [e1], [f1], [g1] as they were. *)
Theorem line_search_spec (b : bfgs_vars) (fuel : nat) :
  length (torsions (c2 b)) = num_active_torsions lig →
  let p := minus_h_times (num_variables lig) (h b) (out_g (v1 b)) (MonteCarlo.p b) in
  let pg1 := dot (num_variables lig) p (out_g (v1 b)) in
  let e1 := out_e (v1 b) in
  let s0 := Search 1 (c2 b) (v2 b) (pg2 b) in
  let run := line_search lig sf rec (c1 b) e1 p pg1 (c2 b) (v2 b) (pg2 b) in
  let before k := attempt lig sf rec (c1 b) e1 p pg1 s0 k in
  let after k := (trial lig sf rec (c1 b) e1 p pg1 k (before k)).1 in
  let acc k := accepted lig sf rec (c1 b) e1 p pg1 s0 k in
  num_alphas = 5%nat ∧
  (run.1 ≤ num_alphas)%nat ∧
  (∀ k, (k < num_alphas)%nat →
     let a := alphas !!! k in
     let ev := evaluate lig (s_c2 (after k)) sf rec (e1 + dec 0.0001 * a * pg1)
                 (s_v2 (before k)) in
     alpha (before k) = a ∧
     position (s_c2 (after k)) =
       Vec3 (vx (position (c1 b)) + a * p !!! 0%nat)
            (vy (position (c1 b)) + a * p !!! 1%nat)
            (vz (position (c1 b)) + a * p !!! 2%nat) ∧
     orientation (s_c2 (after k)) =
       qtn4_mul (qtn4_of_vec3 (Vec3 (a * p !!! 3%nat) (a * p !!! 4%nat) (a * p !!! 5%nat)))
                (orientation (c1 b)) ∧
     (∀ i, (i < num_active_torsions lig)%nat →
           torsions (s_c2 (after k)) !!! i = torsions (c1 b) !!! i + a * p !!! (6 + i)%nat) ∧
     (acc k = true ↔
        ev.1 = true ∧ dec 0.9 * pg1 ≤ dot (num_variables lig) p (out_g ev.2))) ∧
  (∀ j, (j < run.1)%nat → acc j = false) ∧
  ((run.1 < num_alphas)%nat →
     acc run.1 = true ∧ run.2 = after run.1 ∧ alpha run.2 = alphas !!! run.1 ∧
     ∃ b1, c1 b1 = s_c2 run.2 ∧ v1 b1 = s_v2 run.2 ∧
           bfgs lig sf rec (S fuel) b = bfgs lig sf rec fuel b1) ∧
  (run.1 = num_alphas →
     ∃ b', bfgs lig sf rec (S fuel) b = Some b' ∧ c1 b' = c1 b ∧ v1 b' = v1 b).
Proof.
  intros Hlen p pg1 e1 s0 run before after acc.
  pose proof (for_break_trial lig sf rec (c1 b) e1 p pg1 s0 num_alphas 0) as Hrun.
  change (attempt lig sf rec (c1 b) e1 p pg1 s0 0) with s0 in Hrun.
  change (for_break 0 num_alphas (trial lig sf rec (c1 b) e1 p pg1) s0) with run in Hrun.
  cbv zeta in Hrun. destruct Hrun as (Hrange & Hbefore & Hacc & Hnone).
  split; [done|]. split; [lia|]. split; [|split; [|split]].
  - intros k Hk a ev.
    assert (Ha : alpha (before k) = a) by (by apply alpha_attempt).
    destruct (trial_spec lig sf rec (c1 b) e1 p pg1 k (before k))
      as (Hc2 & _ & Hiff & _).
    rewrite Ha in Hc2, Hiff. fold (after k) in Hc2.
    assert (Hlenk : length (torsions (s_c2 (before k))) = num_active_torsions lig)
      by (by apply length_torsions_attempt).
    destruct (step_conformation_torsions lig (c1 b) p a (s_c2 (before k)) Hlenk) as [_ Htor].
    split; [done|]. subst ev. rewrite Hc2. split; [done|]. split; [done|]. split; [done|].
    exact Hiff.
  - intros j Hj. apply Hbefore. lia.
  - intros Hlt. destruct Hacc as [Hyes Hs]; [lia|].
    assert (Halpha : alpha run.2 = alphas !!! run.1).
    { destruct (trial_spec lig sf rec (c1 b) e1 p pg1 run.1 (before run.1))
        as (_ & _ & _ & Hkeep & _).
      subst before. cbv beta in Hkeep. rewrite Hs, (Hkeep Hyes). by apply alpha_attempt. }
    split; [done|]. split; [done|]. split; [done|].
    rewrite bfgs_S. cbv zeta. fold p. fold pg1. fold e1. fold run.
    rewrite bool_decide_eq_false_2 by lia.
    by eexists (Bfgs _ _ _ _ _ _ _ _ _).
  - intros Heq. rewrite bfgs_S. cbv zeta. fold p. fold pg1. fold e1. fold run.
    rewrite bool_decide_eq_true_2 by done. by eexists.
Qed.

End Bfgs.

#[local] Existing Instance Fixtures.library.

Lemma fixture_draws_in_range (eng : nat) :
  - (1) ≤ (Fixtures.uniform_11 eng).1 ∧ (Fixtures.uniform_11 eng).1 < 1.
Proof.
  unfold Fixtures.uniform_11. cbn [fst].
  assert (Hlt : (eng mod 4 < 4)%nat) by (apply Nat.mod_upper_bound; lia).
  revert Hlt. generalize (eng mod 4)%nat. intros k Hlt.
  destruct k as [|[|[|[|k]]]]; [split; vm_compute; done ..|lia].
Qed.

Lemma random_start_on_diagonal_witness :
  ∃ u, - (1) ≤ u ∧ u < 1 ∧
       position (c0 (mc_start Fixtures.bowl_ligand [] Fixtures.search_box 7)) =
         Vec3 (dec 1 + u * dec 10) (dec 2 + u * dec 20) (dec 3 + u * dec 30).
Proof.
  destruct (random_start_on_diagonal (H := Fixtures.library)
              Fixtures.bowl_ligand [] Fixtures.search_box 7 fixture_draws_in_range)
    as (u & eng1 & qa & eng2 & qb & eng3 & qc & eng4 & qd & eng5 & _ & Hlo & Hhi & Hpos & _).
  exists u. exact (conj Hlo (conj Hhi Hpos)).
Defined.

(** With the seed 7 the draw is -1/2 and the start is at
    [center - span / 2]. *)
Example random_start_seed_7 :
  position (c0 (mc_start Fixtures.bowl_ligand [] Fixtures.search_box 7))
  = Vec3 (- dec 4) (- dec 8) (- dec 12).
Proof. by vm_compute. Qed.

(** With the seed 7 the four draws after the first are 1/2, -1/4, 3/4 and
    -1/2.  Evaluating the arguments of [qtn4] from right to left gives the
    first of them to the last component; from left to right, to the first.
    Both orders are rearrangements of the positions. *)
Example random_start_orientation_seed_7 :
  orientation (c0 (mc_start Fixtures.bowl_ligand [] Fixtures.search_box 7))
  = Qtn4 (- dec 0.5) (dec 0.75) (- dec 0.25) (dec 0.5) ∧
  orientation (c0 (mc_start (H := Fixtures.left_to_right)
                     Fixtures.bowl_ligand [] Fixtures.search_box 7))
  = Qtn4 (dec 0.5) (- dec 0.25) (dec 0.75) (- dec 0.5) ∧
  qtn4_rank <$> [0; 1; 2; 3]%nat ≡ₚ [0; 1; 2; 3]%nat ∧
  qtn4_rank (Library := Fixtures.left_to_right) <$> [0; 1; 2; 3]%nat ≡ₚ [0; 1; 2; 3]%nat.
Proof.
  split; [by vm_compute|]. split; [by vm_compute|]. split; [|done].
  apply (reverse_Permutation [0; 1; 2; 3]%nat).
Qed.

(** The mutation of that start, at (-4, -8, -12), draws -1/4, 3/4 and -1/2.
    From right to left the first draw goes to [z]; from left to right, to
    [x]. *)
Example mutation_seed_7 :
  position (c1 (vars (mc_mutate Fixtures.bowl_ligand [] Fixtures.search_box
                        (mc_start Fixtures.bowl_ligand [] Fixtures.search_box 7))))
  = Vec3 (- dec 4.5) (- dec 7.25) (- dec 12.25) ∧
  position (c1 (vars (mc_mutate (H := Fixtures.left_to_right)
                        Fixtures.bowl_ligand [] Fixtures.search_box
                        (mc_start (H := Fixtures.left_to_right)
                           Fixtures.bowl_ligand [] Fixtures.search_box 7))))
  = Vec3 (- dec 4.25) (- dec 7.25) (- dec 12.5) ∧
  vec3_rank <$> [0; 1; 2]%nat ≡ₚ [0; 1; 2]%nat ∧
  vec3_rank (Library := Fixtures.left_to_right) <$> [0; 1; 2]%nat ≡ₚ [0; 1; 2]%nat.
Proof.
  split; [by vm_compute|]. split; [by vm_compute|]. split; [|done].
  apply (reverse_Permutation [0; 1; 2]%nat).
Qed.

(** C4 as first stated does not hold: from a torsion of 3 (inside
    [[-pi, pi)]) a trial with [alpha = 1] and [p[6] = 1] sets the torsion of
    [c2] to 4, which is not below [pi]: nothing wraps it. *)
Lemma trial_torsion_not_wrapped :
  let c1 := Conformation zero3 qtn4id [dec 3] in
  let p := [0; 0; 0; 0; 0; 0; dec 1] in
  let c2 := step_conformation Fixtures.rejecting_ligand c1 p 1 (conformation_new 1) in
  (- pi ≤ dec 3 ∧ dec 3 < pi) ∧ torsions c2 = [dec 4] ∧ ¬ (dec 4 < pi).
Proof.
  split; [split; by vm_compute|]. split.
  - by vm_compute.
  - by vm_compute.
Qed.

Lemma line_search_spec_witness :
  let b := vars (mc_mutate Fixtures.bowl_ligand [] Fixtures.search_box
                   (mc_start Fixtures.bowl_ligand [] Fixtures.search_box 7)) in
  let p := minus_h_times (num_variables Fixtures.bowl_ligand) (h b) (out_g (v1 b))
             (MonteCarlo.p b) in
  let pg1 := dot (num_variables Fixtures.bowl_ligand) p (out_g (v1 b)) in
  let run := line_search Fixtures.bowl_ligand [] Fixtures.search_box (c1 b) (out_e (v1 b))
               p pg1 (c2 b) (v2 b) (pg2 b) in
  (run.1 ≤ num_alphas)%nat ∧
  ∀ j, (j < run.1)%nat →
       accepted Fixtures.bowl_ligand [] Fixtures.search_box (c1 b) (out_e (v1 b)) p pg1
         (Search 1 (c2 b) (v2 b) (pg2 b)) j = false.
Proof.
  intros b.
  destruct (line_search_spec Fixtures.bowl_ligand [] Fixtures.search_box b 0 eq_refl)
    as (_ & Hle & _ & Hrej & _).
  exact (conj Hle Hrej).
Defined.

(** In the bowl the first trial ([alpha = 1]) overshoots and the second
    ([alpha = 0.1]) is accepted. *)
Example bowl_second_trial_accepted :
  let b := vars (mc_mutate Fixtures.bowl_ligand [] Fixtures.search_box
                   (mc_start Fixtures.bowl_ligand [] Fixtures.search_box 7)) in
  let p := minus_h_times 7 (h b) (out_g (v1 b)) (MonteCarlo.p b) in
  let run := line_search Fixtures.bowl_ligand [] Fixtures.search_box (c1 b) (out_e (v1 b))
               p (dot 7 p (out_g (v1 b))) (c2 b) (v2 b) (pg2 b) in
  run.1 = 1%nat ∧ alpha run.2 = dec 0.1.
Proof. split; [by vm_compute|]. apply Qc_is_canon. by vm_compute. Qed.

Lemma metropolis_accepts_only_improvements_witness :
  let t := mc_start Fixtures.bowl_ligand [] Fixtures.search_box 7 in
  ∃ t', mc_iteration Fixtures.bowl_ligand [] Fixtures.search_box 3 t = Some t' ∧
        out_e (v0 t') ≤ out_e (v0 t).
Proof.
  intros t.
  destruct (mc_iteration Fixtures.bowl_ligand [] Fixtures.search_box 3 t) as [t'|] eqn:Ht.
  - exists t'. split; [reflexivity|].
    destruct (proj1 (metropolis_accepts_only_improvements
                       Fixtures.bowl_ligand [] Fixtures.search_box 3 t) t' Ht)
      as (b & _ & _ & _ & Hle).
    exact Hle.
  - vm_compute in Ht. discriminate Ht.
Defined.

(** The whole task on the bowl: fifty iterations, each leaving its BFGS loop
    within three passes; the retained energy falls from 897/4 to the
    minimum 0 and the result slot holds that pose. *)
Example bowl_task_runs :
  ∃ t, monte_carlo_task Fixtures.bowl_ligand [] Fixtures.search_box 3 7 = Some t ∧
       out_e (v0 (mc_start Fixtures.bowl_ligand [] Fixtures.search_box 7)) = dec 224.25 ∧
       out_e (v0 t) = 0 ∧ result_e (r t) = 0 ∧ eng t = 163%nat.
Proof.
  eexists. split; [vm_compute; reflexivity|].
  split; [apply Qc_is_canon; by vm_compute|].
  split; [apply Qc_is_canon; by vm_compute|].
  split; [apply Qc_is_canon; by vm_compute|]. by vm_compute.
Qed.

(** A start whose evaluation gives up still seeds the result slot, and the
    task runs to its end on the values the rejected evaluations left. *)
Example rejected_start_still_seeds_result :
  let t0 := mc_start Fixtures.rejecting_ligand [] Fixtures.search_box 7 in
  (evaluate Fixtures.rejecting_ligand (c0 t0) [] Fixtures.search_box
     (e_upper_bound Fixtures.rejecting_ligand)
     (Outputs uninitialized uninitialized (replicate 7 0))).1 = false ∧
  result_e (r t0) = dec 100 ∧
  heavy_atoms (r t0) = [position (c0 t0)] ∧
  ∃ t, monte_carlo_task Fixtures.rejecting_ligand [] Fixtures.search_box 1 7 = Some t ∧
       r t = r t0.
Proof.
  split; [by vm_compute|]. split; [apply Qc_is_canon; by vm_compute|].
  split; [by vm_compute|]. eexists. split; [vm_compute; reflexivity|]. by vm_compute.
Qed.

(** A mutated conformation whose evaluation gives up (energy above the
    bound 40) still enters the BFGS loop: [e1] is the rejected energy,
    [g1] the gradient the evaluation did not write, and the line search
    makes its five trials before the loop is left. *)
Example rejected_mutation_still_enters_bfgs :
  let t1 := mc_mutate Fixtures.tight_bowl_ligand [] Fixtures.search_box
              (mc_start Fixtures.tight_bowl_ligand [] Fixtures.search_box 7) in
  let b := vars t1 in
  (evaluate Fixtures.tight_bowl_ligand (c1 b) [] Fixtures.search_box
     (e_upper_bound Fixtures.tight_bowl_ligand)
     (Outputs uninitialized uninitialized (replicate 7 0))).1 = false ∧
  out_g (v1 b) = replicate 7 0 ∧
  (line_search Fixtures.tight_bowl_ligand [] Fixtures.search_box (c1 b) (out_e (v1 b))
     (replicate 7 0) 0 (c2 b) (v2 b) (pg2 b)).1 = 5%nat ∧
  ∃ b', bfgs Fixtures.tight_bowl_ligand [] Fixtures.search_box 1 b = Some b' ∧
        out_e (v1 b') = out_e (v1 b).
Proof.
  split; [by vm_compute|]. split; [by vm_compute|]. split; [by vm_compute|].
  eexists. split; [vm_compute; reflexivity|]. by vm_compute.
Qed.


End MonteCarloProofs.

(** * Further properties of the code *)

(** ** The clustering container: invariants of insertion *)
Module ResultProperties.
Import Result.
Local Open Scope Qc_scope.

#[local] Instance result_le_total' : Total result_le.
Proof. intros a b. unfold result_le. apply Qc_le_total. Qed.

Section Container.

Variable distance_sqr : list vec3 → list vec3 → fl.

Abbreviation add := (add_to_result_container distance_sqr).

(** What an insertion into a non-empty container does before it sorts:
    nothing, one member gives way to a strictly better [r], or [r] is
    appended below the capacity. *)
Lemma add_to_result_container_cases (results : ptr_vector) (r : result) (tau : fl) :
  items results ≠ [] →
  ∃ v, add results r tau = sort v ∧ capacity v = capacity results ∧
       (items v = items results ∨
        (∃ i s, items results !! i = Some s ∧ result_e r < result_e s ∧
                items v = <[i := result_move r]> (items results)) ∨
        ((length (items results) < capacity results)%nat ∧
         items v = items results ++ [result_move r])).
Proof.
  intros Hne. unfold add_to_result_container.
  destruct (items results) as [|front rest] eqn:Hitems; [done|]. rewrite <- Hitems.
  destruct (closest distance_sqr r front (items results)) as [index best].
  eexists. split; [reflexivity|].
  case_bool_decide.
  - destruct (items results !! index) as [ri|] eqn:Hri; [|by split; [|left]].
    case_bool_decide; [|by split; [|left]].
    split; [done|]. right; left. by exists index, ri.
  - case_bool_decide.
    + split; [simpl; lia|]. right; right. by split.
    + destruct (last (items results)) as [back|] eqn:Hback; [|by split; [|left]].
      case_bool_decide; [|by split; [|left]].
      split; [done|]. right; left. exists (length (items results) - 1)%nat, back.
      split; [|done]. rewrite last_lookup in Hback.
      by replace (length (items results) - 1)%nat with (pred (length (items results))) by lia.
Qed.

Lemma add_to_result_container_empty (results : ptr_vector) (r : result) (tau : fl) :
  items results = [] →
  add results r tau = PtrVector [result_move r] (Nat.max (capacity results) 1).
Proof. intros Hnil. unfold add_to_result_container, push_back. by rewrite Hnil. Qed.

(** One insertion keeps the container within its capacity and leaves it
    sorted, whatever order it was in. *)
Lemma add_to_result_container_inv (results : ptr_vector) (r : result) (tau : fl) :
  (length (items results) ≤ capacity results)%nat →
  let out := add results r tau in
  Sorted result_le (items out) ∧
  (length (items out) ≤ capacity out)%nat ∧
  (length (items out) ≤ S (length (items results)))%nat ∧
  capacity out = Nat.max (capacity results) 1.
Proof.
  intros Hcap out. subst out.
  destruct (decide (items results = [])) as [Hnil|Hne].
  - rewrite add_to_result_container_empty by done. simpl. rewrite Hnil. simpl.
    split; [repeat constructor|]. lia.
  - destruct (add_to_result_container_cases results r tau Hne)
      as (v & -> & Hcapv & Hcases).
    unfold sort; simpl. split; [apply (Sorted_merge_sort result_le)|].
    rewrite (Permutation_length (merge_sort_Permutation result_le (items v))), Hcapv.
    assert (length (items results) ≠ 0)%nat by (by destruct (items results)).
    destruct Hcases as [-> | [(i & s & _ & _ & ->) | [Hlt ->]]];
      rewrite ?length_insert, ?length_app; simpl; lia.
Qed.

(** X1. Whatever results are inserted one after the other into an empty
    container with a reserved capacity [K] of at least one, the container is
    sorted ascending by [e] after every insertion and never holds more than
    [K] members, nor more than were inserted: it is never reallocated. *)
Theorem insertions_keep_sorted_and_bounded (K : nat) (tau : fl) (rs : list result) :
  (1 ≤ K)%nat →
  let out := foldl (λ c r, add c r tau) (PtrVector [] K) rs in
  Sorted result_le (items out) ∧
  (length (items out) ≤ K)%nat ∧
  (length (items out) ≤ length rs)%nat.
Proof.
  intros HK out. subst out.
  assert (Hgen : ∀ (c : ptr_vector),
    Sorted result_le (items c) → (length (items c) ≤ capacity c)%nat →
    let out := foldl (λ c r, add c r tau) c rs in
    Sorted result_le (items out) ∧
    (length (items out) ≤ Nat.max (capacity c) 1)%nat ∧
    (length (items out) ≤ length (items c) + length rs)%nat).
  { induction rs as [|r rs' IH]; intros c Hsorted Hcap; simpl.
    - split; [done|]. lia.
    - destruct (add_to_result_container_inv c r tau Hcap) as (Hs & Hc & Hl & Hk).
      destruct (IH _ Hs Hc) as (Hs' & Hc' & Hl'). cbv zeta in *.
      split; [done|]. rewrite Hk in Hc'. lia. }
  destruct (Hgen (PtrVector [] K)) as (Hs & Hc & Hl); simpl; [constructor | lia |].
  simpl in Hc, Hl. split; [done|]. split; lia.
Qed.

(** X2. An insertion never makes the pool worse and never invents a member:
    for every member of the container before the insertion there is a member
    afterwards whose energy is at most as high, and every member afterwards
    is a member from before or the (move-constructed) candidate. *)
Theorem insertion_never_loses_quality (results : ptr_vector) (r : result) (tau : fl) :
  let out := add results r tau in
  (∀ s, s ∈ items results → ∃ s', s' ∈ items out ∧ result_e s' ≤ result_e s) ∧
  (∀ s', s' ∈ items out → s' ∈ items results ∨ s' = result_move r).
Proof.
  intros out. subst out.
  destruct (decide (items results = [])) as [Hnil|Hne].
  - rewrite add_to_result_container_empty by done. rewrite Hnil. simpl. split.
    + intros s Hs. by apply elem_of_nil in Hs.
    + intros s' Hs'. right. by apply list_elem_of_singleton in Hs'.
  - destruct (add_to_result_container_cases results r tau Hne)
      as (v & -> & _ & Hcases).
    assert (Hperm : ∀ x, x ∈ items (sort v) ↔ x ∈ items v).
    { intros x. unfold sort; simpl. by rewrite merge_sort_Permutation. }
    destruct Hcases as [Hv | [(i & si & Hi & Hlt & Hv) | [_ Hv]]];
      setoid_rewrite Hv in Hperm; clear Hv.
    + split.
      * intros s Hs. exists s. split; [by apply Hperm | apply Qcle_refl].
      * intros s' Hs'. left. by apply Hperm.
    + split.
      * intros s [j Hj]%list_elem_of_lookup.
        destruct (decide (i = j)) as [->|Hij].
        -- exists (result_move r). split.
           ++ apply Hperm, list_elem_of_lookup. exists j.
              apply list_lookup_insert_eq. by eapply lookup_lt_Some.
           ++ rewrite Hi in Hj. injection Hj as <-. simpl. by apply Qclt_le_weak.
        -- exists s. split; [|apply Qcle_refl].
           apply Hperm, list_elem_of_lookup. exists j. by rewrite list_lookup_insert_ne.
      * intros s' [j Hj]%Hperm%list_elem_of_lookup.
        destruct (decide (i = j)) as [->|Hij].
        -- right. rewrite list_lookup_insert_eq in Hj by (by eapply lookup_lt_Some).
           by injection Hj.
        -- left. rewrite list_lookup_insert_ne in Hj by done.
           apply list_elem_of_lookup. by exists j.
    + split.
      * intros s Hs. exists s. split; [|apply Qcle_refl].
        apply Hperm, elem_of_app. by left.
      * intros s' [Hs' | Hs']%Hperm%elem_of_app; [by left|].
        right. by apply list_elem_of_singleton in Hs'.
Qed.

End Container.

Lemma insertions_keep_sorted_and_bounded_witness :
  let out := foldl (λ c r, add_to_result_container Fixtures.sum_sqr_dev c r (Qc_of_Z 1))
               (PtrVector [] 2)
               [Fixtures.pose 3 0 0 0; Fixtures.pose 1 5 5 5; Fixtures.pose 2 9 9 9] in
  Sorted result_le (items out) ∧
  (length (items out) ≤ 2)%nat ∧
  (length (items out) ≤ 3)%nat.
Proof.
  apply (insertions_keep_sorted_and_bounded Fixtures.sum_sqr_dev 2 (Qc_of_Z 1)
           [Fixtures.pose 3 0 0 0; Fixtures.pose 1 5 5 5; Fixtures.pose 2 9 9 9]).
  lia.
Defined.

End ResultProperties.

(** ** The scoring table: symmetry, range, overwriting, lookup *)
Module ScoringFunctionProperties.
Import ScoringFunction ScoringFunctionProofs.
Local Open Scope Qc_scope.

#[local] Opaque Num_Samples.

Section Score.

Variable xs_vdw_radius : nat → fl.
Variable xs_is_hydrophobic : nat → bool.
Variable xs_hbond : nat → nat → bool.
Variable exp : fl → fl.

Abbreviation score := (score xs_vdw_radius xs_is_hydrophobic xs_hbond exp).
Abbreviation precalculate_samples :=
  (precalculate_samples xs_vdw_radius xs_is_hydrophobic xs_hbond exp).
Abbreviation precalculate := (precalculate xs_vdw_radius xs_is_hydrophobic xs_hbond exp).

(** X3. With a symmetric hydrogen-bond table the potential does not depend
    on the order of the two types: [score(t1,t2,r) = score(t2,t1,r)] for
    every [r] the function asserts, [r <= Cutoff_Sqr]. *)
Theorem score_symmetric (t1 t2 : nat) (r : fl) :
  (∀ a b, xs_hbond a b = xs_hbond b a) →
  r ≤ Cutoff_Sqr →
  score t1 t2 r = score t2 t1 r.
Proof.
  intros Hsym _. unfold ScoringFunction.score.
  rewrite (Qcplus_comm (xs_vdw_radius t2)), (Hsym t2 t1).
  by rewrite (andb_comm (xs_is_hydrophobic t2)).
Qed.

(** X4. From a surface distance of 1.5 on, that is for
    [vdw(t1) + vdw(t2) + 1.5 <= r <= Cutoff_Sqr], the repulsion, hydrophobic
    and hydrogen-bond terms all vanish, whatever the two types: the
    potential is the sum of the two Gaussian terms alone. *)
Theorem score_far_is_gaussian (t1 t2 : nat) (r : fl) :
  let d := r - (xs_vdw_radius t1 + xs_vdw_radius t2) in
  dec 1.5 ≤ d →
  r ≤ Cutoff_Sqr →
  score t1 t2 r =
    (- dec 0.035579) * exp (- sqr (d * 2))
    + (- dec 0.005156) * exp (- sqr ((d - dec 3.0) * dec 0.5)).
Proof.
  intros d Hd _. unfold ScoringFunction.score. fold d.
  assert (H0 : 0 < d) by (eapply Qclt_le_trans; [|exact Hd]; by vm_compute).
  rewrite (bool_decide_eq_true_2 (0 < d)) by done.
  rewrite (bool_decide_eq_true_2 (dec 1.5 ≤ d)) by done.
  rewrite (bool_decide_eq_true_2 (0 ≤ d)) by (by apply Qclt_le_weak).
  destruct (xs_is_hydrophobic t1 && xs_is_hydrophobic t2), (xs_hbond t1 t2); ring.
Qed.

(** X5. [precalculate] overwrites: the sample vector it leaves for a type
    pair (of [Num_Samples] cells, over a grid of [Num_Samples] values)
    depends on the types and the grid only, not on what the vector held
    before; in particular calculating twice changes nothing. *)
Theorem precalculate_overwrites (t1 t2 : nat) (rs : list fl)
    (p q : list scoring_function_element) :
  length rs = Num_Samples →
  length p = Num_Samples → length q = Num_Samples →
  precalculate_samples t1 t2 rs p = precalculate_samples t1 t2 rs q ∧
  precalculate_samples t1 t2 rs (precalculate_samples t1 t2 rs p) = precalculate_samples t1 t2 rs p.
Proof.
  assert (Hgen : ∀ p q : list scoring_function_element,
    length p = Num_Samples → length q = Num_Samples →
    precalculate_samples t1 t2 rs p = precalculate_samples t1 t2 rs q).
  { clear p q. intros p q Hp Hq.
    destruct (precalculate_samples_spec xs_vdw_radius xs_is_hydrophobic xs_hbond exp
                t1 t2 rs p Hp) as (Hlp & Hep & Hdp & Hp0 & HpN).
    destruct (precalculate_samples_spec xs_vdw_radius xs_is_hydrophobic xs_hbond exp
                t1 t2 rs q Hq) as (Hlq & Heq & Hdq & Hq0 & HqN).
    set (p' := precalculate_samples t1 t2 rs p) in *. clearbody p'.
    set (q' := precalculate_samples t1 t2 rs q) in *. clearbody q'.
    pose proof Num_Samples_gt_1 as HN.
    apply (list_eq_same_length _ _ Num_Samples); [done..|].
    intros i x y Hi Hx Hy.
    apply list_lookup_total_correct in Hx, Hy. subst x y.
    assert (He : e (p' !!! i) = e (q' !!! i)) by (by rewrite Hep, Heq).
    assert (Hd : dor (p' !!! i) = dor (q' !!! i)).
    { destruct (decide (i = 0)%nat) as [->|]; [by rewrite Hp0, Hq0|].
      destruct (decide (i = Num_Samples - 1)%nat) as [->|]; [by rewrite HpN, HqN|].
      rewrite Hdp, Hdq by lia. by rewrite !Hep, !Heq by lia. }
    destruct (p' !!! i), (q' !!! i); simpl in *. by subst. }
  intros _ Hp Hq. split; [by apply Hgen|].
  apply Hgen; [|done].
  by destruct (precalculate_samples_spec xs_vdw_radius xs_is_hydrophobic xs_hbond exp
                 t1 t2 rs p Hp) as (Hlp & _).
Qed.

(** X6. Lookup without interpolation.  On the table precalculated for a
    type pair over any grid [rs] of [Num_Samples] values, [evaluate] at
    [0 <= r2 <= Cutoff_Sqr]
    returns the energy [score(t1,t2,rs[k])] of the sample [k] that is the
    integer part of [Factor * r2]: [k <= Factor * r2 < k + 1], and
    [k < Num_Samples]. *)
Theorem evaluate_returns_sample (t1 t2 : nat) (rs : list fl) (sf : scoring_function)
    (p : list scoring_function_element) (r2 : fl) :
  0 ≤ r2 → r2 ≤ Cutoff_Sqr →
  sf !! triangular_matrix_restrictive_index t1 t2 = Some p →
  length p = Num_Samples →
  length rs = Num_Samples →
  let k := size_t_of_double (Factor * r2) in
  e (evaluate (precalculate t1 t2 rs sf) (triangular_matrix_restrictive_index t1 t2) r2)
    = score t1 t2 (rs !!! k) ∧
  (k < Num_Samples)%nat ∧
  Qc_of_Z (Z.of_nat k) ≤ Factor * r2 ∧
  Factor * r2 < Qc_of_Z (Z.of_nat k + 1).
Proof.
  intros H0 Hcut Hp Hlen _ k.
  pose proof (sample_index_bound r2 H0 Hcut) as Hk. fold k in Hk.
  destruct (precalculate_samples_spec xs_vdw_radius xs_is_hydrophobic xs_hbond exp
              t1 t2 rs p Hlen) as (_ & He & _).
  split; [|split; [done|]].
  - unfold evaluate. fold k.
    assert (Hp' : precalculate t1 t2 rs sf !! triangular_matrix_restrictive_index t1 t2
                  = Some (precalculate_samples t1 t2 rs p)).
    { rewrite precalculate_lookup, decide_True by done. by rewrite Hp. }
    rewrite (list_lookup_total_correct _ _ _ Hp'). by apply He.
  - assert (Hge : 0 ≤ Factor * r2).
    { rewrite <- (Qcmult_0_r Factor).
      apply Qcmult_le_mono_nonneg_l; [apply Factor_nonneg | done]. }
    assert (Hfloor : Z.of_nat k = Qfloor (Factor * r2)%Qc).
    { subst k. unfold size_t_of_double.
      rewrite bool_decide_eq_false_2 by (by apply Qcle_not_lt).
      apply Z2Nat.id. change 0%Z with (Qfloor 0). by apply Qfloor_resp_le. }
    rewrite Hfloor. split.
    + exact (Qfloor_le (Factor * r2)%Qc).
    + exact (Qlt_floor (Factor * r2)%Qc).
Qed.

End Score.

Lemma score_symmetric_witness :
  ScoringFunction.score Fixtures.xs_vdw_radius Fixtures.xs_is_hydrophobic Fixtures.xs_hbond
    Fixtures.exp 2 5 (Qc_of_Z 3)
  = ScoringFunction.score Fixtures.xs_vdw_radius Fixtures.xs_is_hydrophobic Fixtures.xs_hbond
      Fixtures.exp 5 2 (Qc_of_Z 3).
Proof.
  apply (score_symmetric Fixtures.xs_vdw_radius Fixtures.xs_is_hydrophobic Fixtures.xs_hbond
           Fixtures.exp 2 5 (Qc_of_Z 3)).
  - intros a b. reflexivity.
  - by vm_compute.
Defined.

Lemma score_far_is_gaussian_witness :
  ScoringFunction.score Fixtures.xs_vdw_radius Fixtures.xs_is_hydrophobic Fixtures.xs_hbond
    Fixtures.exp 0 0 (Qc_of_Z 4)
  = (- dec 0.035579) * Fixtures.exp (- sqr ((Qc_of_Z 4 - (1 + 1)) * 2))
    + (- dec 0.005156) * Fixtures.exp (- sqr ((Qc_of_Z 4 - (1 + 1) - dec 3.0) * dec 0.5)).
Proof.
  apply (score_far_is_gaussian Fixtures.xs_vdw_radius Fixtures.xs_is_hydrophobic
           Fixtures.xs_hbond Fixtures.exp 0 0 (Qc_of_Z 4)).
  - by vm_compute.
  - by vm_compute.
Defined.

Lemma precalculate_overwrites_witness :
  ScoringFunction.precalculate_samples Fixtures.xs_vdw_radius Fixtures.xs_is_hydrophobic
    Fixtures.xs_hbond Fixtures.exp 0 0 sample_grid (replicate Num_Samples (Element 0 0))
  = ScoringFunction.precalculate_samples Fixtures.xs_vdw_radius Fixtures.xs_is_hydrophobic
      Fixtures.xs_hbond Fixtures.exp 0 0 sample_grid (replicate Num_Samples (Element 1 1)).
Proof.
  exact (proj1 (precalculate_overwrites Fixtures.xs_vdw_radius Fixtures.xs_is_hydrophobic
                  Fixtures.xs_hbond Fixtures.exp 0 0 sample_grid
                  (replicate Num_Samples (Element 0 0)) (replicate Num_Samples (Element 1 1))
                  sample_grid_length (length_replicate _ _) (length_replicate _ _))).
Defined.

Lemma evaluate_returns_sample_witness :
  (size_t_of_double (Factor * Qc_of_Z 4) < Num_Samples)%nat ∧
  Qc_of_Z (Z.of_nat (size_t_of_double (Factor * Qc_of_Z 4))) ≤ Factor * Qc_of_Z 4.
Proof.
  destruct (evaluate_returns_sample Fixtures.xs_vdw_radius Fixtures.xs_is_hydrophobic
              Fixtures.xs_hbond Fixtures.exp 0 0 sample_grid Fixtures.blank_table
              (replicate Num_Samples (Element 0 0)) (Qc_of_Z 4))
    as (_ & Hk & Hle & _).
  - by vm_compute.
  - by vm_compute.
  - reflexivity.
  - apply length_replicate.
  - apply sample_grid_length.
  - exact (conj Hk Hle).
Defined.

End ScoringFunctionProperties.

(** ** The receptor ingestor: parsing invariants, scans, partitions *)
Module ReceptorProperties.
Import ScoringFunction Receptor ReceptorProofs.
Local Open Scope Qc_scope.

(** The residue scans touch nothing but the two flags. *)
Lemma identity_for_down_alter `{AtomHeader} (g : atom → atom) (c : atom → bool) (brk : bool)
    i n (l : list atom) :
  (∀ b, identity (g b) = identity b) →
  identity <$> for_down i n
    (λ i (atoms : list atom),
       match atoms !! i with
       | Some b => if c b then (alter g i atoms, brk) else (atoms, false)
       | None => (atoms, false)
       end) l = identity <$> l.
Proof.
  intros Hg.
  apply (for_down_ind (λ l' : list atom, identity <$> l' = identity <$> l)); [done|].
  intros k t Ht. destruct (t !! k) as [b|] eqn:Hb; [|done].
  destruct (c b); [|done]. simpl.
  rewrite <- Ht. apply list_eq. intros j.
  rewrite !list_lookup_fmap, list_lookup_alter. case_decide as Hj; [|done].
  subst j. rewrite Hb. simpl. by rewrite Hg.
Qed.

Section Constructor.

Context `{AtomHeader}.

Lemma identity_store_atom t a rs (l : list atom) :
  identity <$> store_atom t a rs l = (identity <$> l) ++ [identity a].
Proof.
  unfold store_atom. case_bool_decide.
  - rewrite fmap_app. f_equal. unfold donorize_bonded.
    by apply (identity_for_down_alter donorize (λ b, is_hetero b && is_neighbor b a) true).
  - destruct (is_hetero a).
    + rewrite fmap_app. f_equal. unfold dehydrophobicize_bonded.
      by apply (identity_for_down_alter dehydrophobicize
                  (λ b, negb (is_hetero b) && is_neighbor b a) false).
    + rewrite fmap_app. f_equal. simpl. f_equal. unfold dehydrophobicize_carbon.
      apply (for_down_ind (λ a' : atom, identity a' = identity a)); [done|].
      intros k a' Ha'. destruct (l !! k) as [b|]; [|done].
      by destruct (is_hetero b && is_neighbor b a').
Qed.

Lemma length_store_atom t a rs (l : list atom) :
  length (store_atom t a rs l) = S (length l).
Proof.
  pose proof (f_equal length (identity_store_atom t a rs l)) as Hlen.
  rewrite length_app, !length_fmap in Hlen. simpl in Hlen. lia.
Qed.

(** What one line does to the parser, case by case. *)
Lemma parse_line_cases st line st' :
  parse_line st line = Ok st' →
  num_lines st' = S (num_lines st) ∧
  (residue_start st' = residue_start st ∨ residue_start st' = length (p_atoms st)) ∧
  (p_atoms st' = p_atoms st ∨
   ∃ t a, is_atom_record line ∧ ad_type_string line = Ok t ∧
          parse_ad_type_string t ≠ AD_TYPE_SIZE ∧ parse_ad_type_string t ≠ AD_TYPE_H ∧
          ad a = parse_ad_type_string t ∧
          p_atoms st' = store_atom (parse_ad_type_string t) a (residue_start st') (p_atoms st)).
Proof.
  unfold parse_line, ad_type_string, mbind, outcome_bind, is_atom_record.
  assert (Htrack : (track_residue st line).2 = residue_start st ∨
                   (track_residue st line).2 = length (p_atoms st)).
  { unfold track_residue. destruct (residue st) as [[[r0 r1] r2] r3].
    case_match; simpl; auto. }
  destruct (track_residue st line) as [res rs]. simpl in Htrack.
  intros Hline.
  repeat (first [case_bool_decide | case_match]; simplify_eq/=);
    (split; [done|]); (split; [by auto|]); auto;
    right; eexists _, _; split_and!; eauto using parse_atom_ad;
    try (by left); try (by right); by erewrite parse_atom_ad.
Qed.

Lemma parse_lines_appends lines st st' :
  parse_lines st lines = Ok st' →
  num_lines st' = (num_lines st + length lines)%nat ∧
  (length (p_atoms st') ≤ length (p_atoms st) + length lines)%nat ∧
  identity <$> p_atoms st `prefix_of` identity <$> p_atoms st'.
Proof.
  revert st. induction lines as [|line lines IH]; intros st; simpl.
  - intros [= ->]. split; [lia|]. split; [lia|]. done.
  - intros (st1 & Hline & Hrest)%bind_Ok.
    destruct (parse_line_cases _ _ _ Hline) as (Hn & _ & Hatoms).
    assert (Hstep : (length (p_atoms st1) ≤ S (length (p_atoms st)))%nat ∧
                    identity <$> p_atoms st `prefix_of` identity <$> p_atoms st1).
    { destruct Hatoms as [-> | (t & a & _ & _ & _ & _ & _ & ->)]; [by split; [lia|]|].
      rewrite length_store_atom, identity_store_atom. split; [lia|]. by apply prefix_app_r. }
    destruct Hstep as [Hlen Hpre].
    destruct (IH st1 Hrest) as (Hn' & Hlen' & Hpre').
    split; [lia|]. split; [lia|]. by etrans.
Qed.

(** X7. The parsing loop only appends.  From any state of the loop, reading
    further lines (each long enough for the characters read of it) without
    an exception leaves the atoms stored so far where they are, with their
    serial number, name, coordinate and type: later lines change nothing of
    an earlier atom but its two flags.  Each line adds at most one atom and
    advances the line counter by one. *)
Theorem parsing_only_appends (lines : list string) (st st' : parser) :
  Forall reads_inside lines →
  parse_lines st lines = Ok st' →
  identity <$> p_atoms st `prefix_of` identity <$> p_atoms st' ∧
  (length (p_atoms st') ≤ length (p_atoms st) + length lines)%nat ∧
  num_lines st' = (num_lines st + length lines)%nat.
Proof.
  intros _ Hst. destruct (parse_lines_appends lines st st' Hst) as (Hn & Hlen & Hpre).
  done.
Qed.

Lemma parse_lines_origin lines st st' :
  parse_lines st lines = Ok st' →
  ∀ t', t' ∈ ad <$> p_atoms st' →
    t' ∈ ad <$> p_atoms st ∨
    ∃ line t, line ∈ lines ∧ is_atom_record line ∧ ad_type_string line = Ok t ∧
              t' = parse_ad_type_string t ∧ t' ≠ AD_TYPE_SIZE ∧ t' ≠ AD_TYPE_H.
Proof.
  revert st. induction lines as [|line lines IH]; intros st; simpl.
  - intros [= ->] t' Ht'. by left.
  - intros (st1 & Hline & Hrest)%bind_Ok t' Ht'.
    destruct (IH st1 Hrest t' Ht') as [Hin | (l & t & Hl & ?)].
    + destruct (parse_line_cases _ _ _ Hline) as (_ & _ & Hatoms).
      destruct Hatoms as [Hsame | (t & a & Hrec & Ht & Hsize & Hh & Ha & Hst1)];
        [rewrite Hsame in Hin; by left|].
      rewrite Hst1, ad_store_atom in Hin.
      apply elem_of_app in Hin as [Hin | Hin%list_elem_of_singleton]; [by left|].
      right. exists line, t. rewrite Hin, Ha. split; [apply list_elem_of_here|]. done.
    + right. exists l, t. split; [by apply list_elem_of_further | done].
Qed.

(** X8. Every stored atom has a line behind it.  The type of each atom of
    a receptor is the type that [parse_ad_type_string] gives for the type
    columns of some ATOM or HETATM line of the file; it is never
    [AD_TYPE_SIZE] (unknown) and never [AD_TYPE_H] (non-polar hydrogen). *)
Theorem stored_atoms_come_from_lines (p : string) (lines : list string) (b : box)
    (rec : receptor) :
  Forall reads_inside lines →
  receptor_new p lines b = Ok rec →
  ∀ a, a ∈ atoms rec →
    ∃ line t, line ∈ lines ∧ is_atom_record line ∧ ad_type_string line = Ok t ∧
              ad a = parse_ad_type_string t ∧
              ad a ≠ AD_TYPE_SIZE ∧ ad a ≠ AD_TYPE_H.
Proof.
  unfold receptor_new. intros _ (st & Hst & [= <-])%bind_Ok a Ha. simpl in Ha.
  destruct (parse_lines_origin lines parser_init st Hst (ad a)) as [Hin | Hline].
  - by apply list_elem_of_fmap_2.
  - simpl in Hin. by apply elem_of_nil in Hin.
  - done.
Qed.

Lemma track_residue_new st line :
  residue_of line ≠ residue st →
  track_residue st line = (residue_of line, length (p_atoms st)).
Proof.
  unfold track_residue, residue_of. destruct (residue st) as [[[r0 r1] r2] r3].
  intros Hne. case_match eqn:Htest; [done|].
  repeat (apply orb_false_elim in Htest as [Htest ?]).
  repeat match goal with
         | Hb : bool_decide _ = false |- _ =>
             apply bool_decide_eq_false_1 in Hb; apply dec_stable in Hb
         end.
  exfalso. apply Hne. congruence.
Qed.

Lemma parse_atom_new line t a :
  parse_atom line t = Ok a → ∃ serial name coordinate, a = atom_new serial name coordinate t.
Proof.
  unfold parse_atom, mbind, outcome_bind, of_option.
  intros Ha. repeat (case_match; simplify_eq/=). by eexists _, _, _.
Qed.

Lemma store_atom_new_residue t a (l : list atom) : store_atom t a (length l) l = l ++ [a].
Proof.
  unfold store_atom, donorize_bonded, dehydrophobicize_bonded, dehydrophobicize_carbon.
  rewrite Nat.sub_diag. simpl. by repeat case_match; simplify_eq.
Qed.

(** X21. Bonds are looked for inside a residue only, and backwards.  An
    atom line whose residue tag differs from the current one starts a new
    residue at the end of [atoms]; if its atom is stored, it is appended as
    constructed from the line, with the flags of its type, and no earlier
    atom is touched. *)
Theorem first_atom_of_a_residue_is_stored_as_constructed (st st' : parser) (line : string) :
  reads_inside line →
  is_atom_record line →
  residue_of line ≠ residue st →
  parse_line st line = Ok st' →
  residue st' = residue_of line ∧
  residue_start st' = length (p_atoms st) ∧
  (p_atoms st' = p_atoms st ∨
   ∃ serial name coordinate t,
     p_atoms st' = p_atoms st ++ [atom_new serial name coordinate t]).
Proof.
  intros _ Hrec Hnew. unfold parse_line, mbind, outcome_bind.
  rewrite (atom_record_test _ Hrec), (track_residue_new _ _ Hnew).
  destruct (substr line 77 _) as [t|]; [|done].
  repeat case_bool_decide; try (intros [= <-]; by auto).
  destruct (parse_atom line (parse_ad_type_string t)) as [a|] eqn:Ha; [|done].
  intros [= <-]. cbn [residue residue_start p_atoms]. split; [done|]. split; [done|].
  right. rewrite store_atom_new_residue.
  apply parse_atom_new in Ha as (serial & name & coordinate & ->). by eexists _, _, _, _.
Qed.

(** *** The three residue scans *)

Lemma last_match (test : atom → bool) (rs : nat) (l : list atom) :
  (∃ j b, (rs ≤ j)%nat ∧ l !! j = Some b ∧ test b = true ∧
          ∀ k b', (j < k)%nat → l !! k = Some b' → test b' = false)
  ∨ (∀ k b', (rs ≤ k)%nat → l !! k = Some b' → test b' = false).
Proof.
  induction l as [|x l IH] using rev_ind.
  - right. intros k b' _ Hk. by rewrite lookup_nil in Hk.
  - destruct (decide (rs ≤ length l)%nat) as [Hrs|Hrs]; [destruct (test x) eqn:Hx|].
    + left. exists (length l), x. split; [done|]. split; [by apply list_lookup_middle|].
      split; [done|]. intros k b' Hk Hb'. apply lookup_lt_Some in Hb'.
      rewrite length_app in Hb'. simpl in Hb'. lia.
    + destruct IH as [(j & b & Hj & Hb & Htb & Hlater) | Hnone].
      * left. exists j, b. split; [done|]. split; [by apply lookup_app_l_Some|].
        split; [done|]. intros k b' Hk Hb'.
        apply lookup_app_Some in Hb' as [Hb' | [Hlen Hb']]; [by eapply Hlater|].
        by apply list_lookup_singleton_Some in Hb' as [_ <-].
      * right. intros k b' Hk Hb'.
        apply lookup_app_Some in Hb' as [Hb' | [Hlen Hb']]; [by eapply Hnone|].
        by apply list_lookup_singleton_Some in Hb' as [_ <-].
    + right. intros k b' Hk Hb'. apply lookup_lt_Some in Hb'.
      rewrite length_app in Hb'. simpl in Hb'. lia.
Qed.

(** X9. The scan for a polar hydrogen donorizes at most one atom: the last
    stored atom of the current residue that is a hetero atom and a neighbour
    of the hydrogen.  When the residue has no such atom, nothing changes. *)
Theorem polar_hydrogen_scan_marks_nearest (a : atom) (rs : nat) (l : list atom) :
  (∃ j b, (rs ≤ j)%nat ∧ l !! j = Some b ∧ is_hetero b && is_neighbor b a = true ∧
          (∀ k b', (j < k)%nat → l !! k = Some b' →
                   is_hetero b' && is_neighbor b' a = false) ∧
          donorize_bonded a rs l = alter donorize j l)
  ∨ ((∀ k b', (rs ≤ k)%nat → l !! k = Some b' → is_hetero b' && is_neighbor b' a = false) ∧
     donorize_bonded a rs l = l).
Proof.
  destruct (last_match (λ b, is_hetero b && is_neighbor b a) rs l)
    as [(j & b & Hj & Hb & Htb & Hlater) | Hnone].
  - left. exists j, b. split_and!; try done. by eapply donorize_bonded_nearest.
  - right. split; [done|]. by apply donorize_bonded_none.
Qed.

Lemma for_down_alter_all (g : atom → atom) (test : atom → bool) n i (t : list atom) k :
  (n ≤ i)%nat →
  for_down i n
    (λ i (atoms : list atom),
       match atoms !! i with
       | Some b => if test b then (alter g i atoms, false) else (atoms, false)
       | None => (atoms, false)
       end) t !! k
  = if bool_decide (i - n ≤ k < i)%nat
    then (λ b, if test b then g b else b) <$> t !! k else t !! k.
Proof.
  revert i t. induction n as [|n IH]; intros i t Hn; simpl.
  - by rewrite bool_decide_eq_false_2 by lia.
  - destruct (t !! (i - 1)%nat) as [b|] eqn:Hb; [destruct (test b) eqn:Htb|]; simpl.
    + rewrite IH by lia. rewrite list_lookup_alter.
      repeat case_bool_decide; try lia; case_decide; try lia; subst;
        rewrite ?Hb; simpl; rewrite ?Htb; try done.
      all: by destruct (t !! k) as [b'|]; simpl.
    + rewrite IH by lia.
      repeat case_bool_decide; try lia; try done.
      replace k with (i - 1)%nat by lia. rewrite Hb. simpl. by rewrite Htb.
    + rewrite IH by lia.
      repeat case_bool_decide; try lia; try done.
      replace k with (i - 1)%nat by lia. by rewrite Hb.
Qed.

(** X10. The scan for a hetero atom clears the hydrophobic flag of every
    atom of the current residue that is not a hetero atom and is its
    neighbour, and of no other atom: it is a map over the atoms from
    [residue_start] on, and the atoms before stay as they are. *)
Theorem hetero_scan_clears_every_bonded_carbon (a : atom) (rs : nat) (l : list atom) :
  dehydrophobicize_bonded a rs l =
  take rs l ++
  ((λ b, if negb (is_hetero b) && is_neighbor b a then dehydrophobicize b else b)
     <$> drop rs l).
Proof.
  apply list_eq. intros k. unfold dehydrophobicize_bonded.
  rewrite (for_down_alter_all dehydrophobicize (λ b, negb (is_hetero b) && is_neighbor b a))
    by lia.
  destruct (decide (k < rs)%nat) as [Hk|Hk].
  - rewrite bool_decide_eq_false_2 by lia.
    destruct (decide (k < length l)%nat) as [Hl|Hl].
    + rewrite lookup_app_l by (rewrite length_take; lia). by rewrite lookup_take_lt.
    + rewrite (lookup_ge_None_2 l) by lia. symmetry. apply lookup_ge_None_2.
      rewrite length_app, length_take, length_fmap, length_drop. lia.
  - destruct (decide (k < length l)%nat) as [Hl|Hl].
    + rewrite bool_decide_eq_true_2 by lia.
      rewrite lookup_app_r by (rewrite length_take; lia).
      rewrite list_lookup_fmap, lookup_drop, length_take.
      by replace (rs + (k - rs `min` length l))%nat with k by lia.
    + rewrite (lookup_ge_None_2 l) by lia.
      replace (if bool_decide (length l - (length l - rs) ≤ k < length l)%nat
               then _ else _) with (@None atom) by (by case_bool_decide).
      symmetry. apply lookup_ge_None_2.
      rewrite length_app, length_take, length_fmap, length_drop. lia.
Qed.

Lemma for_down_first_match (test : atom → bool) (a : atom) (l : list atom) n i :
  (n ≤ i)%nat → (i ≤ length l)%nat →
  for_down i n
    (λ i (a' : atom),
       match l !! i with
       | Some b => if is_hetero b && is_neighbor b a'
                   then (dehydrophobicize a', true) else (a', false)
       | None => (a', false)
       end) a
  = if existsb (λ b, is_hetero b && is_neighbor b a) (take n (drop (i - n) l))
    then dehydrophobicize a else a.
Proof.
  revert i. induction n as [|n IH]; intros i Hn Hi; simpl.
  - done.
  - destruct (lookup_lt_is_Some_2 l (i - 1)%nat) as [b Hb]; [lia|].
    assert (Htake : take (S n) (drop (i - S n) l) = take n (drop (i - 1 - n) l) ++ [b]).
    { replace (i - S n)%nat with (i - 1 - n)%nat by lia.
      rewrite (take_S_r _ _ b); [done|].
      rewrite lookup_drop. by replace (i - 1 - n + n)%nat with (i - 1)%nat by lia. }
    rewrite Htake, existsb_app. simpl. rewrite Hb.
    destruct (is_hetero b && is_neighbor b a) eqn:Htb; simpl.
    + by rewrite orb_true_r.
    + rewrite orb_false_r. apply IH; lia.
Qed.

(** X11. The scan for a carbon clears the hydrophobic flag of the new atom
    exactly when some atom of the current residue is a hetero atom and its
    neighbour; the stored atoms are only read. *)
Theorem carbon_scan_finds_any_bonded_hetero (a : atom) (rs : nat) (l : list atom) :
  dehydrophobicize_carbon a rs l =
  if existsb (λ b, is_hetero b && is_neighbor b a) (drop rs l)
  then dehydrophobicize a else a.
Proof.
  unfold dehydrophobicize_carbon.
  rewrite (for_down_first_match (λ b, is_hetero b && is_neighbor b a)) by lia.
  destruct (decide (rs ≤ length l)%nat) as [Hrs|Hrs].
  - replace (length l - (length l - rs))%nat with rs by lia.
    by rewrite take_ge by (rewrite length_drop; lia).
  - replace (length l - rs)%nat with 0%nat by lia.
    by rewrite take_0, drop_ge by lia.
Qed.

(** *** The partitions *)

Lemma for_loop_filter (p : nat → bool) (body : nat → list nat → list nat) i n acc :
  (∀ k acc, body k acc = if p k then acc ++ [k] else acc) →
  for_loop i n body acc = acc ++ filter (λ k, p k) (seq i n).
Proof.
  intros Hbody. revert i acc. induction n as [|n IH]; intros i acc; simpl.
  - by rewrite app_nil_r.
  - rewrite IH, Hbody, filter_cons. destruct (p i); simpl; [by rewrite <- app_assoc | done].
Qed.

Lemma for_loop_filter_list (q : nat → bool) (w : list nat)
    (body : nat → list nat → list nat) acc :
  (∀ l acc, body l acc = match w !! l with
                         | Some i => if q i then acc ++ [i] else acc
                         | None => acc
                         end) →
  for_loop 0 (length w) body acc = acc ++ filter (λ i, q i) w.
Proof.
  intros Hbody.
  assert (Hgen : ∀ w2 w1 acc, w = w1 ++ w2 →
            for_loop (length w1) (length w2) body acc = acc ++ filter (λ i, q i) w2).
  { induction w2 as [|i w2 IH]; intros w1 acc' Hw; simpl.
    - by rewrite app_nil_r.
    - rewrite Hbody, Hw, list_lookup_middle by done.
      replace (S (length w1)) with (length (w1 ++ [i])) by (rewrite length_app; simpl; lia).
      rewrite IH by (by rewrite <- app_assoc).
      rewrite filter_cons. destruct (q i); simpl; [by rewrite <- app_assoc | done]. }
  apply (Hgen w [] acc). done.
Qed.

Lemma for_loop_collect {B : Type} (f : nat → list B) (body : nat → list B → list B) i n acc :
  (∀ k acc, body k acc = acc ++ f k) →
  for_loop i n body acc = acc ++ (seq i n ≫= f).
Proof.
  intros Hbody. revert i acc. induction n as [|n IH]; intros i acc; simpl.
  - by rewrite app_nil_r.
  - by rewrite IH, Hbody, <- app_assoc.
Qed.

Lemma fmap_bind_seq {A B : Type} (f : A → B) (g : nat → list A) (h : nat → list B) i n :
  (∀ k, f <$> g k = h k) → f <$> (seq i n ≫= g) = seq i n ≫= h.
Proof.
  intros Hk. revert i. induction n as [|n IH]; intros i; [done|].
  cbn [seq]. by rewrite !bind_cons, fmap_app, IH, Hk.
Qed.

Lemma within_filter b atoms :
  receptor_atoms_within_cutoff b atoms
  = filter (λ i, within_test b atoms i) (seq 0 (length atoms)).
Proof.
  unfold receptor_atoms_within_cutoff.
  rewrite (for_loop_filter (within_test b atoms)); [done|].
  intros k acc. unfold within_test. by destruct (atoms !! k).
Qed.

Lemma partition_filter b atoms within x y z :
  partition b atoms within x y z = filter (λ i, cell_test b atoms x y z i) within.
Proof.
  unfold partition.
  rewrite (for_loop_filter_list (cell_test b atoms x y z)); [done|].
  intros l acc. unfold cell_test. destruct (within !! l) as [i|]; [|done].
  by destruct (atoms !! i).
Qed.

Lemma allocate_partitions_cells b atoms :
  allocate_partitions b atoms =
  x ← seq 0 (num_partitions b).1.1;
  y ← seq 0 (num_partitions b).1.2;
  z ← seq 0 (num_partitions b).2;
  [(x, y, z, partition b atoms (receptor_atoms_within_cutoff b atoms) x y z)].
Proof.
  unfold allocate_partitions. destruct (num_partitions b) as [[nx ny] nz]. simpl.
  rewrite (for_loop_collect
             (λ x, y ← seq 0 ny; z ← seq 0 nz;
                   [(x, y, z, partition b atoms (receptor_atoms_within_cutoff b atoms) x y z)]));
    [done|].
  intros x acc.
  rewrite (for_loop_collect
             (λ y, z ← seq 0 nz;
                   [(x, y, z, partition b atoms (receptor_atoms_within_cutoff b atoms) x y z)]));
    [done|].
  intros y acc'.
  by rewrite (for_loop_collect
             (λ z, [(x, y, z, partition b atoms (receptor_atoms_within_cutoff b atoms) x y z)])).
Qed.

(** X12. The partitions are filled cell by cell, each cell of the box
    once, in the order of the three nested loops ([x] outermost, [z]
    innermost): there are as many lists as cells. *)
Theorem partitions_enumerate_cells (b : box) (atoms : list atom) :
  (λ c : nat * nat * nat * list nat, c.1) <$> allocate_partitions b atoms =
  x ← seq 0 (num_partitions b).1.1;
  y ← seq 0 (num_partitions b).1.2;
  z ← seq 0 (num_partitions b).2;
  [(x, y, z)].
Proof.
  rewrite allocate_partitions_cells.
  apply fmap_bind_seq. intros x. apply fmap_bind_seq. intros y. apply fmap_bind_seq. done.
Qed.

(** X13. What a partition holds.  The list of the cell [(x, y, z)] holds
    the index [i] exactly when atom [i] exists, is closer than the cutoff to
    the box, and is closer than the cutoff to the cell; the indices are in
    ascending order without repetition. *)
Theorem partition_holds_the_atoms_in_reach (b : box) (atoms : list atom)
    (x y z : nat) (par : list nat) :
  (x, y, z, par) ∈ allocate_partitions b atoms →
  par `sublist_of` seq 0 (length atoms) ∧
  ∀ i, i ∈ par ↔
    ∃ a, atoms !! i = Some a ∧
         project_distance_sqr b (coordinate a) < Cutoff_Sqr ∧
         project_distance_sqr_cell b (partition_corner1 b (x, y, z))
           (partition_corner1 b (x + 1, y + 1, z + 1)%nat) (coordinate a) < Cutoff_Sqr.
Proof.
  rewrite allocate_partitions_cells.
  intros (x' & Hc & _)%list_elem_of_bind.
  apply list_elem_of_bind in Hc as (y' & Hc & _).
  apply list_elem_of_bind in Hc as (z' & Hc & _).
  apply list_elem_of_singleton in Hc. simplify_eq.
  rewrite partition_filter, within_filter. split.
  - etrans; apply sublist_filter.
  - intros i. rewrite !list_elem_of_filter, elem_of_seq.
    unfold cell_test, within_test. split.
    + intros (Hcell & Hwithin & _). destruct (atoms !! i) as [a|]; [|done].
      exists a. split; [done|]. split; by eapply bool_decide_unpack.
    + intros (a & Ha & Hbox & Hcell). rewrite Ha.
      split; [by apply bool_decide_pack|]. split; [by apply bool_decide_pack|].
      apply lookup_lt_Some in Ha. lia.
Qed.

End Constructor.

#[local] Existing Instance Fixtures.atom_header.

Ltac solve_reads_inside :=
  repeat first [apply Forall_nil_2 | apply Forall_cons_2];
  intros Hrec;
  first [vm_compute; lia | destruct Hrec as [Hrec|Hrec]; vm_compute in Hrec; discriminate].

Lemma parsing_only_appends_witness :
  ∃ st',
    parse_lines parser_init [Fixtures.line_N; Fixtures.line_remark; Fixtures.line_CA] = Ok st' ∧
    identity <$> p_atoms parser_init `prefix_of` identity <$> p_atoms st' ∧
    (length (p_atoms st') ≤ length (p_atoms parser_init) + 3)%nat ∧
    num_lines st' = (num_lines parser_init + 3)%nat.
Proof.
  eexists. split; [vm_compute; reflexivity|].
  apply (parsing_only_appends [Fixtures.line_N; Fixtures.line_remark; Fixtures.line_CA]
           parser_init).
  - solve_reads_inside.
  - vm_compute. reflexivity.
Defined.

Lemma first_atom_of_a_residue_is_stored_as_constructed_witness :
  ∃ st', parse_line parser_init Fixtures.line_N = Ok st' ∧
    residue st' = residue_of Fixtures.line_N ∧
    residue_start st' = length (p_atoms parser_init) ∧
    (p_atoms st' = p_atoms parser_init ∨
     ∃ serial name coordinate t,
       p_atoms st' = p_atoms parser_init ++ [atom_new serial name coordinate t]).
Proof.
  eexists. split; [vm_compute; reflexivity|].
  apply (first_atom_of_a_residue_is_stored_as_constructed parser_init _ Fixtures.line_N).
  - intros _. vm_compute. lia.
  - left. reflexivity.
  - intros Heq. vm_compute in Heq. discriminate Heq.
  - vm_compute. reflexivity.
Defined.

Lemma stored_atoms_come_from_lines_witness :
  ∃ rec,
    receptor_new "receptor.pdbqt"
      [Fixtures.line_N; Fixtures.line_HA; Fixtures.line_CA] Fixtures.unit_box = Ok rec ∧
    ∀ a, a ∈ atoms rec →
      ∃ line t, line ∈ [Fixtures.line_N; Fixtures.line_HA; Fixtures.line_CA] ∧
                is_atom_record line ∧ ad_type_string line = Ok t ∧
                ad a = parse_ad_type_string t ∧
                ad a ≠ AD_TYPE_SIZE ∧ ad a ≠ AD_TYPE_H.
Proof.
  eexists. split; [vm_compute; reflexivity|].
  apply (stored_atoms_come_from_lines "receptor.pdbqt"
           [Fixtures.line_N; Fixtures.line_HA; Fixtures.line_CA] Fixtures.unit_box).
  - solve_reads_inside.
  - vm_compute. reflexivity.
Defined.

Lemma partition_holds_the_atoms_in_reach_witness :
  [0%nat] `sublist_of` seq 0 1 ∧
  ∀ i, i ∈ [0%nat] ↔
    ∃ a, [atom_new 1 " N  " (Vec3 0 0 0) 4] !! i = Some a ∧
         project_distance_sqr Fixtures.unit_box (coordinate a) < Cutoff_Sqr ∧
         project_distance_sqr_cell Fixtures.unit_box
           (partition_corner1 Fixtures.unit_box (0, 0, 0)%nat)
           (partition_corner1 Fixtures.unit_box (0 + 1, 0 + 1, 0 + 1)%nat) (coordinate a)
         < Cutoff_Sqr.
Proof.
  apply (partition_holds_the_atoms_in_reach Fixtures.unit_box
           [atom_new 1 " N  " (Vec3 0 0 0) 4] 0 0 0 [0%nat]).
  vm_compute. constructor.
Defined.

End ReceptorProperties.

(** ** The Monte Carlo task: the random stream and the retained variables *)
Module MonteCarloProperties.
Import Result MonteCarlo MonteCarloProofs.
Local Open Scope Qc_scope.

(** *** Counted loops and sums *)

Lemma for_loop_snoc {St : Type} (body : nat → St → St) i n (s : St) :
  for_loop i (S n) body s = body (i + n)%nat (for_loop i n body s).
Proof.
  revert i s. induction n as [|n IH]; intros i s.
  - simpl. by rewrite Nat.add_0_r.
  - change (for_loop i (S (S n)) body s) with (for_loop (S i) (S n) body (body i s)).
    rewrite IH. simpl. by replace (S (i + n)) with (i + S n)%nat by lia.
Qed.

Lemma sum_to_S n f : sum_to (S n) f = sum_to n f + f n.
Proof. unfold sum_to. by rewrite for_loop_snoc. Qed.

Lemma sum_to_ext n f g : (∀ j, (j < n)%nat → f j = g j) → sum_to n f = sum_to n g.
Proof.
  induction n as [|n IH]; intros Hfg; [done|].
  rewrite !sum_to_S, IH, Hfg by (intros; try apply Hfg; lia). done.
Qed.

Lemma sum_to_plus n f g : sum_to n (λ j, f j + g j) = sum_to n f + sum_to n g.
Proof. induction n as [|n IH]; [done|]. rewrite !sum_to_S, IH. ring. Qed.

Lemma sum_to_scale n c f : sum_to n (λ j, c * f j) = c * sum_to n f.
Proof.
  induction n as [|n IH]; [unfold sum_to; simpl; ring|]. rewrite !sum_to_S, IH. ring.
Qed.

Lemma sum_to_delta n i (g : nat → fl) :
  sum_to n (λ j, (if bool_decide (i = j) then 1 else 0) * g j)
  = if bool_decide (i < n)%nat then g i else 0.
Proof.
  induction n as [|n IH]; [done|]. rewrite sum_to_S, IH.
  repeat case_bool_decide; try lia; subst; ring.
Qed.

Lemma Qc_square_nonneg (x : fl) : 0 ≤ x * x.
Proof.
  destruct (Qclt_le_dec x 0) as [Hneg|Hpos].
  - replace (x * x) with ((- x) * (- x)) by ring.
    assert (0 ≤ - x) by (apply Qclt_le_weak in Hneg; by apply Qcopp_le_compat in Hneg).
    by apply Qcmult_nonneg_nonneg.
  - by apply Qcmult_nonneg_nonneg.
Qed.

Lemma sum_to_nonneg n f : (∀ j, (j < n)%nat → 0 ≤ f j) → 0 ≤ sum_to n f.
Proof.
  induction n as [|n IH]; intros Hf; [done|]. rewrite sum_to_S.
  replace 0 with (0 + 0) by ring. apply Qcplus_le_compat; [apply IH; intros; apply Hf|apply Hf]; lia.
Qed.

(** *** The packed triangular matrix *)

Lemma triangle_S j : (S j * (S j + 1) / 2 = j * (j + 1) / 2 + S j)%nat.
Proof.
  replace (S j * (S j + 1))%nat with (j * (j + 1) + S j * 2)%nat by lia.
  by rewrite Nat.div_add.
Qed.

Lemma triangle_lt j k : (j < k)%nat → (j + j * (j + 1) / 2 < k * (k + 1) / 2)%nat.
Proof.
  induction k as [|k IH]; [lia|]. intros Hjk. rewrite triangle_S.
  destruct (decide (j = k)) as [->|Hne]; [lia|]. specialize (IH ltac:(lia)). lia.
Qed.

Lemma restrictive_index_lt i j n :
  (i ≤ j)%nat → (j < n)%nat → (triangular_matrix_restrictive_index i j < n * (n + 1) / 2)%nat.
Proof.
  intros Hij Hjn. unfold triangular_matrix_restrictive_index.
  pose proof (triangle_lt j n Hjn). lia.
Qed.

Lemma restrictive_index_inj i j i' j' :
  (i ≤ j)%nat → (i' ≤ j')%nat →
  triangular_matrix_restrictive_index i j = triangular_matrix_restrictive_index i' j' →
  i = i' ∧ j = j'.
Proof.
  unfold triangular_matrix_restrictive_index. intros Hij Hij' Heq.
  destruct (Nat.lt_trichotomy j j') as [Hlt | [-> | Hgt]].
  - pose proof (triangle_lt j j' Hlt). lia.
  - lia.
  - pose proof (triangle_lt j' j Hgt). lia.
Qed.

Lemma identity_hessian_lookup n i j :
  (i < n)%nat → (j < n)%nat →
  identity_hessian n !!! triangular_matrix_permissive_index i j
  = if bool_decide (i = j) then 1 else 0.
Proof.
  assert (Hgen : ∀ a b, (a ≤ b)%nat → (b < n)%nat →
            identity_hessian n !!! triangular_matrix_restrictive_index a b
            = if bool_decide (a = b) then 1 else 0).
  { unfold identity_hessian.
    pose proof (for_loop_ind
      (λ k (h : list fl),
         length h = (n * (n + 1) / 2)%nat ∧
         ∀ a b, (a ≤ b)%nat → (b < n)%nat →
                h !!! triangular_matrix_restrictive_index a b
                = if bool_decide (a = b ∧ a < k)%nat then 1 else 0)
      (λ i h, <[triangular_matrix_restrictive_index i i := 1]> h) 0 n
      (replicate (n * (n + 1) / 2) 0)) as Hloop.
    destruct Hloop as [_ Hloop].
    - split; [apply length_replicate|]. intros a b Hab Hb.
      rewrite lookup_total_replicate_2 by (by apply restrictive_index_lt).
      by rewrite bool_decide_eq_false_2 by lia.
    - intros k h Hk [Hlen Hh]. rewrite length_insert. split; [done|].
      intros a b Hab Hb.
      destruct (decide (triangular_matrix_restrictive_index a b
                        = triangular_matrix_restrictive_index k k)) as [Heq|Hne].
      + apply restrictive_index_inj in Heq as [-> ->]; [|done|done].
        rewrite list_lookup_total_insert_eq
          by (rewrite Hlen; apply restrictive_index_lt; lia).
        by rewrite bool_decide_eq_true_2 by lia.
      + rewrite list_lookup_total_insert_ne by done. rewrite Hh by done.
        repeat case_bool_decide; try done; try lia.
        destruct_and!. subst. assert (b = k) as -> by lia. done.
    - intros a b Hab Hb. rewrite Hloop by done.
      repeat case_bool_decide; try done; lia. }
  intros Hi Hj. unfold triangular_matrix_permissive_index. case_bool_decide.
  - by apply Hgen.
  - rewrite Hgen by lia. repeat case_bool_decide; try done; lia.
Qed.

Lemma fill_lookup n (f : nat → fl) (out : list fl) :
  (n ≤ length out)%nat →
  ∀ i, (i < n)%nat → for_loop 0 n (λ i o, <[i := f i]> o) out !!! i = f i.
Proof.
  intros Hlen.
  pose proof (for_loop_ind
    (λ k (o : list fl), length o = length out ∧ ∀ i, (i < k)%nat → o !!! i = f i)
    (λ i o, <[i := f i]> o) 0 n out) as Hloop.
  apply Hloop.
  - split; [done | intros; lia].
  - intros k o Hk [Ho Hdone]. rewrite length_insert. split; [done|].
    intros i Hi. destruct (decide (i = k)) as [->|Hne].
    + by rewrite list_lookup_total_insert_eq by lia.
    + rewrite list_lookup_total_insert_ne by done. apply Hdone. lia.
Qed.

Lemma minus_sum n (f : nat → fl) :
  for_loop 0 n (λ i acc, acc - f i) 0 = - sum_to n f.
Proof.
  induction n as [|n IH]; [done|]. rewrite sum_to_S, for_loop_snoc, IH. simpl. ring.
Qed.

(** The update loop over the packed upper triangle changes each cell once,
    from its old value. *)
Lemma packed_update n (delta : nat → nat → fl) (h0 : list fl) :
  (n * (n + 1) / 2 ≤ length h0)%nat →
  ∀ a b, (a ≤ b)%nat → (b < n)%nat →
    for_loop 0 n (λ i h,
      for_loop i (n - i) (λ j h,
        <[triangular_matrix_restrictive_index i j :=
            h !!! triangular_matrix_restrictive_index i j + delta i j]> h) h) h0
    !!! triangular_matrix_restrictive_index a b
    = h0 !!! triangular_matrix_restrictive_index a b + delta a b.
Proof.
  intros Hlen.
  pose (new a b := h0 !!! triangular_matrix_restrictive_index a b + delta a b).
  pose (old a b := h0 !!! triangular_matrix_restrictive_index a b).
  pose proof (for_loop_ind
    (λ k (h : list fl),
       length h = length h0 ∧
       ∀ a b, (a ≤ b)%nat → (b < n)%nat →
              h !!! triangular_matrix_restrictive_index a b
              = if bool_decide (a < k)%nat then new a b else old a b)
    (λ i h,
      for_loop i (n - i) (λ j h,
        <[triangular_matrix_restrictive_index i j :=
            h !!! triangular_matrix_restrictive_index i j + delta i j]> h) h) 0 n h0)
    as Hloop.
  destruct Hloop as [_ Hloop].
  - split; [done|]. intros a b _ _. by rewrite bool_decide_eq_false_2 by lia.
  - intros i h [_ Hi] [Hh Hdone]. simpl in Hi.
    pose proof (for_loop_ind
      (λ j (h' : list fl),
         length h' = length h0 ∧
         ∀ a b, (a ≤ b)%nat → (b < n)%nat →
                h' !!! triangular_matrix_restrictive_index a b
                = if bool_decide (a < i ∨ (a = i ∧ b < j))%nat then new a b else old a b)
      (λ j h,
        <[triangular_matrix_restrictive_index i j :=
            h !!! triangular_matrix_restrictive_index i j + delta i j]> h) i (n - i) h)
      as Hinner.
    replace (i + (n - i))%nat with n in Hinner by lia.
    destruct Hinner as [Hlen' Hinner].
    + split; [done|]. intros a b Hab Hb. rewrite Hdone by done.
      repeat case_bool_decide; try done; lia.
    + intros j h' Hj [Hh' Hcells]. rewrite length_insert. split; [done|].
      intros a b Hab Hb.
      destruct (decide (triangular_matrix_restrictive_index a b
                        = triangular_matrix_restrictive_index i j)) as [Heq|Hne].
      * apply restrictive_index_inj in Heq as [-> ->]; [|done|lia].
        rewrite list_lookup_total_insert_eq.
        -- rewrite Hcells by lia. rewrite bool_decide_eq_false_2 by lia.
           by rewrite bool_decide_eq_true_2 by lia.
        -- rewrite Hh'. pose proof (restrictive_index_lt i j n). lia.
      * rewrite list_lookup_total_insert_ne by done. rewrite Hcells by done.
        repeat case_bool_decide; try done; try lia.
        destruct (decide (a = i)) as [->|]; [|lia].
        destruct (decide (b = j)) as [->|]; [done|lia].
    + split; [done|]. intros a b Hab Hb. rewrite Hinner by done.
      repeat case_bool_decide; try done; lia.
  - intros a b Hab Hb. rewrite Hloop by done. by rewrite bool_decide_eq_true_2 by lia.
Qed.

Lemma minus_h_times_lookup n (hm v out : list fl) :
  (n ≤ length out)%nat →
  length (minus_h_times n hm v out) = length out ∧
  ∀ i, (i < n)%nat → minus_h_times n hm v out !!! i = - times n hm v i.
Proof.
  intros Hlen. unfold minus_h_times.
  pose proof (for_loop_ind
    (λ k (o : list fl),
       length o = length out ∧ ∀ i, (i < k)%nat → o !!! i = - times n hm v i)
    (λ i out,
       let sum := for_loop 0 n
                    (λ j sum, sum + hm !!! triangular_matrix_permissive_index i j * v !!! j) 0 in
       <[i := - sum]> out) 0 n out) as Hloop.
  apply Hloop.
  - split; [done | intros; lia].
  - intros k o Hk [Ho Hdone]. cbv zeta. rewrite length_insert. split; [done|].
    intros i Hi. destruct (decide (i = k)) as [->|Hne].
    + by rewrite list_lookup_total_insert_eq by lia.
    + rewrite list_lookup_total_insert_ne by done. apply Hdone. lia.
Qed.

Section Task.

Context `{Library}.
Variable lig : ligand.
Variable sf : ScoringFunction.scoring_function.
Variable rec : receptor.

Abbreviation T := (num_active_torsions lig).
Abbreviation mc_start := (mc_start lig sf rec).
Abbreviation mc_mutate := (mc_mutate lig sf rec).
Abbreviation mc_accept := (mc_accept lig).
Abbreviation mc_iteration := (mc_iteration lig sf rec).
Abbreviation mc_iterations := (mc_iterations lig sf rec).
Abbreviation monte_carlo_task := (monte_carlo_task lig sf rec).
Abbreviation bfgs := (bfgs lig sf rec).
Abbreviation trial := (trial lig sf rec).
Abbreviation attempt := (attempt lig sf rec).
Abbreviation accepted := (accepted lig sf rec).

Lemma after_draws_S n (e : mt19937_64) :
  after_draws (S n) e = (uniform_11 (after_draws n e)).2.
Proof. done. Qed.

Lemma after_draws_add a b (e : mt19937_64) :
  after_draws (a + b) e = after_draws b (after_draws a e).
Proof. unfold after_draws. rewrite Nat.add_comm. apply Nat.iter_add. Qed.

Lemma mc_start_draws (seed : nat) :
  eng (mc_start seed) = after_draws (5 + T) (seed_engine seed) ∧
  length (torsions (c0 (mc_start seed))) = T.
Proof.
  unfold MonteCarlo.mc_start.
  destruct (uniform_11 (seed_engine seed)) as [u e1] eqn:H1.
  destruct (uniform_11 e1) as [qa e2] eqn:H2.
  destruct (uniform_11 e2) as [qb e3] eqn:H3.
  destruct (uniform_11 e3) as [qc e4] eqn:H4.
  destruct (uniform_11 e4) as [qd e5] eqn:H5.
  assert (He5 : e5 = after_draws 5 (seed_engine seed)).
  { unfold after_draws. simpl.
    rewrite H1; simpl; rewrite H2; simpl; rewrite H3; simpl; rewrite H4; simpl.
    by rewrite H5. }
  match goal with |- context [for_loop 0 T ?body ?init] =>
    pose proof (for_loop_ind
      (λ k (s : list fl * mt19937_64),
         s.2 = after_draws (5 + k) (seed_engine seed) ∧ length s.1 = T)
      body 0 T init) as Hloop;
    destruct (for_loop 0 T body init) as [ts e6]
  end.
  cbn [fst snd] in Hloop. cbv beta iota zeta. cbn [eng c0 torsions]. apply Hloop.
  - rewrite Nat.add_0_r. split; [done | apply length_replicate].
  - intros k [ts' e'] Hk [He' Hlen]. cbn [fst snd] in *.
    destruct (uniform_11 e') as [v e''] eqn:Hv. cbn [fst snd].
    replace (5 + S k)%nat with (S (5 + k)) by lia.
    rewrite after_draws_S, <- He', Hv. by rewrite length_insert.
Qed.

(** X14. The random start consumes [5 + num_active_torsions] draws: one
    for the position, four for the orientation, and one for each torsion, in
    the order of the torsions; torsion [i] of the start is draw [5 + i]. *)
Theorem random_start_torsions_are_draws (seed : nat) :
  eng (mc_start seed) = after_draws (5 + T) (seed_engine seed) ∧
  length (torsions (c0 (mc_start seed))) = T ∧
  ∀ i, (i < T)%nat → torsions (c0 (mc_start seed)) !!! i = draw (5 + i) (seed_engine seed).
Proof.
  unfold MonteCarlo.mc_start.
  destruct (uniform_11 (seed_engine seed)) as [u e1] eqn:H1.
  destruct (uniform_11 e1) as [qa e2] eqn:H2.
  destruct (uniform_11 e2) as [qb e3] eqn:H3.
  destruct (uniform_11 e3) as [qc e4] eqn:H4.
  destruct (uniform_11 e4) as [qd e5] eqn:H5.
  assert (He5 : e5 = after_draws 5 (seed_engine seed)).
  { unfold after_draws. simpl.
    rewrite H1; simpl; rewrite H2; simpl; rewrite H3; simpl; rewrite H4; simpl.
    by rewrite H5. }
  match goal with |- context [for_loop 0 T ?body ?init] =>
    pose proof (for_loop_ind
      (λ k (s : list fl * mt19937_64),
         s.2 = after_draws (5 + k) (seed_engine seed) ∧
         length s.1 = T ∧
         ∀ i, (i < k)%nat → s.1 !!! i = draw (5 + i) (seed_engine seed))
      body 0 T init) as Hloop;
    destruct (for_loop 0 T body init) as [ts e6]
  end.
  cbn [fst snd] in Hloop. cbv beta iota zeta. cbn [eng c0 torsions]. apply Hloop.
  - rewrite Nat.add_0_r. split; [done|]. split; [apply length_replicate|]. intros; lia.
  - intros k [ts' e'] Hk (He' & Hlen & Hdone). cbn [fst snd] in *.
    destruct (uniform_11 e') as [v e''] eqn:Hv. cbn [fst snd].
    split; [|split].
    + replace (5 + S k)%nat with (S (5 + k)) by lia.
      by rewrite after_draws_S, <- He', Hv.
    + by rewrite length_insert.
    + intros i Hi. destruct (decide (i = k)) as [->|Hne].
      * rewrite list_lookup_total_insert_eq by lia. unfold draw. by rewrite <- He', Hv.
      * rewrite list_lookup_total_insert_ne by done. apply Hdone. lia.
Qed.

Lemma eng_mc_mutate (t : task) : eng (mc_mutate t) = after_draws 3 (eng t).
Proof.
  unfold MonteCarlo.mc_mutate, mutate, after_draws. simpl.
  destruct (uniform_11 (eng t)) as [ux e1]. simpl.
  destruct (uniform_11 e1) as [uy e2]. simpl.
  by destruct (uniform_11 e2) as [uz e3].
Qed.

Lemma eng_mc_accept (t : task) (b : bfgs_vars) : eng (mc_accept t b) = eng t.
Proof. unfold MonteCarlo.mc_accept. by case_bool_decide. Qed.

Lemma eng_mc_iterations n fuel (t t' : task) :
  mc_iterations n fuel t = Some t' → eng t' = after_draws (n * 3) (eng t).
Proof.
  revert t. induction n as [|n IH]; intros t.
  - simpl. by intros [= ->].
  - cbn -[after_draws Nat.mul].
    destruct (mc_iteration fuel t) as [t1|] eqn:H1; [|done].
    cbn -[after_draws Nat.mul]. intros Hrest.
    apply mc_iteration_Some in H1 as (b & _ & ->).
    rewrite (IH _ Hrest), eng_mc_accept, eng_mc_mutate.
    replace (S n * 3)%nat with (3 + n * 3)%nat by lia.
    by rewrite after_draws_add.
Qed.

(** X15. The random stream of a task is fixed by the seed and the number
    of torsions: when the task returns, the engine has given exactly
    [5 + num_active_torsions] draws for the start and three for each of the
    [num_mc_iterations] mutations, whatever the evaluations returned and
    however many passes the BFGS loops made. *)
Theorem random_stream_is_fixed (fuel seed : nat) (t : task) :
  monte_carlo_task fuel seed = Some t →
  eng t = after_draws (5 + T + 3 * num_mc_iterations) (seed_engine seed).
Proof.
  unfold MonteCarlo.monte_carlo_task. intros Ht.
  rewrite (eng_mc_iterations _ _ _ _ Ht), (proj1 (mc_start_draws seed)).
  replace (3 * num_mc_iterations)%nat with (num_mc_iterations * 3)%nat by lia.
  symmetry. apply after_draws_add.
Qed.

(** *** What the loops keep *)

Lemma mc_iterations_rule (P : task → Prop) fuel :
  (∀ t b, P t → bfgs fuel (vars (mc_mutate t)) = Some b → P (mc_accept (mc_mutate t) b)) →
  ∀ n t t', P t → mc_iterations n fuel t = Some t' → P t'.
Proof.
  intros Hstep. induction n as [|n IH]; intros t t' Ht; simpl.
  - by intros [= <-].
  - destruct (mc_iteration fuel t) as [t1|] eqn:H1; [|done]. simpl.
    apply mc_iteration_Some in H1 as (b & Hb & ->).
    apply IH. by apply Hstep.
Qed.

Lemma bfgs_rule (P : bfgs_vars → Prop) :
  (∀ b, P b →
     let p := minus_h_times (num_variables lig) (h b) (out_g (v1 b)) (MonteCarlo.p b) in
     let pg1 := dot (num_variables lig) p (out_g (v1 b)) in
     let s0 := Search 1 (c2 b) (v2 b) (pg2 b) in
     let none := attempt (c1 b) (out_e (v1 b)) p pg1 s0 num_alphas in
     (∀ hh yy mm, P (Bfgs (c1 b) (v1 b) (s_c2 none) (s_v2 none) p (s_pg2 none) hh yy mm)) ∧
     (∀ k hh yy mm, (k < num_alphas)%nat →
        let s := (trial (c1 b) (out_e (v1 b)) p pg1 k
                    (attempt (c1 b) (out_e (v1 b)) p pg1 s0 k)).1 in
        P (Bfgs (s_c2 s) (s_v2 s) (s_c2 s) (s_v2 s) p (s_pg2 s) hh yy mm))) →
  ∀ fuel b b', P b → bfgs fuel b = Some b' → P b'.
Proof.
  intros Hstep. induction fuel as [|fuel IH]; intros b b' Hb; [done|].
  rewrite bfgs_S. cbv zeta.
  specialize (Hstep b Hb). cbv zeta in Hstep. destruct Hstep as [Hnone Hsome].
  unfold line_search.
  set (dir := minus_h_times (num_variables lig) (h b) (out_g (v1 b)) (MonteCarlo.p b)) in *.
  set (slope := dot (num_variables lig) dir (out_g (v1 b))) in *.
  set (s0 := Search 1 (c2 b) (v2 b) (pg2 b)) in *.
  pose proof (for_break_trial lig sf rec (c1 b) (out_e (v1 b)) dir slope s0 num_alphas 0)
    as Hrun.
  change (MonteCarlo.attempt lig sf rec (c1 b) (out_e (v1 b)) dir slope s0 0) with s0 in Hrun.
  cbv zeta in Hrun.
  set (run := for_break 0 num_alphas
                (MonteCarlo.trial lig sf rec (c1 b) (out_e (v1 b)) dir slope) s0) in *.
  clearbody run. clearbody slope. clearbody dir. clearbody s0.
  destruct Hrun as (Hrange & _ & Hacc & Hexit).
  case_bool_decide as Hn.
  - intros [= <-]. rewrite (Hexit Hn). apply Hnone.
  - intros Hrest. refine (IH _ _ _ Hrest).
    destruct Hacc as [_ ->]; [lia|]. apply Hsome. lia.
Qed.

Lemma length_torsions_bfgs fuel (b b' : bfgs_vars) :
  length (torsions (c1 b)) = T → length (torsions (c2 b)) = T →
  bfgs fuel b = Some b' →
  length (torsions (c1 b')) = T ∧ length (torsions (c2 b')) = T.
Proof.
  intros H1 H2 Hb'.
  apply (bfgs_rule (λ b, length (torsions (c1 b)) = T ∧ length (torsions (c2 b)) = T))
    with (fuel := fuel) (b := b); [|done|done].
  clear b b' H1 H2 Hb'. intros b [H1 H2]. cbv zeta. split.
  - intros hh yy mm. cbn [c1 c2]. split; [done|]. by apply length_torsions_attempt.
  - intros k hh yy mm Hk. cbn [c1 c2].
    match goal with |- context [MonteCarlo.trial lig sf rec ?c ?e ?p ?pg k ?s] =>
      destruct (trial_spec lig sf rec c e p pg k s) as (-> & _);
      assert (Hlen : length (torsions (s_c2 s)) = T) by (by apply length_torsions_attempt);
      destruct (step_conformation_torsions lig c p (alpha s) (s_c2 s) Hlen) as [Hok _]
    end.
    done.
Qed.

Lemma evaluated_bfgs fuel (b b' : bfgs_vars) :
  (∃ ub prev, v1 b = (evaluate lig (c1 b) sf rec ub prev).2) →
  bfgs fuel b = Some b' →
  ∃ ub prev, v1 b' = (evaluate lig (c1 b') sf rec ub prev).2.
Proof.
  intros Hb Hb'.
  apply (bfgs_rule (λ b, ∃ ub prev, v1 b = (evaluate lig (c1 b) sf rec ub prev).2))
    with (fuel := fuel) (b := b); [|done|done].
  clear b b' Hb Hb'. intros b Hb. cbv zeta. split.
  - intros hh yy mm. exact Hb.
  - intros k hh yy mm Hk. cbn [c1 v1].
    match goal with |- context [MonteCarlo.trial lig sf rec ?c ?e ?p ?pg k ?s] =>
      destruct (trial_spec lig sf rec c e p pg k s) as (-> & -> & _)
    end.
    by eexists _, _.
Qed.

(** X16. The result slot follows the retained pose.  When the task
    returns, [r] is [compose_result(e0, c0)] for the retained [c0] and [e0],
    and [e0] is the energy that an evaluation of that very [c0] wrote: the
    start, a mutation or an accepted trial of a line search. *)
Theorem result_slot_tracks_retained_pose (fuel seed : nat) (t : task) :
  monte_carlo_task fuel seed = Some t →
  r t = compose_result lig (out_e (v0 t)) (c0 t) ∧
  ∃ ub prev, out_e (v0 t) = out_e (evaluate lig (c0 t) sf rec ub prev).2.
Proof.
  unfold MonteCarlo.monte_carlo_task.
  apply (mc_iterations_rule
           (λ t, r t = compose_result lig (out_e (v0 t)) (c0 t) ∧
                 ∃ ub prev, out_e (v0 t) = out_e (evaluate lig (c0 t) sf rec ub prev).2)).
  - intros t0 b [Hr He] Hb.
    destruct (mc_mutate_keeps_retained lig sf rec t0) as (Hc0 & Hv0 & Hr0).
    assert (Hev : ∃ ub prev, v1 b = (evaluate lig (c1 b) sf rec ub prev).2).
    { apply (evaluated_bfgs fuel (vars (mc_mutate t0))); [|done].
      unfold MonteCarlo.mc_mutate. destruct (mutate (c0 t0) (eng t0)). cbn [vars c1 v1].
      by eexists _, _. }
    unfold MonteCarlo.mc_accept. case_bool_decide; cbn [r c0 v0 out_e].
    + split; [done|]. destruct Hev as (ub & prev & ->). by eexists _, _.
    + by rewrite Hc0, Hv0, Hr0.
  - unfold MonteCarlo.mc_start.
    repeat match goal with |- context [uniform_11 ?g] => destruct (uniform_11 g) end.
    match goal with |- context [for_loop ?i ?n ?body ?init] =>
      destruct (for_loop i n body init) end.
    cbn [r c0 v0]. split; [done|]. by eexists _, _.
Qed.

(** X17. [f0] and [g0] are written once.  The evaluation of the start
    fills [e0], [f0] and [g0]; an accepted iteration then replaces [c0] and
    [e0] only, so that when the task returns [f0] and [g0] are still those
    of the start. *)
Theorem start_force_and_gradient_are_kept (fuel seed : nat) (t : task) :
  monte_carlo_task fuel seed = Some t →
  out_f (v0 t) = out_f (v0 (mc_start seed)) ∧
  out_g (v0 t) = out_g (v0 (mc_start seed)).
Proof.
  unfold MonteCarlo.monte_carlo_task.
  apply (mc_iterations_rule
           (λ t, out_f (v0 t) = out_f (v0 (mc_start seed)) ∧
                 out_g (v0 t) = out_g (v0 (mc_start seed)))); [|done].
  intros t0 b [Hf Hg] _.
  destruct (mc_mutate_keeps_retained lig sf rec t0) as (_ & Hv0 & _).
  unfold MonteCarlo.mc_accept. case_bool_decide; cbn [v0 out_f out_g]; by rewrite Hv0.
Qed.

(** X18. The torsion vectors keep their length.  When the task returns,
    [c0], [c1] and [c2] each have [num_active_torsions] torsions, as they
    had when they were constructed: every [torsions[i]] of the task is
    inside its vector. *)
Theorem torsion_vectors_keep_their_length (fuel seed : nat) (t : task) :
  monte_carlo_task fuel seed = Some t →
  length (torsions (c0 t)) = T ∧
  length (torsions (c1 (vars t))) = T ∧
  length (torsions (c2 (vars t))) = T.
Proof.
  unfold MonteCarlo.monte_carlo_task.
  apply (mc_iterations_rule
           (λ t, length (torsions (c0 t)) = T ∧
                 length (torsions (c1 (vars t))) = T ∧
                 length (torsions (c2 (vars t))) = T)).
  - intros t0 b (H0 & H1 & H2) Hb.
    destruct (length_torsions_bfgs fuel (vars (mc_mutate t0)) b) as [Hb1 Hb2]; [| |done|].
    + unfold MonteCarlo.mc_mutate, mutate.
      repeat match goal with |- context [uniform_11 ?g] => destruct (uniform_11 g) end.
      done.
    + unfold MonteCarlo.mc_mutate. by destruct (mutate (c0 t0) (eng t0)).
    + destruct (mc_mutate_keeps_retained lig sf rec t0) as (Hc0 & _ & _).
      unfold MonteCarlo.mc_accept. case_bool_decide; cbn [c0 vars]; [done|].
      by rewrite Hc0.
  - split; [apply mc_start_draws|].
    unfold MonteCarlo.mc_start.
    repeat match goal with |- context [uniform_11 ?g] => destruct (uniform_11 g) end.
    match goal with |- context [for_loop ?i ?n ?body ?init] =>
      destruct (for_loop i n body init) end.
    cbn [vars c1 c2 conformation_new torsions]. by rewrite length_replicate.
Qed.

(** *** The first direction of a BFGS loop *)

Lemma length_p_bfgs fuel (b b' : bfgs_vars) :
  (num_variables lig ≤ length (p b))%nat →
  bfgs fuel b = Some b' →
  (num_variables lig ≤ length (p b'))%nat.
Proof.
  intros Hp Hb'.
  apply (bfgs_rule (λ b, (num_variables lig ≤ length (p b))%nat))
    with (fuel := fuel) (b := b); [|done|done].
  clear b b' Hp Hb'. intros b Hp. cbv zeta.
  destruct (minus_h_times_lookup (num_variables lig) (h b) (out_g (v1 b)) (p b) Hp)
    as [Hlen _].
  split; intros; cbn [p]; lia.
Qed.

Lemma length_p_mc_iterations k fuel seed (t : task) :
  mc_iterations k fuel (mc_start seed) = Some t →
  (num_variables lig ≤ length (p (vars t)))%nat.
Proof.
  apply (mc_iterations_rule (λ t, (num_variables lig ≤ length (p (vars t)))%nat)).
  - intros t0 b Hp Hb.
    assert (Hb' : (num_variables lig ≤ length (p b))%nat).
    { apply (length_p_bfgs fuel (vars (mc_mutate t0))); [|done].
      unfold MonteCarlo.mc_mutate. by destruct (mutate (c0 t0) (eng t0)). }
    unfold MonteCarlo.mc_accept. by case_bool_decide.
  - unfold MonteCarlo.mc_start.
    repeat match goal with |- context [uniform_11 ?g] => destruct (uniform_11 g) end.
    match goal with |- context [for_loop ?i ?n ?body ?init] =>
      destruct (for_loop i n body init) end.
    cbn [vars p]. by rewrite length_replicate.
Qed.

(** X19. Every BFGS loop starts along the steepest descent.  In each
    outer iteration the inverse Hessian is reset to the identity, so the
    first direction is [p = -g1], the negated gradient of the mutated
    conformation, and its slope [pg1 = p . g1 = - g1 . g1] is not
    positive. *)
Theorem first_direction_is_steepest_descent (k fuel seed : nat) (t : task) :
  mc_iterations k fuel (mc_start seed) = Some t →
  let b := vars (mc_mutate t) in
  let g1 := out_g (v1 b) in
  let dir := minus_h_times (num_variables lig) (h b) g1 (p b) in
  (∀ i, (i < num_variables lig)%nat → dir !!! i = - g1 !!! i) ∧
  dot (num_variables lig) dir g1 = - sum_to (num_variables lig) (λ i, g1 !!! i * g1 !!! i) ∧
  dot (num_variables lig) dir g1 ≤ 0.
Proof.
  intros Ht b g1 dir.
  assert (Hp : (num_variables lig ≤ length (p b))%nat).
  { subst b. unfold MonteCarlo.mc_mutate. destruct (mutate (c0 t) (eng t)). cbn [vars p].
    by eapply length_p_mc_iterations. }
  assert (Hh : h b = identity_hessian (num_variables lig)).
  { subst b. unfold MonteCarlo.mc_mutate. by destruct (mutate (c0 t) (eng t)). }
  assert (Hdir : ∀ i, (i < num_variables lig)%nat → dir !!! i = - g1 !!! i).
  { intros i Hi. subst dir.
    destruct (minus_h_times_lookup (num_variables lig) (h b) g1 (p b) Hp) as [_ ->]; [|done].
    f_equal. unfold times. rewrite Hh.
    rewrite (sum_to_ext _ _ (λ j, (if bool_decide (i = j) then 1 else 0) * g1 !!! j)).
    - rewrite sum_to_delta. by rewrite bool_decide_eq_true_2.
    - intros j Hj. by rewrite identity_hessian_lookup. }
  assert (Hdot : dot (num_variables lig) dir g1
                 = - sum_to (num_variables lig) (λ i, g1 !!! i * g1 !!! i)).
  { change (dot (num_variables lig) dir g1)
      with (sum_to (num_variables lig) (λ i, dir !!! i * g1 !!! i)).
    rewrite (sum_to_ext _ _ (λ i, (- (1)) * (g1 !!! i * g1 !!! i))).
    - rewrite sum_to_scale. ring.
    - intros i Hi. rewrite Hdir by done. ring. }
  split; [done|]. split; [done|]. rewrite Hdot.
  apply Qcopp_le_compat with (p := 0) (q := sum_to _ _).
  apply sum_to_nonneg. intros. apply Qc_square_nonneg.
Qed.

(** *** The update of the inverse Hessian *)

(** X20. The update of [h] is the BFGS update: it satisfies the secant
    equation.  With [y = g2 - g1] and the step [alpha p] just taken, and
    provided [y . p] is not zero, the updated packed matrix maps [y] to
    [alpha p]; the vectors must have their [num_variables] cells and [h]
    its [n (n + 1) / 2]. *)
Theorem hessian_update_satisfies_secant (a : fl) (g1 g2 dir hm y0 m0 : list fl) :
  (num_variables lig * (num_variables lig + 1) / 2 ≤ length hm)%nat →
  (num_variables lig ≤ length y0)%nat →
  (num_variables lig ≤ length m0)%nat →
  dot (num_variables lig) (update_hessian lig a g1 g2 dir hm y0 m0).1.2 dir ≠ 0 →
  let n := num_variables lig in
  let upd := update_hessian lig a g1 g2 dir hm y0 m0 in
  (∀ i, (i < n)%nat → upd.1.2 !!! i = g2 !!! i - g1 !!! i) ∧
  ∀ i, (i < n)%nat → times n upd.1.1 upd.1.2 i = a * dir !!! i.
Proof.
  intros Hh Hy0 Hm0 Hyp n upd. revert Hyp. fold n in Hh, Hy0, Hm0 |- *.
  subst upd. unfold update_hessian. fold n. cbv zeta. cbn [fst snd].
  set (y := for_loop 0 n (λ i y, <[i := g2 !!! i - g1 !!! i]> y) y0).
  set (mhy := minus_h_times n hm y m0).
  set (yhy := for_loop 0 n (λ i yhy, yhy - y !!! i * mhy !!! i) 0).
  set (yp := for_loop 0 n (λ i yp, yp + y !!! i * dir !!! i) 0).
  change (dot n y dir) with yp. intros Hyp.
  assert (Hy : ∀ i, (i < n)%nat → y !!! i = g2 !!! i - g1 !!! i).
  { intros i Hi. subst y. by rewrite (fill_lookup n (λ i, g2 !!! i - g1 !!! i)). }
  destruct (minus_h_times_lookup n hm y m0 Hm0) as [_ Hm]. fold mhy in Hm.
  assert (Hyhy : yhy = - sum_to n (λ i, y !!! i * mhy !!! i)) by apply minus_sum.
  split; [done|]. intros i Hi.
  set (ryp := 1 / yp) in *. set (pco := ryp * (ryp * yhy + a)) in *.
  set (delta := λ i j : nat,
         ryp * (mhy !!! i * dir !!! j + mhy !!! j * dir !!! i)
         + pco * dir !!! i * dir !!! j).
  pose proof (packed_update n delta hm Hh) as Hnew. cbv beta in Hnew.
  match type of Hnew with context [for_loop 0 n ?body hm] =>
    set (h' := for_loop 0 n body hm) in * end.
  assert (Hcell : ∀ j, (j < n)%nat →
            h' !!! triangular_matrix_permissive_index i j
            = hm !!! triangular_matrix_permissive_index i j + delta i j).
  { intros j Hj. unfold triangular_matrix_permissive_index. case_bool_decide.
    - by apply Hnew.
    - rewrite Hnew by lia. f_equal. unfold delta. ring. }
  unfold times.
  rewrite (sum_to_ext _ _
             (λ j, hm !!! triangular_matrix_permissive_index i j * y !!! j
                   + ((ryp * mhy !!! i + pco * dir !!! i) * (y !!! j * dir !!! j)
                      + (ryp * dir !!! i) * (y !!! j * mhy !!! j)))).
  2:{ intros j Hj. rewrite Hcell by done. unfold delta. ring. }
  rewrite !sum_to_plus, !sum_to_scale.
  change (sum_to n (λ j, hm !!! triangular_matrix_permissive_index i j * y !!! j))
    with (times n hm y i).
  change (sum_to n (λ j, y !!! j * dir !!! j)) with yp.
  assert (Htimes : times n hm y i = - mhy !!! i) by (rewrite Hm by done; ring).
  assert (Hsum : sum_to n (λ j, y !!! j * mhy !!! j) = - yhy) by (rewrite Hyhy; ring).
  rewrite Htimes, Hsum.
  clearbody yp yhy mhy y h'. subst pco ryp. field. done.
Qed.

End Task.

#[local] Existing Instance Fixtures.library.

Lemma random_stream_is_fixed_witness :
  ∃ t, monte_carlo_task Fixtures.bowl_ligand [] Fixtures.search_box 3 7 = Some t ∧
       eng t = after_draws (5 + 1 + 3 * num_mc_iterations) (seed_engine 7).
Proof.
  eexists. split; [vm_compute; reflexivity|].
  apply (random_stream_is_fixed Fixtures.bowl_ligand [] Fixtures.search_box 3 7).
  vm_compute. reflexivity.
Defined.

Lemma result_slot_tracks_retained_pose_witness :
  ∃ t, monte_carlo_task Fixtures.bowl_ligand [] Fixtures.search_box 3 7 = Some t ∧
       r t = compose_result Fixtures.bowl_ligand (out_e (v0 t)) (c0 t) ∧
       ∃ ub prev, out_e (v0 t)
                  = out_e (evaluate Fixtures.bowl_ligand (c0 t) [] Fixtures.search_box
                             ub prev).2.
Proof.
  eexists. split; [vm_compute; reflexivity|].
  apply (result_slot_tracks_retained_pose Fixtures.bowl_ligand [] Fixtures.search_box 3 7).
  vm_compute. reflexivity.
Defined.

Lemma start_force_and_gradient_are_kept_witness :
  ∃ t, monte_carlo_task Fixtures.bowl_ligand [] Fixtures.search_box 3 7 = Some t ∧
       out_f (v0 t) = out_f (v0 (mc_start Fixtures.bowl_ligand [] Fixtures.search_box 7)) ∧
       out_g (v0 t) = out_g (v0 (mc_start Fixtures.bowl_ligand [] Fixtures.search_box 7)).
Proof.
  eexists. split; [vm_compute; reflexivity|].
  apply (start_force_and_gradient_are_kept Fixtures.bowl_ligand [] Fixtures.search_box 3 7).
  vm_compute. reflexivity.
Defined.

Lemma torsion_vectors_keep_their_length_witness :
  ∃ t, monte_carlo_task Fixtures.bowl_ligand [] Fixtures.search_box 3 7 = Some t ∧
       length (torsions (c0 t)) = 1%nat ∧
       length (torsions (c1 (vars t))) = 1%nat ∧
       length (torsions (c2 (vars t))) = 1%nat.
Proof.
  eexists. split; [vm_compute; reflexivity|].
  apply (torsion_vectors_keep_their_length Fixtures.bowl_ligand [] Fixtures.search_box 3 7).
  vm_compute. reflexivity.
Defined.

Lemma first_direction_is_steepest_descent_witness :
  ∃ t, mc_iterations Fixtures.bowl_ligand [] Fixtures.search_box 1 3
         (mc_start Fixtures.bowl_ligand [] Fixtures.search_box 7) = Some t ∧
       let b := vars (mc_mutate Fixtures.bowl_ligand [] Fixtures.search_box t) in
       let g1 := out_g (v1 b) in
       let dir := minus_h_times (num_variables Fixtures.bowl_ligand) (h b) g1 (p b) in
       (∀ i, (i < num_variables Fixtures.bowl_ligand)%nat → dir !!! i = - g1 !!! i) ∧
       dot (num_variables Fixtures.bowl_ligand) dir g1
       = - sum_to (num_variables Fixtures.bowl_ligand) (λ i, g1 !!! i * g1 !!! i) ∧
       dot (num_variables Fixtures.bowl_ligand) dir g1 ≤ 0.
Proof.
  eexists. split; [vm_compute; reflexivity|].
  apply (first_direction_is_steepest_descent Fixtures.bowl_ligand [] Fixtures.search_box
           1 3 7).
  vm_compute. reflexivity.
Defined.

Lemma hessian_update_satisfies_secant_witness :
  let upd := update_hessian Fixtures.bowl_ligand 1 (replicate 7 0) (replicate 7 1)
               (replicate 7 1) (identity_hessian 7) (replicate 7 0) (replicate 7 0) in
  times 7 upd.1.1 upd.1.2 3 = 1 * replicate 7 1 !!! 3%nat.
Proof.
  refine (proj2 (hessian_update_satisfies_secant Fixtures.bowl_ligand 1
                   (replicate 7 0) (replicate 7 1) (replicate 7 1) (identity_hessian 7)
                   (replicate 7 0) (replicate 7 0) _ _ _ _) 3%nat _).
  - vm_compute. lia.
  - vm_compute. lia.
  - vm_compute. lia.
  - intros Heq. vm_compute in Heq. discriminate Heq.
  - vm_compute. lia.
Defined.

End MonteCarloProperties.
